(** * truth.py : Hebrew word encoder, decoder and number analysis

    A shallow embedding of [truth.py] and the properties of its
    encode / decode / analyse pipeline.

    Data model.
    - A Python [str] is the list of its Unicode code points ([list Z]);
      a one-character string and its code point are identified where the
      source does ([for lettre in mot], [ord], [chr]).
    - A Python [int] is a [Z] (unbounded in both languages).
    - The two module-level dicts are finite maps ([gmap Z Z]).
    - A raised exception is a value of [result]; the kinds of
      exception the functions of the file can raise are kept apart.
    - The interpreter's Unicode character database, its integer-string
      digit limit, the iteration order of [set], the digest functions
      of [hashlib] / [base64] and the encoding of the standard output are
      not part of the repository: they are the fields of the class
      [Interp], and every definition is generic in it.
    - [math.sqrt] is IEEE-754 binary64, taken from [SpecFloat]. *)

From stdpp Require Import base option list gmap.
From Stdlib Require Import ZArith Lia Znumtheory Sorted Permutation.
From Stdlib Require Decimal DecimalString DecimalPos DecimalFacts Ascii String.
From Stdlib Require Import SpecFloat.

#[local] Open Scope Z_scope.

(** ** Exceptions *)

Inductive exn : Set :=
| TypeError
| ValueError
| KeyError
| OverflowError
| UnicodeEncodeError.

(** The outcome of a call: a value, a raised exception, or [OutOfFuel]
    when a [while] loop of the model was not given enough iterations to
    finish. *)
Inductive result (A : Type) : Type :=
| Ok (a : A)
| Raise (e : exn)
| OutOfFuel.

Arguments Ok {A} a.
Arguments Raise {A} e.
Arguments OutOfFuel {A}.

Definition bind {A B} (r : result A) (k : A -> result B) : result B :=
  match r with
  | Ok a => k a
  | Raise e => Raise e
  | OutOfFuel => OutOfFuel
  end.

Notation "'let*' x ':=' r 'in' k" := (bind r (fun x => k))
  (at level 10, x name, r at level 100, k at level 200).

(** ** Strings *)

Definition str := list Z.

(** What the interpreter supplies. [isalpha], [isdigit] and [upper] are
    [str.isalpha], [str.isdigit] and [str.upper] on a one-character string;
    [decimal c] is the value of [c] as a decimal digit (Unicode property
    Decimal), which is what [int] reads; [max_str_digits] is
    [sys.get_int_max_str_digits()] (0: no limit); [set_iter l] is the order
    in which [set(l)] is iterated; [stdout_encodes c] tells whether the
    encoding of [sys.stdout] has the character [c]. *)
Class Interp := {
  isalpha : Z -> bool;
  isdigit : Z -> bool;
  decimal : Z -> option Z;
  upper : Z -> str;
  max_str_digits : Z;
  set_iter : list Z -> list Z;
  md5 : str -> str;
  sha256 : str -> str;
  b64encode : str -> str;
  stdout_encodes : Z -> bool;
}.

(** [str.isspace] on one character: the code points CPython's
    [_PyUnicode_IsWhitespace] answers for. *)
Definition isspace (c : Z) : bool :=
  ((0x09 <=? c) && (c <=? 0x0D)) || ((0x1C <=? c) && (c <=? 0x20))
  || (c =? 0x85) || (c =? 0xA0) || (c =? 0x1680)
  || ((0x2000 <=? c) && (c <=? 0x200A))
  || (c =? 0x2028) || (c =? 0x2029) || (c =? 0x202F) || (c =? 0x205F)
  || (c =? 0x3000).

Fixpoint lstrip (s : str) : str :=
  match s with
  | c :: s' => if isspace c then lstrip s' else s
  | [] => []
  end.

Definition rstrip (s : str) : str := reverse (lstrip (reverse s)).

(** [s.strip()] *)
Definition strip (s : str) : str := rstrip (lstrip s).

(** [s.split(sep)] for a one-character separator. *)
Fixpoint split (sep : Z) (s : str) : list str :=
  match s with
  | [] => [[]]
  | c :: s' =>
      if c =? sep then [] :: split sep s'
      else match split sep s' with
           | t :: ts => (c :: t) :: ts
           | [] => [[c]]
           end
  end.

(** [sep.join(l)] *)
Fixpoint join (sep : str) (l : list str) : str :=
  match l with
  | [] => []
  | [x] => x
  | x :: l' => x ++ sep ++ join sep l'
  end.

(** ['.'] and ['A'] *)
Definition dot : Z := 46.
Definition ord_A : Z := 65.

(** [str(n)] for an int: an optional minus sign and the decimal digits. *)
Definition py_str (n : Z) : str :=
  map (fun a => Z.of_N (Ascii.N_of_ascii a))
      (String.list_ascii_of_string
         (DecimalString.NilZero.string_of_int (Z.to_int n))).

(** [ord(s)]: the code point of a one-character string. *)
Definition ord (s : str) : result Z :=
  match s with
  | [c] => Ok c
  | _ => Raise TypeError
  end.

(** [chr(i)] *)
Definition chr (i : Z) : result Z :=
  if (0 <=? i) && (i <=? 0x10FFFF) then Ok i else Raise ValueError.

Section WithInterp.
Context `{I : Interp}.

(** [s.isdigit()]: at least one character, and all of them digits. *)
Definition str_isdigit (s : str) : bool :=
  match s with
  | [] => false
  | _ => forallb isdigit s
  end.

(** The decimal values of the characters of [s], when all have one. *)
Fixpoint decimals (s : str) : option (list Z) :=
  match s with
  | [] => Some []
  | c :: s' =>
      match decimal c, decimals s' with
      | Some d, Some ds => Some (d :: ds)
      | _, _ => None
      end
  end.

Definition of_digits (ds : list Z) : Z :=
  fold_left (fun acc d => 10 * acc + d) ds 0.

(** The threshold below which CPython does not look at the digit limit. *)
Definition MAX_STR_DIGITS_THRESHOLD : Z := 640.

Definition too_many_digits (s : str) : bool :=
  let digits := Z.of_nat (length s) in
  (MAX_STR_DIGITS_THRESHOLD <? digits)
  && (0 <? max_str_digits) && (max_str_digits <? digits).

(** [int(s)] on a string without sign, blank or underscore, which is
    every string [isdigit] accepts and every character of [str(n)]
    ([int('-')] is a [ValueError] as well): the characters are read as
    decimal digits, a character that is not one is a [ValueError], and so
    is a string longer than the digit limit. *)
Definition py_int (s : str) : result Z :=
  match s with
  | [] => Raise ValueError
  | _ =>
      match decimals s with
      | Some ds => if too_many_digits s then Raise ValueError else Ok (of_digits ds)
      | None => Raise ValueError
      end
  end.

(** ** The alphabet tables *)

Definition alphabet_hebreu_items : list (Z * Z) :=
    [ (0x5D0, 1); (0x5D1, 2); (0x5D2, 3); (0x5D3, 4); (0x5D4, 5);
      (0x5D5, 6); (0x5D6, 7); (0x5D7, 8); (0x5D8, 9); (0x5D9, 10);
      (0x5DB, 11); (0x5DC, 12); (0x5DE, 13); (0x5E0, 14); (0x5E1, 15);
      (0x5E2, 16); (0x5E4, 17); (0x5E6, 18); (0x5E7, 19); (0x5E8, 20);
      (0x5E9, 21); (0x5EA, 22);
      (* final forms *)
      (0x5DA, 11); (0x5DD, 13); (0x5DF, 14); (0x5E3, 17); (0x5E5, 18) ].

Definition ALPHABET_HEBREU : gmap Z Z := list_to_map alphabet_hebreu_items.

Definition alphabet_inverse_items : list (Z * Z) :=
    [ (1, 0x5D0); (2, 0x5D1); (3, 0x5D2); (4, 0x5D3); (5, 0x5D4);
      (6, 0x5D5); (7, 0x5D6); (8, 0x5D7); (9, 0x5D8); (10, 0x5D9);
      (11, 0x5DB); (12, 0x5DC); (13, 0x5DE); (14, 0x5E0); (15, 0x5E1);
      (16, 0x5E2); (17, 0x5E4); (18, 0x5E6); (19, 0x5E7); (20, 0x5E8);
      (21, 0x5E9); (22, 0x5EA) ].

Definition ALPHABET_INVERSE : gmap Z Z := list_to_map alphabet_inverse_items.

(** ** Encoder and decoder *)

(** The [for lettre in mot] loop of [encoder_mot_hebreu]; [resultat] is the
    list the loop appends to. *)
Fixpoint encoder_boucle (mot : str) (resultat : list str) : result (list str) :=
  match mot with
  | [] => Ok resultat
  | lettre :: mot' =>
      match ALPHABET_HEBREU !! lettre with
      | Some numero => encoder_boucle mot' (resultat ++ [py_str numero])
      | None =>
          if isalpha lettre then
            let* o := ord (upper lettre) in
            let numero := o - ord_A + 1 in
            encoder_boucle mot' (resultat ++ [py_str numero])
          else encoder_boucle mot' resultat
      end
  end.

Definition encoder_mot_hebreu (mot : str) : result str :=
  let mot := strip mot in
  let* resultat := encoder_boucle mot [] in
  Ok (join [dot] resultat).

(** The [for nombre in nombres] loop of [decoder_sequence_hebreu]. *)
Fixpoint decoder_boucle (nombres : list str) (mot_decode : list str)
  : result (list str) :=
  match nombres with
  | [] => Ok mot_decode
  | nombre :: nombres' =>
      if str_isdigit nombre then
        let* numero := py_int nombre in
        if (1 <=? numero) && (numero <=? 22) then
          match ALPHABET_INVERSE !! numero with
          | Some lettre => decoder_boucle nombres' (mot_decode ++ [[lettre]])
          | None => Raise KeyError
          end
        else if (1 <=? numero) && (numero <=? 26) then
          let* lettre := chr (numero + ord_A - 1) in
          decoder_boucle nombres' (mot_decode ++ [[lettre]])
        else decoder_boucle nombres' mot_decode
      else decoder_boucle nombres' mot_decode
  end.

Definition decoder_sequence_hebreu (sequence : str) : result str :=
  let nombres := split dot sequence in
  let* mot_decode := decoder_boucle nombres [] in
  Ok (join [] mot_decode).

(** ** Gematria *)

Fixpoint somme_boucle (mot : str) (total : Z) : Z :=
  match mot with
  | [] => total
  | lettre :: mot' =>
      match ALPHABET_HEBREU !! lettre with
      | Some v => somme_boucle mot' (total + v)
      | None => somme_boucle mot' total
      end
  end.

Definition mot_vers_nombre (mot : str) : Z :=
  let mot := strip mot in
  somme_boucle mot 0.

(** ** Palindrome and letter set *)

(** [c in ALPHABET_HEBREU] *)
Definition est_hebreu (c : Z) : bool := bool_decide (is_Some (ALPHABET_HEBREU !! c)).

Definition est_palindrome_hebreu (mot : str) : bool :=
  let mot := strip mot in
  let mot_nettoye := List.filter est_hebreu mot in
  bool_decide (mot_nettoye = reverse mot_nettoye).

Definition compter_lettres_hebreu (mot : str) : Z :=
  Z.of_nat (length (List.filter est_hebreu mot)).

(** [sorted(l, key=...)] computes the key of every element first, then
    sorts the elements by key, stably. *)
Fixpoint decorate (key : Z -> result Z) (l : list Z) : result (list (Z * Z)) :=
  match l with
  | [] => Ok []
  | x :: l' =>
      let* k := key x in
      let* kl := decorate key l' in
      Ok ((k, x) :: kl)
  end.

Fixpoint insert_stable (p : Z * Z) (l : list (Z * Z)) : list (Z * Z) :=
  match l with
  | [] => [p]
  | q :: l' => if q.1 <? p.1 then q :: insert_stable p l' else p :: l
  end.

Definition stable_sort (l : list (Z * Z)) : list (Z * Z) :=
  foldr insert_stable [] l.

Definition sorted (key : Z -> result Z) (l : list Z) : result (list Z) :=
  let* kl := decorate key l in
  Ok (map snd (stable_sort kl)).

(** [ALPHABET_HEBREU[x]] *)
Definition valeur (x : Z) : result Z :=
  match ALPHABET_HEBREU !! x with
  | Some v => Ok v
  | None => Raise KeyError
  end.

Definition lettres_uniques_hebreu (mot : str) : result str :=
  let lettres := List.filter est_hebreu mot in
  sorted valeur (set_iter lettres).

Record Gematria := {
  valeur_simple : Z;
  valeur_miloui : Z;
  description : str;
}.

(** ["Gematria: "] *)
Definition gematria_prefix : str := [71; 101; 109; 97; 116; 114; 105; 97; 58; 32].

Definition calculer_gematria (mot : str) : Gematria :=
  let mot := strip mot in
  let valeur_simple := mot_vers_nombre mot in
  {| valeur_simple := valeur_simple;
     valeur_miloui := valeur_simple;
     description := gematria_prefix ++ py_str valeur_simple |}.

(** ** Factorisation and primality

    Every divisor used below is at least 2 ([d] starts at 2 and grows, [i]
    ranges from 2), so [%] and [//] are [Z.modulo] and [Z.div] and never
    raise. A [while] loop runs at most [fuel] iterations each time it is
    entered. *)

(** [while n % d == 0: factors.append(d); n //= d] *)
Fixpoint factorize_inner (fuel : nat) (d n : Z) (factors : list Z)
  : result (Z * list Z) :=
  if n mod d =? 0 then
    match fuel with
    | O => OutOfFuel
    | S fuel' => factorize_inner fuel' d (n / d) (factors ++ [d])
    end
  else Ok (n, factors).

(** [while d * d <= n: <inner loop>; d += 1] *)
Fixpoint factorize_outer (fuel0 fuel : nat) (d n : Z) (factors : list Z)
  : result (Z * list Z) :=
  if d * d <=? n then
    match fuel with
    | O => OutOfFuel
    | S fuel' =>
        let* nf := factorize_inner fuel0 d n factors in
        factorize_outer fuel0 fuel' (d + 1) nf.1 nf.2
    end
  else Ok (n, factors).

Definition factorize (fuel : nat) (n : Z) : result (list Z) :=
  if n <? 2 then Ok [n]
  else
    let* nf := factorize_outer fuel fuel 2 n [] in
    if 1 <? nf.1 then Ok (nf.2 ++ [nf.1]) else Ok nf.2.

(** binary64 *)
Definition prec : Z := 53.
Definition emax : Z := 1024.

(** The conversion of an int to a float ([PyLong_AsDouble]): the nearest
    float, ties to even; an int that rounds out of range raises. *)
Definition float_of_int (n : Z) : result spec_float :=
  match binary_normalize prec emax n 0 false with
  | S754_infinity _ => Raise OverflowError
  | x => Ok x
  end.

(** [math.sqrt(n)] for an int [n]. *)
Definition math_sqrt (n : Z) : result spec_float :=
  let* x := float_of_int n in
  match x with
  | S754_finite true _ _ => Raise ValueError
  | _ => Ok (SFsqrt prec emax x)
  end.

(** [int(x)] for a float [x]: truncation towards zero. *)
Definition int_of_float (x : spec_float) : result Z :=
  match x with
  | S754_zero _ => Ok 0
  | S754_infinity _ => Raise OverflowError
  | S754_nan => Raise ValueError
  | S754_finite s m e =>
      let a := Z.shiftl (Z.pos m) e in
      Ok (if s then - a else a)
  end.

(** [range(a, b)] *)
Definition range (a b : Z) : list Z := seqZ a (b - a).

(** [for i in l: if n % i == 0: return False] followed by [return True]. *)
Fixpoint is_prime_boucle (l : list Z) (n : Z) : bool :=
  match l with
  | [] => true
  | i :: l' => if n mod i =? 0 then false else is_prime_boucle l' n
  end.

Definition is_prime (n : Z) : result bool :=
  if n <? 2 then Ok false
  else
    let* r := math_sqrt n in
    let* b := int_of_float r in
    Ok (is_prime_boucle (range 2 (b + 1)) n).

(** ** Number analysis *)

Inductive parity_label := Odd | Even.
Inductive prime_label := Prime | Composite.

(** The entries of the dict [analyser_nombre] returns. The two label
    entries are kept as tags rather than as their display strings; the
    entries [hexadecimal], [binary], [octal] and [signification_gematria]
    (base conversions and a table lookup on [nombre]) are left out. *)
Record NombreResults := {
  decimal_ : Z;
  parity : parity_label;
  factors : list Z;
  prime_status : prime_label;
  digit_sum : Z;
  digit_count : Z;
  square : Z;
  cube : Z;
  square_root : spec_float;
  md5_ : str;
  sha256_ : str;
  base64_ : str;
  valeur_gematria : Z;
}.

(** [sum(int(d) for d in s)] *)
Fixpoint sum_digits (s : str) : result Z :=
  match s with
  | [] => Ok 0
  | d :: s' =>
      let* v := py_int [d] in
      let* t := sum_digits s' in
      Ok (v + t)
  end.

Definition analyser_nombre (fuel : nat) (nombre : Z) : result NombreResults :=
  let parity := if nombre mod 2 =? 0 then Even else Odd in
  let* factors := factorize fuel nombre in
  let* p := is_prime nombre in
  let prime_status := if p then Prime else Composite in
  let* digit_sum := sum_digits (py_str nombre) in
  let digit_count := Z.of_nat (length (py_str nombre)) in
  let* square_root :=
    (if 0 <=? nombre then math_sqrt nombre else Ok S754_nan) in
  Ok {| decimal_ := nombre;
        parity := parity;
        factors := factors;
        prime_status := prime_status;
        digit_sum := digit_sum;
        digit_count := digit_count;
        square := nombre ^ 2;
        cube := nombre ^ 3;
        square_root := square_root;
        md5_ := md5 (py_str nombre);
        sha256_ := sha256 (py_str nombre);
        base64_ := b64encode (py_str nombre);
        valeur_gematria := nombre |}.

(** ** Word analysis *)

Record MotResults := {
  mot_original : str;
  longueur_mot : Z;
  sequence_hebreu : str;
  valeur_numerique : Z;
  mot_decode : str;
  est_palindrome : bool;
  nombre_lettres : Z;
  lettres_uniques : str;
  gematria : Gematria;
  nombre_results : NombreResults;
}.

Definition analyser_mot_hebreu (fuel : nat) (mot : str) : result MotResults :=
  let* sequence_hebreu := encoder_mot_hebreu mot in
  let valeur_numerique := mot_vers_nombre mot in
  let* mot_decode := decoder_sequence_hebreu sequence_hebreu in
  let est_palindrome := est_palindrome_hebreu mot in
  let nombre_lettres := compter_lettres_hebreu mot in
  let* lettres_uniques := lettres_uniques_hebreu mot in
  let gematria := calculer_gematria mot in
  let nombre := valeur_numerique in
  let* nombre_results := analyser_nombre fuel nombre in
  Ok {| mot_original := mot;
        longueur_mot := Z.of_nat (length mot);
        sequence_hebreu := sequence_hebreu;
        valeur_numerique := valeur_numerique;
        mot_decode := mot_decode;
        est_palindrome := est_palindrome;
        nombre_lettres := nombre_lettres;
        lettres_uniques := lettres_uniques;
        gematria := gematria;
        nombre_results := nombre_results |}.

(** ** Command line *)

(** The test of [main]:
    ['.' in entree and all(part.isdigit() for part in entree.split('.'))] *)
Definition est_sequence_numerique (entree : str) : bool :=
  bool_decide (dot ∈ entree) && forallb str_isdigit (split dot entree).

End WithInterp.

(** ** Display and the remaining entries

    The functions of [truth.py] outside the encode / decode / analyse
    pipeline: the two tables of texts, the base conversions of
    [analyser_nombre], the two display functions with what they write to
    the standard output, and [main]. *)

(** *** The names of the letters *)

(** The dict [noms] of [nom_lettre_hebreu]; the names are ASCII. *)
Definition noms_items : list (Z * str) :=
  [ (0x5D0, [65; 108; 101; 112; 104]);
    (0x5D1, [66; 101; 116]);
    (0x5D2, [71; 105; 109; 101; 108]);
    (0x5D3, [68; 97; 108; 101; 116]);
    (0x5D4, [72; 101]);
    (0x5D5, [86; 97; 118]);
    (0x5D6, [90; 97; 121; 105; 110]);
    (0x5D7, [67; 104; 101; 116]);
    (0x5D8, [84; 101; 116]);
    (0x5D9, [89; 111; 100]);
    (0x5DB, [75; 97; 102]);
    (0x5DC, [76; 97; 109; 101; 100]);
    (0x5DE, [77; 101; 109]);
    (0x5E0, [78; 117; 110]);
    (0x5E1, [83; 97; 109; 101; 99; 104]);
    (0x5E2, [65; 121; 105; 110]);
    (0x5E4, [80; 101]);
    (0x5E6, [84; 115; 97; 100; 105]);
    (0x5E7, [75; 111; 102]);
    (0x5E8, [82; 101; 115; 104]);
    (0x5E9, [83; 104; 105; 110]);
    (0x5EA, [84; 97; 118]);
    (0x5DA, [75; 97; 102; 32; 83; 111; 102; 105; 116]);
    (0x5DD, [77; 101; 109; 32; 83; 111; 102; 105; 116]);
    (0x5DF, [78; 117; 110; 32; 83; 111; 102; 105; 116]);
    (0x5E3, [80; 101; 32; 83; 111; 102; 105; 116]);
    (0x5E5, [84; 115; 97; 100; 105; 32; 83; 111; 102; 105; 116]) ].

Definition noms : gmap Z str := list_to_map noms_items.

(** [noms.get(lettre, '?')] *)
Definition nom_lettre_hebreu (lettre : Z) : str :=
  default [63] (noms !! lettre).

(** *** The meanings of the numbers *)

(** The dict [significations] of [signification_gematria], each text as
    its code points. *)
Definition significations_items : list (Z * str) :=
  [ (1, [1488; 32; 45; 32; 1488; 1495; 1491; 1493; 1514; 44; 32; 1488; 1500;
      1493; 1492; 1497; 1501; 32; 40; 85; 110; 105; 116; 233; 44; 32; 68; 105;
      101; 117; 41]);
    (2, [1489; 32; 45; 32; 1489; 1512; 1499; 1492; 44; 32; 1489; 1497; 1514; 32;
      40; 66; 233; 110; 233; 100; 105; 99; 116; 105; 111; 110; 44; 32; 77; 97;
      105; 115; 111; 110; 41]);
    (3, [1490; 32; 45; 32; 1490; 1502; 1493; 1500; 44; 32; 1490; 1491; 1493; 1500;
      1492; 32; 40; 82; 233; 99; 111; 109; 112; 101; 110; 115; 101; 44; 32;
      71; 114; 97; 110; 100; 101; 117; 114; 41]);
    (4, [1491; 32; 45; 32; 1491; 1506; 1514; 44; 32; 1491; 1500; 1514; 32; 40; 67;
      111; 110; 110; 97; 105; 115; 115; 97; 110; 99; 101; 44; 32; 80; 111;
      114; 116; 101; 41]);
    (5, [1492; 32; 45; 32; 1492; 1488; 1512; 1492; 44; 32; 1495; 1497; 1497; 1501;
      32; 40; 73; 108; 108; 117; 109; 105; 110; 97; 116; 105; 111; 110; 44;
      32; 86; 105; 101; 41]);
    (6, [1493; 32; 45; 32; 1493; 1493; 1491; 1488; 1493; 1514; 44; 32; 99; 111;
      110; 110; 101; 99; 116; 105; 111; 110; 32; 40; 67; 101; 114; 116; 105;
      116; 117; 100; 101; 44; 32; 67; 111; 110; 110; 101; 99; 116; 105; 111;
      110; 41]);
    (7, [1494; 32; 45; 32; 1494; 1493; 1492; 1512; 44; 32; 1502; 1494; 1500; 32;
      40; 66; 114; 105; 108; 108; 97; 110; 99; 101; 44; 32; 67; 104; 97; 110;
      99; 101; 41]);
    (8, [1495; 32; 45; 32; 1495; 1497; 1497; 1501; 44; 32; 1495; 1505; 1491; 32;
      40; 86; 105; 101; 44; 32; 71; 114; 226; 99; 101; 41]);
    (9, [1496; 32; 45; 32; 1496; 1493; 1489; 44; 32; 1496; 1492; 1512; 1492; 32;
      40; 66; 111; 110; 116; 233; 44; 32; 80; 117; 114; 101; 116; 233; 41]);
    (10, [1497; 32; 45; 32; 1497; 1491; 44; 32; 1497; 1505; 1493; 1491; 32; 40;
      77; 97; 105; 110; 44; 32; 70; 111; 110; 100; 97; 116; 105; 111; 110;
      41]);
    (11, [1499; 32; 45; 32; 1499; 1493; 1495; 44; 32; 1499; 1489; 1493; 1491; 32;
      40; 70; 111; 114; 99; 101; 44; 32; 72; 111; 110; 110; 101; 117; 114;
      41]);
    (12, [1500; 32; 45; 32; 1500; 1497; 1502; 1493; 1491; 44; 32; 1500; 1489; 32;
      40; 201; 116; 117; 100; 101; 44; 32; 67; 339; 117; 114; 41]);
    (13, [1502; 32; 45; 32; 1502; 1497; 1501; 44; 32; 1502; 1510; 1493; 1493;
      1514; 32; 40; 69; 97; 117; 44; 32; 67; 111; 109; 109; 97; 110; 100; 101;
      109; 101; 110; 116; 115; 41]);
    (14, [1504; 32; 45; 32; 1504; 1513; 1502; 1492; 44; 32; 1504; 1510; 1495; 32;
      40; 194; 109; 101; 44; 32; 201; 116; 101; 114; 110; 105; 116; 233; 41]);
    (15, [1505; 32; 45; 32; 1505; 1493; 1491; 44; 32; 1505; 1490; 1493; 1500;
      1492; 32; 40; 83; 101; 99; 114; 101; 116; 44; 32; 86; 101; 114; 116;
      117; 41]);
    (16, [1506; 32; 45; 32; 1506; 1497; 1503; 44; 32; 1506; 1493; 1500; 1501; 32;
      40; 338; 105; 108; 44; 32; 77; 111; 110; 100; 101; 41]);
    (17, [1508; 32; 45; 32; 1508; 1492; 44; 32; 1508; 1500; 1488; 32; 40; 66; 111;
      117; 99; 104; 101; 44; 32; 77; 101; 114; 118; 101; 105; 108; 108; 101;
      41]);
    (18, [1510; 32; 45; 32; 1510; 1491; 1511; 44; 32; 1510; 1502; 1495; 32; 40;
      74; 117; 115; 116; 105; 99; 101; 44; 32; 80; 108; 97; 110; 116; 101;
      41]);
    (19, [1511; 32; 45; 32; 1511; 1493; 1491; 1513; 44; 32; 1511; 1493; 1502;
      1492; 32; 40; 83; 97; 105; 110; 116; 44; 32; 201; 116; 97; 103; 101;
      41]);
    (20, [1512; 32; 45; 32; 1512; 1493; 1495; 44; 32; 1512; 1495; 1502; 1497;
      1501; 32; 40; 69; 115; 112; 114; 105; 116; 44; 32; 77; 105; 115; 233;
      114; 105; 99; 111; 114; 100; 101; 41]);
    (21, [1513; 32; 45; 32; 1513; 1500; 1493; 1501; 44; 32; 1513; 1502; 1497;
      1501; 32; 40; 80; 97; 105; 120; 44; 32; 67; 105; 101; 117; 120; 41]);
    (22, [1514; 32; 45; 32; 1514; 1493; 1512; 1492; 44; 32; 1514; 1513; 1493;
      1489; 1492; 32; 40; 84; 111; 114; 97; 104; 44; 32; 82; 101; 112; 101;
      110; 116; 105; 114; 41]);
    (26, [1497; 1492; 1493; 1492; 32; 45; 32; 78; 111; 109; 32; 100; 101; 32; 68;
      105; 101; 117]);
    (32, [51; 50; 32; 99; 104; 101; 109; 105; 110; 115; 32; 100; 101; 32; 108; 97;
      32; 115; 97; 103; 101; 115; 115; 101]);
    (42, [52; 50; 32; 108; 101; 116; 116; 114; 101; 115; 32; 100; 117; 32; 78;
      111; 109; 32; 68; 105; 118; 105; 110]);
    (72, [55; 50; 32; 110; 111; 109; 115; 32; 100; 101; 32; 68; 105; 101; 117]) ].

Definition significations : gmap Z str := list_to_map significations_items.

(** The text for a number without an entry. *)
Definition signification_generale : str :=
  [1502; 1505; 1508; 1512; 32; 1499; 1500; 1500; 1497; 32; 40; 78; 111; 109; 98;
   114; 101; 32; 103; 233; 110; 233; 114; 97; 108; 41].

(** [significations.get(nombre, ...)] *)
Definition signification_gematria (nombre : Z) : str :=
  default signification_generale (significations !! nombre).

(** *** The table [afficher_table_hebreu] prints

    What the function computes before it prints: [alphabet] is
    [list(ALPHABET_HEBREU.items())], the pairs of the dict in the order its
    literal gives them. *)

(** The loop that keeps the first pair of each value; [valeurs_vues] is a
    set of ints. *)
Fixpoint alphabet_unique_boucle (alphabet : list (Z * Z))
    (alphabet_unique : list (Z * Z)) (valeurs_vues : gset Z) : list (Z * Z) :=
  match alphabet with
  | [] => alphabet_unique
  | (lettre, valeur) :: alphabet' =>
      if bool_decide (valeur ∉ valeurs_vues) then
        alphabet_unique_boucle alphabet'
          (alphabet_unique ++ [(lettre, valeur)]) (valeurs_vues ∪ {[valeur]})
      else alphabet_unique_boucle alphabet' alphabet_unique valeurs_vues
  end.

(** [l.sort(key=lambda x: x[1])] on a list of pairs (lettre, valeur): the
    decorated pair of an element is (valeur, lettre). *)
Definition trier_par_valeur (l : list (Z * Z)) : list (Z * Z) :=
  map (fun kx => (kx.2, kx.1)) (stable_sort (map (fun x => (x.2, x.1)) l)).

(** The list [alphabet_unique] as it stands when the rows are printed,
    for a dict whose items are [alphabet]. *)
Definition alphabet_unique_de (alphabet : list (Z * Z)) : list (Z * Z) :=
  trier_par_valeur (alphabet_unique_boucle alphabet [] ∅).

Definition alphabet_unique : list (Z * Z) :=
  alphabet_unique_de alphabet_hebreu_items.

(** *** The base conversions of [analyser_nombre] *)

(** The digits of [n >= 0] in base [b], most significant first, by
    repeated division; [fuel] bounds the number of divisions. *)
Fixpoint chiffres_base (fuel : nat) (b n : Z) : list Z :=
  match fuel with
  | O => []
  | S fuel' =>
      if n <? b then [n] else chiffres_base fuel' b (n / b) ++ [n mod b]
  end.

(** The character of a digit: '0'..'9', then 'a'..'f'. *)
Definition caractere_chiffre (k : Z) : Z :=
  if k <? 10 then 48 + k else 87 + k.

(** [hex(n)], [bin(n)] and [oct(n)]: a minus sign for a negative number,
    '0', the letter of the base, the digits of the absolute value. *)
Definition ecrire_base (lettre b n : Z) : str :=
  (if n <? 0 then [45] else [])
  ++ [48; lettre]
  ++ map caractere_chiffre (chiffres_base (S (Z.to_nat (Z.abs n))) b (Z.abs n)).

Definition py_hex (n : Z) : str := ecrire_base 120 16 n.
Definition py_bin (n : Z) : str := ecrire_base 98 2 n.
Definition py_oct (n : Z) : str := ecrire_base 111 8 n.

Section Bases.
Context `{I : Interp}.

(** [s.upper()] *)
Definition str_upper (s : str) : str := concat (map upper s).

(** The entries [hexadecimal], [binary] and [octal]:
    [hex(nombre)[2:].upper()], [bin(nombre)[2:]], [oct(nombre)[2:]]. *)
Definition hexadecimal (nombre : Z) : str := str_upper (drop 2 (py_hex nombre)).
Definition binary (nombre : Z) : str := drop 2 (py_bin nombre).
Definition octal (nombre : Z) : str := drop 2 (py_oct nombre).

End Bases.

(** *** The letter-by-letter display of [afficher_resultats] *)

(** What one line of the list shows: the position of the letter in the
    word, counted from 1, the letter, its name (none for a letter outside
    the Hebrew table, shown as Latin) and its number. *)
Record LigneDetail := {
  rang : Z;
  lettre_affichee : Z;
  nom_affiche : option str;
  code_affiche : Z;
}.

Section Display.
Context `{I : Interp}.

(** The loop [for i, lettre in enumerate(mot)] at the end of
    [afficher_resultats], run on [results['mot_original']]; [lignes] holds
    the lines printed so far. *)
Fixpoint detail_boucle (i : Z) (mot : str) (lignes : list LigneDetail)
  : result (list LigneDetail) :=
  match mot with
  | [] => Ok lignes
  | lettre :: mot' =>
      match ALPHABET_HEBREU !! lettre with
      | Some code =>
          let nom_lettre := nom_lettre_hebreu lettre in
          detail_boucle (i + 1) mot'
            (lignes ++ [{| rang := i + 1; lettre_affichee := lettre;
                           nom_affiche := Some nom_lettre; code_affiche := code |}])
      | None =>
          if isalpha lettre then
            let* o := ord (upper lettre) in
            let code := o - ord_A + 1 in
            detail_boucle (i + 1) mot'
              (lignes ++ [{| rang := i + 1; lettre_affichee := lettre;
                             nom_affiche := None; code_affiche := code |}])
          else detail_boucle (i + 1) mot' lignes
      end
  end.

End Display.

(** *** Formats and texts *)

(** [f"{n:2d}"]: the decimal string, padded on the left with blanks to
    two characters. *)
Definition format_2d (n : Z) : str :=
  let s := py_str n in
  replicate (2 - length s) 32 ++ s.

(** The four decimals of [f"{x:.4f}"], padded on the left with zeros. *)
Definition quatre_decimales (k : Z) : str :=
  let s := py_str k in
  replicate (4 - length s) 48 ++ s.

(** [f"{x:.4f}"] for a float: the value rounded to a multiple of 1/10000,
    a tie going to the even multiple, written with its sign, its integer
    part, a dot and four decimals. *)
Definition format_4f (x : spec_float) : str :=
  match x with
  | S754_nan => [110; 97; 110]
  | S754_infinity s => (if s then [45] else []) ++ [105; 110; 102]
  | S754_zero s => (if s then [45] else []) ++ [48; 46; 48; 48; 48; 48]
  | S754_finite s m e =>
      let n :=
        if 0 <=? e then Z.pos m * 10000 * 2 ^ e
        else
          let d := 2 ^ (- e) in
          let q := (Z.pos m * 10000) / d in
          let r := (Z.pos m * 10000) mod d in
          if 2 * r <? d then q
          else if d <? 2 * r then q + 1
          else if Z.even q then q else q + 1 in
      (if s then [45] else [])
      ++ py_str (n / 10000) ++ [46] ++ quatre_decimales (n mod 10000)
  end.

(** [math.isnan(x)] *)
Definition isnan (x : spec_float) : bool :=
  match x with
  | S754_nan => true
  | _ => false
  end.

(** The two strings of the entry [parity] and the two of the entry
    [prime_status]. *)
Definition parity_texte (p : parity_label) : str :=
  match p with
  | Odd => [1488; 1497; 45; 1494; 1493; 1490; 1497; 32; 40; 79; 100; 100; 41]
  | Even => [1494; 1493; 1490; 1497; 32; 40; 69; 118; 101; 110; 41]
  end.

Definition prime_status_texte (p : prime_label) : str :=
  match p with
  | Prime => [1512; 1488; 1513; 1493; 1504; 1497; 32; 40; 80; 114; 105; 109;
    101; 41]
  | Composite => [1502; 1512; 1493; 1499; 1489; 32; 40; 67; 111; 109; 112;
    111; 115; 105; 116; 101; 41]
  end.

(** The text of one line of the letter-by-letter display: the two
    f-strings of the loop. *)
Definition texte_ligne (l : LigneDetail) : str :=
  match nom_affiche l with
  | Some nom =>
      [32; 32; 32; 32] ++ format_2d (rang l) ++ [46; 32] ++
        [lettre_affichee l] ++ [32; 40] ++ nom ++ [41; 32; 61; 32] ++
        format_2d (code_affiche l)
  | None =>
      [32; 32; 32; 32] ++ format_2d (rang l) ++ [46; 32] ++
        [lettre_affichee l] ++ [32; 40; 1500; 1496; 1497; 1504; 1497; 47; 108;
        97; 116; 105; 110; 41; 32; 61; 32] ++ format_2d (code_affiche l)
  end.

(** [range(a, b, pas)] for a positive step. *)
Definition range_pas (a b pas : Z) : list Z :=
  map (fun k => a + pas * Z.of_nat k) (seq 0 (Z.to_nat ((b - a + pas - 1) / pas))).

(** The list [final_forms] of [afficher_table_hebreu]. *)
Definition final_forms : list (Z * Z) :=
  [(0x5DA, 11); (0x5DD, 13); (0x5DF, 14); (0x5E3, 17); (0x5E5, 18)].

(** *** Standard output and the two display functions *)

Section CommandLine.
Context `{I : Interp}.

(** [print(text, end=fin)]: the text and the ending are written to
    [sys.stdout], which raises [UnicodeEncodeError] on a character its
    encoding does not have. The stream itself is taken to be open. *)
Definition print_end (text fin : str) : result unit :=
  if forallb stdout_encodes (text ++ fin) then Ok tt
  else Raise UnicodeEncodeError.

(** [print(text)] *)
Definition print (text : str) : result unit := print_end text [10].

(** One [print] after the other. *)
Fixpoint print_all (textes : list str) : result unit :=
  match textes with
  | [] => Ok tt
  | text :: textes' => let* _ := print text in print_all textes'
  end.

(** The texts [afficher_resultats] prints before its loop, in order
    (lines 249 to 290 of the file; none of the expressions in them can
    raise). The entries [hexadecimal], [binary], [octal] and
    [signification_gematria] of the dict are the functions of the entry
    [decimal] that [analyser_nombre] stores. *)
Definition lignes_resultats (results : MotResults) : list str :=
  let nr := nombre_results results in
  [ replicate 80 61;
    [1504; 1497; 1514; 1493; 1495; 32; 1502; 1500; 1488; 32; 1513; 1500; 32;
      1492; 1502; 1497; 1500; 1492; 32; 1492; 1506; 1489; 1512; 1497; 1514;
      58; 32; 39] ++ mot_original results ++ [39];
    [67; 79; 77; 80; 76; 69; 84; 69; 32; 65; 78; 65; 76; 89; 83; 73; 83; 32;
      79; 70; 32; 72; 69; 66; 82; 69; 87; 32; 87; 79; 82; 68; 58; 32; 39] ++
      mot_original results ++ [39];
    replicate 80 61;
    [10; 1502; 1497; 1491; 1506; 32; 1499; 1500; 1500; 1497; 32; 40; 71; 101;
      110; 101; 114; 97; 108; 32; 73; 110; 102; 111; 114; 109; 97; 116; 105;
      111; 110; 41];
    [32; 32; 32; 32; 1492; 1502; 1497; 1500; 1492; 32; 1492; 1502; 1511; 1493;
      1512; 1497; 1514; 32; 58; 32] ++ mot_original results;
    [32; 32; 32; 32; 1488; 1493; 1512; 1498; 32; 1492; 1502; 1497; 1500; 1492;
      32; 58; 32] ++ py_str (longueur_mot results) ++ [32; 1514; 1493; 1493;
      1497; 1501];
    [32; 32; 32; 32; 1492; 1488; 1501; 32; 1508; 1500; 1497; 1504; 1491; 1512;
      1493; 1501; 63; 32; 58; 32] ++ (if est_palindrome results then [1499;
      1503; 32; 40; 89; 101; 115; 41] else [1500; 1488; 32; 40; 78; 111; 41]);
    [10; 1511; 1497; 1491; 1493; 1491; 32; 1506; 1489; 1512; 1497; 32; 40; 72;
      101; 98; 114; 101; 119; 32; 69; 110; 99; 111; 100; 105; 110; 103; 41];
    [32; 32; 32; 32; 1512; 1510; 1507; 32; 1502; 1505; 1508; 1512; 1497; 32;
      58; 32] ++ sequence_hebreu results;
    [32; 32; 32; 32; 1502; 1497; 1500; 1492; 32; 1502; 1508; 1493; 1506; 1504;
      1495; 1514; 32; 40; 1500; 1488; 1497; 1502; 1493; 1514; 41; 32; 58; 32]
      ++ mot_decode results;
    [32; 32; 32; 32; 1506; 1512; 1498; 32; 1502; 1505; 1508; 1512; 1497; 32;
      1499; 1493; 1500; 1500; 32; 58; 32] ++ py_str (valeur_numerique results);
    [10; 1490; 1497; 1502; 1496; 1512; 1497; 1492; 32; 40; 71; 101; 109; 97;
      116; 114; 105; 97; 41];
    [32; 32; 32; 32; 1506; 1512; 1498; 32; 1490; 1497; 1502; 1496; 1512; 1497;
      1492; 32; 58; 32] ++ py_str (valeur_simple (gematria results));
    [32; 32; 32; 32; 1502; 1513; 1502; 1506; 1493; 1514; 32; 58; 32] ++
      signification_gematria (decimal_ nr);
    [10; 1504; 1497; 1514; 1493; 1495; 32; 1502; 1505; 1508; 1512; 1497; 32;
      1513; 1500; 32; 1492; 1506; 1512; 1498; 32; 1492; 1499; 1493; 1500;
      1500; 32; 40; 78; 117; 109; 101; 114; 105; 99; 32; 65; 110; 97; 108;
      121; 115; 105; 115; 41];
    [32; 32; 32; 32; 1506; 1513; 1512; 1493; 1504; 1497; 32; 58; 32] ++
      py_str (decimal_ nr);
    [32; 32; 32; 32; 104; 101; 120; 97; 100; 101; 99; 105; 109; 97; 108; 32;
      58; 32] ++ hexadecimal (decimal_ nr);
    [32; 32; 32; 32; 1489; 1497; 1504; 1488; 1512; 1497; 32; 58; 32] ++
      binary (decimal_ nr);
    [32; 32; 32; 32; 111; 99; 116; 97; 108; 32; 58; 32] ++ octal (decimal_ nr);
    [10; 32; 32; 32; 32; 1494; 1493; 1490; 1497; 1493; 1514; 32; 58; 32] ++
      parity_texte (parity nr);
    [32; 32; 32; 32; 1490; 1493; 1512; 1502; 1497; 1501; 32; 58; 32] ++
      join [44; 32] (map py_str (factors nr));
    [32; 32; 32; 32; 1512; 1488; 1513; 1493; 1504; 1497; 32; 1488; 1493; 32;
      1502; 1512; 1493; 1499; 1489; 32; 58; 32] ++
      prime_status_texte (prime_status nr);
    [32; 32; 32; 32; 1505; 1499; 1493; 1501; 32; 1505; 1508; 1512; 1493; 1514;
      32; 58; 32] ++ py_str (digit_sum nr);
    [10; 32; 32; 32; 32; 1512; 1497; 1489; 1493; 1506; 32; 58; 32] ++
      py_str (square nr);
    [32; 32; 32; 32; 1511; 1493; 1489; 1497; 1497; 1492; 32; 58; 32] ++
      py_str (cube nr) ]
  ++ (if isnan (square_root nr) then []
      else
        [ [32; 32; 32; 32; 1513; 1493; 1512; 1513; 32; 1512; 1497; 1489; 1493;
          1506; 1497; 32; 58; 32] ++ format_4f (square_root nr) ])
  ++
  [ [10; 1492; 1510; 1508; 1504; 1492; 32; 1493; 1495; 1514; 1497; 1502; 1493;
      1514; 32; 40; 69; 110; 99; 114; 121; 112; 116; 105; 111; 110; 32; 38;
      32; 72; 97; 115; 104; 105; 110; 103; 41];
    [32; 32; 32; 32; 77; 68; 53; 32; 58; 32] ++ md5_ nr;
    [32; 32; 32; 32; 83; 72; 65; 45; 50; 53; 54; 32; 58; 32] ++ sha256_ nr;
    [32; 32; 32; 32; 66; 97; 115; 101; 54; 52; 32; 58; 32] ++ base64_ nr;
    [10; 1508; 1497; 1512; 1493; 1496; 32; 1511; 1497; 1491; 1493; 1491; 32;
      1488; 1493; 1514; 45; 1488; 1493; 1514; 32; 40; 69; 110; 99; 111; 100;
      105; 110; 103; 32; 68; 101; 116; 97; 105; 108; 115; 32; 76; 101; 116;
      116; 101; 114; 32; 98; 121; 32; 76; 101; 116; 116; 101; 114; 41] ].

(** The loop [for i, lettre in enumerate(mot)] of [afficher_resultats],
    with its calls of [print]. *)
Fixpoint afficher_detail (i : Z) (mot : str) : result unit :=
  match mot with
  | [] => Ok tt
  | lettre :: mot' =>
      match ALPHABET_HEBREU !! lettre with
      | Some code =>
          let nom_lettre := nom_lettre_hebreu lettre in
          let* _ := print (texte_ligne
                             {| rang := i + 1; lettre_affichee := lettre;
                                nom_affiche := Some nom_lettre;
                                code_affiche := code |}) in
          afficher_detail (i + 1) mot'
      | None =>
          if isalpha lettre then
            let* o := ord (upper lettre) in
            let code := o - ord_A + 1 in
            let* _ := print (texte_ligne
                               {| rang := i + 1; lettre_affichee := lettre;
                                  nom_affiche := None;
                                  code_affiche := code |}) in
            afficher_detail (i + 1) mot'
          else afficher_detail (i + 1) mot'
      end
  end.

Definition afficher_resultats (results : MotResults) : result unit :=
  let* _ := print_all (lignes_resultats results) in
  afficher_detail 0 (mot_original results).

(** [for lettre, num in ligne: print(f"{lettre}={num:2d}", end="  ")] *)
Fixpoint afficher_paires (ligne : list (Z * Z)) : result unit :=
  match ligne with
  | [] => Ok tt
  | (lettre, num) :: ligne' =>
      let* _ := print_end ([lettre] ++ [61] ++ format_2d num) [32; 32] in
      afficher_paires ligne'
  end.

(** The rows of five: [ligne = alphabet_unique[i:i+5]], its pairs, then
    [print()]. *)
Fixpoint afficher_rangees (indices : list Z) (l : list (Z * Z)) : result unit :=
  match indices with
  | [] => Ok tt
  | i :: indices' =>
      let ligne := take 5 (drop (Z.to_nat i) l) in
      let* _ := afficher_paires ligne in
      let* _ := print [] in
      afficher_rangees indices' l
  end.

Definition afficher_table_hebreu : result unit :=
  let* _ := print ([10] ++ replicate 70 61) in
  let* _ := print
    [1496; 1489; 1500; 1514; 32; 1492; 1514; 1488; 1502; 1493; 1514; 32; 1488;
      1500; 1508; 1489; 1497; 1514; 32; 1506; 1489; 1512; 1497; 32; 1502;
      1500; 1488; 1492] in
  let* _ := print
    [67; 111; 109; 112; 108; 101; 116; 101; 32; 72; 101; 98; 114; 101; 119;
      32; 65; 108; 112; 104; 97; 98; 101; 116; 32; 67; 111; 114; 114; 101;
      115; 112; 111; 110; 100; 101; 110; 99; 101; 32; 84; 97; 98; 108; 101] in
  let* _ := print (replicate 70 61) in
  let* _ := print
    [1488; 1500; 1508; 1489; 1497; 1514; 32; 1489; 1505; 1497; 1505; 1497; 32;
      40; 66; 97; 115; 105; 99; 32; 65; 108; 112; 104; 97; 98; 101; 116; 41;
      58] in
  let* _ :=
    afficher_rangees (range_pas 0 (Z.of_nat (length alphabet_unique)) 5)
      alphabet_unique in
  let* _ := print
    [10; 1510; 1493; 1512; 1493; 1514; 32; 1505; 1493; 1508; 1497; 1493; 1514;
      32; 40; 70; 105; 110; 97; 108; 32; 70; 111; 114; 109; 115; 41; 58] in
  let* _ := afficher_paires final_forms in
  print [].

(** *** [main] *)

(** The line the decoding branch prints. *)
Definition ligne_decodee (entree mot_decode : str) : str :=
  [128275; 32; 1512; 1510; 1507; 32; 1502; 1508; 1493; 1506; 1504; 1495; 32;
    58; 32] ++ entree ++ [32; 8594; 32] ++ mot_decode.

(** The body of the [try] block of [main]: the decoded word, when the
    argument went through the decoder, and the results, once both display
    functions have returned. *)
Definition main_try (fuel : nat) (entree : str) : result (option str * MotResults) :=
  let* r :=
    (if est_sequence_numerique entree then
       let* mot_decode := decoder_sequence_hebreu entree in
       let* _ := print (ligne_decodee entree mot_decode) in
       let* results := analyser_mot_hebreu fuel mot_decode in
       Ok (Some mot_decode, results)
     else
       let* results := analyser_mot_hebreu fuel entree in
       Ok (None, results)) in
  let* _ := afficher_resultats r.2 in
  let* _ := afficher_table_hebreu in
  Ok r.

(** [main] on [sys.argv]: the exit status, and what was analysed. Any
    exception of the [try] block is caught and turned into status 1; the
    handler prints the error before [sys.exit(1)], and the status is 1 as
    well when that [print] raises in its turn, since the interpreter ends
    with status 1 on an exception nobody catches. The same holds for the
    usage lines printed when the argument count is wrong. *)
Definition main (fuel : nat) (argv : list str)
  : result (Z * option (option str * MotResults)) :=
  match argv with
  | [_; arg] =>
      let entree := strip arg in
      match main_try fuel entree with
      | Ok r => Ok (0, Some r)
      | Raise _ => Ok (1, None)
      | OutOfFuel => OutOfFuel
      end
  | _ => Ok (1, None)
  end.

End CommandLine.

(** ** A fragment of the interpreter

    The Unicode database restricted to the blocks Basic Latin, Latin-1
    Supplement and Hebrew; a code point outside them is answered as an
    unassigned one (no letter, no digit, its own upper case). [set] keeps
    first occurrences in order, the digit limit is CPython's default, the
    digests are left empty, and the standard output is UTF-8, which has
    every code point but the surrogates. It serves to run the functions
    on concrete words. *)
Module Fragment.

Definition between (a b c : Z) : bool := (a <=? c) && (c <=? b).

Definition alpha (c : Z) : bool :=
  between 65 90 c || between 97 122 c
  || (c =? 0xAA) || (c =? 0xB5) || (c =? 0xBA)
  || between 0xC0 0xD6 c || between 0xD8 0xF6 c || between 0xF8 0xFF c
  || between 0x5D0 0x5EA c || between 0x5EF 0x5F2 c.

Definition digit (c : Z) : bool :=
  between 48 57 c || (c =? 0xB2) || (c =? 0xB3) || (c =? 0xB9).

Definition decimal_value (c : Z) : option Z :=
  if between 48 57 c then Some (c - 48) else None.

Definition upper_case (c : Z) : str :=
  if between 97 122 c then [c - 32]
  else if c =? 0xB5 then [0x39C]
  else if c =? 0xDF then [83; 83]
  else if between 0xE0 0xF6 c || between 0xF8 0xFE c then [c - 32]
  else if c =? 0xFF then [0x178]
  else [c].

Definition utf8 (c : Z) : bool :=
  between 0 0xD7FF c || between 0xE000 0x10FFFF c.

Definition interp : Interp :=
  {| isalpha := alpha;
     isdigit := digit;
     decimal := decimal_value;
     upper := upper_case;
     max_str_digits := 4300;
     set_iter := remove_dups;
     md5 := fun _ => [];
     sha256 := fun _ => [];
     b64encode := fun _ => [];
     stdout_encodes := utf8 |}.

End Fragment.

(** * The vocabulary of the properties *)

(** ** Words and characters used as examples *)

(** The word shalom, with a final mem. *)
Definition shalom : str := [0x5E9; 0x5DC; 0x5D5; 0x5DD].

(** The argument "52". *)
Definition cinquante_deux : str := [0x35; 0x32].

(** SUPERSCRIPT TWO, a digit that is no decimal digit. *)
Definition superscript_two : Z := 0xB2.

(** LATIN SMALL LETTER SHARP S; its upper case is "SS". *)
Definition sharp_s : Z := 0xDF.

(** The sequence "23.26.0.27..12.ab". *)
Definition sequence_exemple : str :=
  [50; 51; 46; 50; 54; 46; 48; 46; 50; 55; 46; 46; 49; 50; 46; 97; 98].

(** The word " Ab<alef>!<e acute> ". *)
Definition mot_exemple : str := [32; 65; 98; 0x5D0; 33; 0xE9; 32].

(** The code point of '-'. *)
Definition minus : Z := 45.

(** ** Strings *)

(** A string of blanks. *)
Definition blanks (s : str) : Prop := Forall (fun c => isspace c = true) s.

(** The code point of an ASCII digit. *)
Definition chiffre (c : Z) : Prop := 48 <= c <= 57.

Definition code_points (s : String.string) : str :=
  map (fun a => Z.of_N (Ascii.N_of_ascii a)) (String.list_ascii_of_string s).

(** The decimal string of a number below 100. *)
Definition two_digits (v : Z) : str :=
  if v <? 10 then [48 + v] else [48 + v / 10; 48 + v mod 10].

(** ** Letters and values *)

(** The contribution of one character to the sum. *)
Definition contribution (c : Z) : Z := default 0 (ALPHABET_HEBREU !! c).

Definition sum_list (l : list Z) : Z := foldr Z.add 0 l.

Definition product (l : list Z) : Z := foldr Z.mul 1 l.

(** The non-final letter a letter of the table stands for. *)
Definition forme_canonique (c : Z) : Z :=
  if c =? 0x5DA then 0x5DB
  else if c =? 0x5DD then 0x5DE
  else if c =? 0x5DF then 0x5E0
  else if c =? 0x5E3 then 0x5E4
  else if c =? 0x5E5 then 0x5E6
  else c.

(** The five final forms. *)
Definition formes_finales : list Z := [0x5DA; 0x5DD; 0x5DF; 0x5E3; 0x5E5].

(** The order of decorated elements by key, and of letters by value. *)
Definition le_key (p q : Z * Z) : Prop := p.1 <= q.1.

Definition le_valeur (a b : Z) : Prop := contribution a <= contribution b.

(** The letter the decoder gives for a number, read off the description
    of the decoder: the non-final Hebrew letter for 1..22, the Latin
    capital for 23..26, nothing otherwise. *)
Definition lettre_decodee (v : Z) : str :=
  if (1 <=? v) && (v <=? 22) then [default 0 (ALPHABET_INVERSE !! v)]
  else if (23 <=? v) && (v <=? 26) then [v + ord_A - 1]
  else [].

(** ** Numbers *)

(** [n] has no divisor in [2, d). *)
Definition no_small_div (d n : Z) : Prop :=
  forall k, 2 <= k < d -> ~ (k | n).

(** A float that is zero or a positive number. *)
Definition float_nonneg (x : spec_float) : Prop :=
  match x with
  | S754_zero _ => True
  | S754_finite s _ _ => s = false
  | _ => False
  end.

(** The location of the exact square root of [m] after its integer root. *)
Definition sqrt_location (m : Z) : location :=
  let q := Z.sqrt m in
  let r := m - q * q in
  if r =? 0 then loc_Exact else loc_Inexact (if r <=? q then Lt else Gt).

(** ** What is assumed of the interpreter, and the per-item readings *)

Section Vocabulary.
Context `{I : Interp}.

(** The ASCII digits are digits, with their decimal value. *)
Definition ascii_digits : Prop :=
  forall d, 0 <= d <= 9 -> isdigit (48 + d) = true /\ decimal (48 + d) = Some d.

(** No blank is a letter. *)
Definition spaces_not_alpha : Prop :=
  forall c, isspace c = true -> isalpha c = false.

(** Iterating over [set(l)] visits every element of [l] exactly once. *)
Definition set_iter_spec : Prop :=
  forall l, NoDup (set_iter l) /\ forall x, x ∈ set_iter l <-> x ∈ l.

(** What one token contributes to the decoded word. *)
Definition decode_token (t : str) : str :=
  if str_isdigit t then
    match py_int t with
    | Ok v => lettre_decodee v
    | _ => []
    end
  else [].

(** The values the encoder emits for one character. *)
Definition code_lettre (c : Z) : list Z :=
  match ALPHABET_HEBREU !! c with
  | Some v => [v]
  | None =>
      if isalpha c then
        match upper c with
        | [u] => [u - ord_A + 1]
        | _ => []
        end
      else []
  end.

(** Every letter of the word outside the Hebrew table has a one-character
    upper case. *)
Definition single_upper (mot : str) : Prop :=
  forall c, c ∈ mot -> ALPHABET_HEBREU !! c = None -> isalpha c = true ->
            exists u, upper c = [u].

End Vocabulary.

(** ** Further vocabulary *)

(** A letter the decoder can emit: a non-final letter of the Hebrew table,
    or one of the Latin capitals W, X, Y, Z. *)
Definition lettre_de_sortie (c : Z) : Prop :=
  (is_Some (ALPHABET_HEBREU !! c) /\ c ∉ formes_finales) \/ 87 <= c <= 90.

(** A character of an encoded sequence: a digit, the dot or the minus
    sign. *)
Definition caractere_de_sequence (c : Z) : Prop :=
  chiffre c \/ c = dot \/ c = minus.

Section Vocabulary2.
Context `{I : Interp}.

(** A token [isdigit] accepts and [int] rejects. *)
Definition illisible (t : str) : Prop :=
  str_isdigit t = true /\ py_int t = Raise ValueError.

(** A letter outside the Hebrew table whose upper case is not one
    character. *)
Definition sans_majuscule (c : Z) : Prop :=
  ALPHABET_HEBREU !! c = None /\ isalpha c = true /\ forall u, upper c <> [u].

End Vocabulary2.

(** The digits of a decimal number, most significant first. *)
Fixpoint valeurs (d : Decimal.uint) : list Z :=
  match d with
  | Decimal.Nil => []
  | Decimal.D0 d => 0 :: valeurs d
  | Decimal.D1 d => 1 :: valeurs d
  | Decimal.D2 d => 2 :: valeurs d
  | Decimal.D3 d => 3 :: valeurs d
  | Decimal.D4 d => 4 :: valeurs d
  | Decimal.D5 d => 5 :: valeurs d
  | Decimal.D6 d => 6 :: valeurs d
  | Decimal.D7 d => 7 :: valeurs d
  | Decimal.D8 d => 8 :: valeurs d
  | Decimal.D9 d => 9 :: valeurs d
  end.

Section Vocabulary3.
Context `{I : Interp}.

(** What encoding then decoding makes of one character. *)
Definition aller_retour (c : Z) : str :=
  concat (map lettre_decodee (code_lettre c)).

(** The values the encoder gives the letters of the word are numbers from 0
    to below 2^640. *)
Definition codes_bornes (mot : str) : Prop :=
  forall c v, c ∈ mot -> v ∈ code_lettre c -> 0 <= v < 2 ^ 640.

(** The value decoding then encoding keeps of one token. *)
Definition valeur_token (t : str) : list Z :=
  if str_isdigit t then
    match py_int t with
    | Ok v => if (1 <=? v) && (v <=? 26) then [v] else []
    | _ => []
    end
  else [].

(** The Latin capitals W, X, Y, Z are letters and their own upper case. *)
Definition capitales_wz : Prop :=
  forall c, 87 <= c <= 90 -> isalpha c = true /\ upper c = [c].

End Vocabulary3.

(** A pair of the list whose value no earlier pair has. *)
Definition premiere_de_sa_valeur (alphabet : list (Z * Z)) (p : Z * Z) : Prop :=
  exists l1 l2, alphabet = l1 ++ p :: l2 /\ p.2 ∉ l1.*2.

(** The order of pairs (lettre, valeur) by value. *)
Definition lt_par_valeur (p q : Z * Z) : Prop := p.2 < q.2.

(** A character of a Hebrew text: a letter of the table or a blank. *)
Definition lettre_ou_blanc (c : Z) : Prop :=
  is_Some (ALPHABET_HEBREU !! c) \/ isspace c = true.

(** The final form of Kaf, Mem, Nun, Pe, Tsadi is named after the letter. *)
Definition sofit : str := [32; 83; 111; 102; 105; 116].

(** The numbers with a meaning of their own besides 1..22. *)
Definition nombres_speciaux : list Z := [26; 32; 42; 72].

(** The word nun, vav, final nun. *)
Definition noun : str := [0x5E0; 0x5D5; 0x5DF].

(** ** Writing in a base *)

(** The number a list of digits denotes in base [b], most significant
    digit first. *)
Definition valeur_base (b : Z) (ds : list Z) : Z :=
  fold_left (fun acc d => acc * b + d) ds 0.

(** [ds] is the writing of [n] in base [b]: digits below [b] that denote
    [n], at least one, and no leading zero except for zero itself. *)
Definition ecriture (b : Z) (ds : list Z) (n : Z) : Prop :=
  valeur_base b ds = n
  /\ Forall (fun d => 0 <= d < b) ds
  /\ ds <> []
  /\ (n <> 0 -> head ds <> Some 0).

(** The character of a digit in capitals: '0'..'9', then 'A'..'F'. *)
Definition chiffre_majuscule (k : Z) : Z :=
  if k <? 10 then 48 + k else 55 + k.

Section Vocabulary4.
Context `{I : Interp}.

(** [upper] leaves the ten digits as they are and turns 'a'..'f' into
    'A'..'F'. *)
Definition majuscules_hex : Prop :=
  forall k, 0 <= k < 16 -> upper (caractere_chiffre k) = [chiffre_majuscule k].

End Vocabulary4.

(** ** Standard output *)

(** A Unicode scalar value: a code point that is no surrogate. These are
    the characters UTF-8 has. *)
Definition scalaire (c : Z) : bool :=
  ((0 <=? c) && (c <=? 0xD7FF)) || ((0xE000 <=? c) && (c <=? 0x10FFFF)).

(** A text made of scalar values. *)
Definition imprimable (s : str) : Prop := forallb scalaire s = true.

(** The arguments "1.a" and "<2>.<2>", the latter made of SUPERSCRIPT TWO. *)
Definition un_point_a : str := [49; 46; 97].

Definition deux_exposants : str := [0xB2; 46; 0xB2].

Section Vocabulary5.
Context `{I : Interp}.

(** The standard output encodes every scalar value, as UTF-8 does. *)
Definition stdout_utf8 : Prop :=
  forall c, scalaire c = true -> stdout_encodes c = true.

(** The digests and the Base64 text are made of scalar values (they are
    ASCII). *)
Definition digests_imprimables : Prop :=
  forall s, imprimable (md5 s) /\ imprimable (sha256 s) /\ imprimable (b64encode s).

End Vocabulary5.

(** * Properties *)

(** ** Outcomes *)

Lemma bind_Ok_inv {A B} (r : result A) (k : A -> result B) b :
  bind r k = Ok b -> exists a, r = Ok a /\ k a = Ok b.
Proof. destruct r; simpl; intros; try discriminate; eauto. Qed.

(** ** The tables *)

(** The tables are looked up, never unfolded, by [simpl]. *)
Arguments ALPHABET_HEBREU : simpl never.
Arguments ALPHABET_INVERSE : simpl never.
Arguments est_hebreu : simpl never.

Ltac table_cases H :=
  repeat (apply elem_of_cons in H as [H | H]; [ | ]);
  [ .. | by apply elem_of_nil in H ].

Lemma alphabet_hebreu_elem c v :
  ALPHABET_HEBREU !! c = Some v -> (c, v) ∈ alphabet_hebreu_items.
Proof. apply elem_of_list_to_map_2. Qed.

Lemma alphabet_inverse_elem v c :
  ALPHABET_INVERSE !! v = Some c -> (v, c) ∈ alphabet_inverse_items.
Proof. apply elem_of_list_to_map_2. Qed.

(** Every value of the table lies in 1..22, and the reverse table sends it
    back to a letter of that value. *)
Lemma alphabet_hebreu_range c v :
  ALPHABET_HEBREU !! c = Some v ->
  1 <= v <= 22 /\ exists l, ALPHABET_INVERSE !! v = Some l /\ ALPHABET_HEBREU !! l = Some v.
Proof.
  intros H%alphabet_hebreu_elem. unfold alphabet_hebreu_items in H.
  table_cases H; injection H as -> ->; (split; [lia | eexists; split; vm_compute; reflexivity]).
Qed.

Lemma alphabet_inverse_total v :
  1 <= v <= 22 -> exists l, ALPHABET_INVERSE !! v = Some l /\ ALPHABET_HEBREU !! l = Some v.
Proof.
  intros Hv.
  assert (Hin : v ∈ seqZ 1 22) by (apply elem_of_seqZ; lia).
  vm_compute seqZ in Hin.
  table_cases Hin; subst v; eexists; split; vm_compute; reflexivity.
Qed.

Lemma isspace_not_hebreu c : isspace c = true -> ALPHABET_HEBREU !! c = None.
Proof.
  intros Hs. destruct (ALPHABET_HEBREU !! c) as [v|] eqn:E; [ | done].
  apply alphabet_hebreu_elem in E. unfold alphabet_hebreu_items in E.
  table_cases E; injection E as -> ->; vm_compute in Hs; discriminate.
Qed.

Lemma est_hebreu_true c : est_hebreu c = true <-> is_Some (ALPHABET_HEBREU !! c).
Proof. unfold est_hebreu. by rewrite bool_decide_eq_true. Qed.

Lemma est_hebreu_false c : est_hebreu c = false <-> ALPHABET_HEBREU !! c = None.
Proof.
  unfold est_hebreu. rewrite bool_decide_eq_false, <- eq_None_not_Some. done.
Qed.

(** ** [strip] only removes blanks *)

Lemma lstrip_decomp s : exists pre, s = pre ++ lstrip s /\ blanks pre.
Proof.
  induction s as [|c s [pre [E B]]]; simpl.
  - exists []. split; [done | constructor].
  - destruct (isspace c) eqn:Hc.
    + exists (c :: pre). split; [simpl; congruence | by constructor].
    + exists []. split; [done | constructor].
Qed.

Lemma strip_decomp s :
  exists pre post, s = pre ++ strip s ++ post /\ blanks pre /\ blanks post.
Proof.
  unfold strip, rstrip.
  destruct (lstrip_decomp s) as [pre [E1 B1]].
  destruct (lstrip_decomp (reverse (lstrip s))) as [q [E2 B2]].
  exists pre, (reverse q). split; [ | split; [done | ]].
  - rewrite <- reverse_app, <- E2, reverse_involutive. done.
  - unfold blanks in *. rewrite Forall_forall in *.
    intros c Hc. apply B2. by apply elem_of_reverse.
Qed.

Lemma lstrip_head_not_blank s c :
  isspace c = false -> lstrip (c :: s) = c :: s.
Proof. simpl. by intros ->. Qed.

(** A word without blanks is left as it is. *)
Lemma strip_no_blank s :
  Forall (fun c => isspace c = false) s -> strip s = s.
Proof.
  intros H. unfold strip, rstrip.
  assert (L : forall t, Forall (fun c => isspace c = false) t -> lstrip t = t).
  { intros [|c t] Ht; [done | ]. apply lstrip_head_not_blank.
    by apply Forall_cons in Ht as [? _]. }
  rewrite (L s H). rewrite L; [apply reverse_involutive | ].
  rewrite Forall_forall in *. intros c Hc. apply H. by apply elem_of_reverse.
Qed.

Lemma filter_hebreu_blanks s : blanks s -> List.filter est_hebreu s = [].
Proof.
  induction 1 as [|c s Hc _ IH]; [done | ].
  apply isspace_not_hebreu in Hc. apply (proj2 (est_hebreu_false c)) in Hc.
  cbn [List.filter]. by rewrite Hc.
Qed.

Lemma filter_hebreu_strip s :
  List.filter est_hebreu (strip s) = List.filter est_hebreu s.
Proof.
  destruct (strip_decomp s) as (pre & post & E & B1 & B2).
  rewrite E at 2. rewrite !List.filter_app.
  rewrite (filter_hebreu_blanks pre), (filter_hebreu_blanks post) by done.
  by rewrite app_nil_r.
Qed.

(** ** Gematria *)

Lemma somme_boucle_spec mot total :
  somme_boucle mot total = total + sum_list (map contribution mot).
Proof.
  unfold sum_list. revert total. induction mot as [|c mot IH]; intros total;
    cbn [somme_boucle map foldr].
  - lia.
  - unfold contribution at 1.
    destruct (ALPHABET_HEBREU !! c); cbn [default from_option id]; rewrite IH; lia.
Qed.

Lemma sum_contribution_app s t :
  sum_list (map contribution (s ++ t))
  = sum_list (map contribution s) + sum_list (map contribution t).
Proof.
  unfold sum_list. induction s as [|c s IH]; cbn [app map foldr]; lia.
Qed.

Lemma sum_contribution_blanks s : blanks s -> sum_list (map contribution s) = 0.
Proof.
  unfold sum_list. induction 1 as [|c s Hc _ IH]; cbn [map foldr]; [done | ].
  unfold contribution at 1. rewrite (isspace_not_hebreu c Hc).
  cbn [default from_option id]. lia.
Qed.

Lemma mot_vers_nombre_sum mot :
  mot_vers_nombre mot = sum_list (map contribution mot).
Proof.
  unfold mot_vers_nombre. rewrite somme_boucle_spec.
  destruct (strip_decomp mot) as (pre & post & E & B1 & B2).
  rewrite E at 2. rewrite !sum_contribution_app.
  rewrite (sum_contribution_blanks pre), (sum_contribution_blanks post) by done.
  lia.
Qed.

Lemma contribution_bounds c : 0 <= contribution c <= 22.
Proof.
  unfold contribution. destruct (ALPHABET_HEBREU !! c) eqn:E; cbn [default from_option id]; [ | lia].
  apply alphabet_hebreu_range in E. lia.
Qed.

Lemma mot_vers_nombre_nonneg mot : 0 <= mot_vers_nombre mot.
Proof.
  rewrite mot_vers_nombre_sum. unfold sum_list.
  induction mot as [|c mot IH]; cbn [map foldr]; [lia | ].
  pose proof (contribution_bounds c). lia.
Qed.

(** C4. [mot_vers_nombre] is the sum of the table values of the characters
    of the word that are in the Hebrew table; a character outside the
    table adds 0, whether or not it is a letter the encoder gives a value
    to (the Latin word "AB" sums to 0). The gematria of shalom is
    21 + 12 + 6 + 13 = 52. *)
Theorem mot_vers_nombre_hebrew_only :
  (forall mot : str,
      mot_vers_nombre mot = sum_list (map contribution mot))
  /\ (forall c, ALPHABET_HEBREU !! c = None -> contribution c = 0)
  /\ (forall c v, ALPHABET_HEBREU !! c = Some v -> contribution c = v)
  /\ mot_vers_nombre [65; 66] = 0
  /\ mot_vers_nombre shalom = 21 + 12 + 6 + 13
  /\ mot_vers_nombre shalom = 52.
Proof.
  split; [exact mot_vers_nombre_sum | ].
  split; [intros c E; unfold contribution; by rewrite E | ].
  split; [intros c v E; unfold contribution; by rewrite E | ].
  repeat split; vm_compute; reflexivity.
Qed.

(** ** Palindrome *)

(** C7. The palindrome check keeps the characters of the word that are in
    the Hebrew table, drops every other one (Latin letters included), and
    answers true exactly when what is left equals its reverse. The
    two-letter word alef alef is a palindrome, and so is a word without any
    Hebrew letter. *)
Theorem est_palindrome_hebreu_filtered :
  (forall mot : str,
      est_palindrome_hebreu mot = true
      <-> List.filter est_hebreu mot = reverse (List.filter est_hebreu mot))
  /\ (forall c, est_hebreu c = true <-> is_Some (ALPHABET_HEBREU !! c))
  /\ est_palindrome_hebreu [0x5D0; 0x5D0] = true
  /\ (forall mot : str,
         Forall (fun c => ALPHABET_HEBREU !! c = None) mot ->
         est_palindrome_hebreu mot = true).
Proof.
  assert (P : forall mot : str,
      est_palindrome_hebreu mot = true
      <-> List.filter est_hebreu mot = reverse (List.filter est_hebreu mot)).
  { intros mot. unfold est_palindrome_hebreu.
    rewrite bool_decide_eq_true, filter_hebreu_strip. done. }
  split; [exact P | ]. split; [exact est_hebreu_true | ].
  split; [vm_compute; reflexivity | ].
  intros mot H. apply P.
  assert (E : List.filter est_hebreu mot = []).
  { induction H as [|c mot Hc _ IH]; [done | ].
    apply (proj2 (est_hebreu_false c)) in Hc.
    cbn [List.filter]. by rewrite Hc. }
  by rewrite E.
Qed.

Section Interpreter.
Context `{I : Interp}.

(** ** The decoder on a token [isdigit] accepts and [int] rejects *)

(** C1, at a failing input. The claim has every token that is not a number
    in 1..26 skipped. On a token made of SUPERSCRIPT TWO, for which
    [isdigit] answers true and which has no decimal value, the decoder
    raises [ValueError] instead of skipping it; the argument
    "<2>.<2>" of the command line passes the test of [main], reaches the
    decoder and ends in exit status 1. *)
Theorem decoder_raises_on_superscript :
  isdigit superscript_two = true ->
  decimal superscript_two = None ->
  decoder_sequence_hebreu [superscript_two] = Raise ValueError
  /\ forall fuel prog,
       main fuel [prog; [superscript_two; dot; superscript_two]] = Ok (1, None).
Proof.
  intros Hd Hv. split.
  - unfold decoder_sequence_hebreu. cbn [split superscript_two dot Z.eqb Pos.eqb].
    cbn [decoder_boucle str_isdigit forallb]. fold superscript_two. rewrite Hd.
    cbn [andb py_int decimals]. rewrite Hv. reflexivity.
  - intros fuel prog. unfold main.
    replace (strip [superscript_two; dot; superscript_two])
      with [superscript_two; dot; superscript_two] by (vm_compute; reflexivity).
    unfold main_try, est_sequence_numerique.
    replace (bool_decide (dot ∈ [superscript_two; dot; superscript_two])) with true
      by (vm_compute; reflexivity).
    replace (split dot [superscript_two; dot; superscript_two])
      with [[superscript_two]; [superscript_two]] by (vm_compute; reflexivity).
    cbn [forallb str_isdigit andb]. rewrite Hd. cbn [andb].
    unfold decoder_sequence_hebreu.
    replace (split dot [superscript_two; dot; superscript_two])
      with [[superscript_two]; [superscript_two]] by (vm_compute; reflexivity).
    cbn [decoder_boucle str_isdigit forallb]. rewrite Hd.
    cbn [andb py_int decimals]. rewrite Hv. reflexivity.
Qed.

(** ** The encoder on a letter whose upper case is two characters *)

(** C2, at a failing input. The claim has every alphabetic character
    outside the Hebrew table encoded and the encoder return a string for
    every word. On the one-letter word sharp s, a letter whose [upper()] is
    the two-character string "SS", [ord] raises [TypeError]: the encoder
    returns nothing, and [main] ends in exit status 1. *)
Theorem encoder_raises_on_sharp_s :
  isalpha sharp_s = true ->
  upper sharp_s = [83; 83] ->
  encoder_mot_hebreu [sharp_s] = Raise TypeError
  /\ forall fuel prog, main fuel [prog; [sharp_s]] = Ok (1, None).
Proof.
  intros Ha Hu.
  assert (E : encoder_mot_hebreu [sharp_s] = Raise TypeError).
  { unfold encoder_mot_hebreu.
    replace (strip [sharp_s]) with [sharp_s] by (vm_compute; reflexivity).
    cbn [encoder_boucle].
    replace (ALPHABET_HEBREU !! sharp_s) with (@None Z) by (vm_compute; reflexivity).
    rewrite Ha, Hu. reflexivity. }
  split; [exact E | ].
  intros fuel prog. unfold main.
  replace (strip [sharp_s]) with [sharp_s] by (vm_compute; reflexivity).
  unfold main_try, est_sequence_numerique.
  replace (bool_decide (dot ∈ [sharp_s])) with false by (vm_compute; reflexivity).
  cbn [andb]. unfold analyser_mot_hebreu. rewrite E. reflexivity.
Qed.

End Interpreter.

Lemma decoder_raises_on_superscript_witness :
  @decoder_sequence_hebreu Fragment.interp [superscript_two] = Raise ValueError
  /\ forall fuel prog,
       @main Fragment.interp fuel [prog; [superscript_two; dot; superscript_two]]
       = Ok (1, None).
Proof.
  apply (@decoder_raises_on_superscript Fragment.interp); reflexivity.
Defined.

Lemma encoder_raises_on_sharp_s_witness :
  @encoder_mot_hebreu Fragment.interp [sharp_s] = Raise TypeError
  /\ forall fuel prog, @main Fragment.interp fuel [prog; [sharp_s]] = Ok (1, None).
Proof.
  apply (@encoder_raises_on_sharp_s Fragment.interp); reflexivity.
Defined.

(** ** Splitting and joining *)

Lemma split_no_sep sep (t : str) : sep ∉ t -> split sep t = [t].
Proof.
  induction t as [|c t IH]; intros H; cbn [split]; [done | ].
  apply not_elem_of_cons in H as [Hc Ht].
  destruct (Z.eqb_spec c sep) as [->|_]; [done | ].
  by rewrite (IH Ht).
Qed.

Lemma split_app_sep sep (t s : str) :
  sep ∉ t -> split sep (t ++ sep :: s) = t :: split sep s.
Proof.
  induction t as [|c t IH]; intros H; cbn [split app].
  - by rewrite Z.eqb_refl.
  - apply not_elem_of_cons in H as [Hc Ht].
    destruct (Z.eqb_spec c sep) as [->|_]; [done | ].
    by rewrite (IH Ht).
Qed.

Lemma split_join sep (tokens : list str) :
  tokens <> [] -> Forall (fun t => sep ∉ t) tokens ->
  split sep (join [sep] tokens) = tokens.
Proof.
  induction tokens as [|t [|t' tokens] IH]; intros Hne H; [done | | ].
  - cbn [join]. apply split_no_sep. by apply Forall_cons in H as [? _].
  - apply Forall_cons in H as [Ht H].
    change (join [sep] (t :: t' :: tokens))
      with (t ++ [sep] ++ join [sep] (t' :: tokens)).
    cbn [app]. rewrite (split_app_sep sep t _ Ht). rewrite IH; done.
Qed.

Lemma join_singletons (l : list Z) : join [] (map (fun c => [c]) l) = l.
Proof.
  induction l as [|c [|c' l] IH]; [done | done | ].
  change (join [] (map (fun c => [c]) (c :: c' :: l)))
    with ([c] ++ [] ++ join [] (map (fun c => [c]) (c' :: l))).
  rewrite IH. done.
Qed.

(** ** Decimal strings of small numbers *)

Lemma py_str_two_digits v : 0 <= v <= 99 -> py_str v = two_digits v.
Proof.
  intros Hv.
  assert (C : forallb (fun v => bool_decide (py_str v = two_digits v)) (seqZ 0 100) = true)
    by (vm_compute; reflexivity).
  rewrite forallb_forall in C.
  assert (Hin : In v (seqZ 0 100)).
  { apply list_elem_of_In, elem_of_seqZ. lia. }
  specialize (C v Hin). by apply bool_decide_eq_true in C.
Qed.

Lemma forme_canonique_id c : c ∉ formes_finales -> forme_canonique c = c.
Proof.
  unfold formes_finales, forme_canonique. intros H.
  rewrite !not_elem_of_cons in H. destruct H as (? & ? & ? & ? & ? & _).
  repeat match goal with
         | |- context [?a =? ?b] => destruct (Z.eqb_spec a b); [lia | ]
         end.
  done.
Qed.

Lemma alphabet_inverse_canonique c v :
  ALPHABET_HEBREU !! c = Some v ->
  ALPHABET_INVERSE !! v = Some (forme_canonique c).
Proof.
  intros H%alphabet_hebreu_elem. unfold alphabet_hebreu_items in H.
  table_cases H; injection H as -> ->; vm_compute; reflexivity.
Qed.

Lemma hebreu_not_blank c : is_Some (ALPHABET_HEBREU !! c) -> isspace c = false.
Proof.
  intros [v Hv]. destruct (isspace c) eqn:E; [ | done].
  apply isspace_not_hebreu in E. congruence.
Qed.

Section RoundTrip.
Context `{I : Interp}.

Lemma token_two_digits v :
  ascii_digits -> 0 <= v <= 99 ->
  str_isdigit (py_str v) = true /\ py_int (py_str v) = Ok v /\ dot ∉ py_str v.
Proof.
  intros HA Hv. rewrite (py_str_two_digits v Hv). unfold two_digits.
  destruct (Z.ltb_spec v 10).
  - destruct (HA v ltac:(lia)) as [E1 E2].
    cbn [str_isdigit forallb py_int decimals]. rewrite E1, E2.
    split_and!.
    + done.
    + unfold too_many_digits, MAX_STR_DIGITS_THRESHOLD. cbn [length].
      replace (640 <? Z.of_nat 1) with false by reflexivity.
      cbn [andb of_digits fold_left]. f_equal; lia.
    + rewrite not_elem_of_cons. split; [unfold dot; lia | apply not_elem_of_nil].
  - assert (0 <= v / 10 <= 9) by (Z.div_mod_to_equations; lia).
    assert (0 <= v mod 10 <= 9) by (Z.div_mod_to_equations; lia).
    destruct (HA (v / 10) ltac:(lia)) as [E1 E2].
    destruct (HA (v mod 10) ltac:(lia)) as [E3 E4].
    cbn [str_isdigit forallb py_int decimals]. rewrite E1, E2, E3, E4.
    split_and!.
    + done.
    + unfold too_many_digits, MAX_STR_DIGITS_THRESHOLD. cbn [length].
      replace (640 <? Z.of_nat 2) with false by reflexivity.
      cbn [andb of_digits fold_left]. pose proof (Z.div_mod v 10). f_equal; lia.
    + rewrite !not_elem_of_cons.
      split_and!; [unfold dot; lia .. | apply not_elem_of_nil].
Qed.

(** On a word of table letters the encoder emits the table values. *)
Lemma encoder_boucle_hebreu (w : str) (acc : list str) :
  Forall (fun c => is_Some (ALPHABET_HEBREU !! c)) w ->
  encoder_boucle w acc = Ok (acc ++ map (fun c => py_str (contribution c)) w).
Proof.
  intros H. revert acc. induction H as [|c w [v Hv] _ IH]; intros acc.
  - cbn [encoder_boucle map]. by rewrite app_nil_r.
  - cbn [encoder_boucle map]. unfold contribution at 1. rewrite Hv.
    cbn [default from_option id]. rewrite IH, <- app_assoc. done.
Qed.

(** The decoder on the tokens of table values gives the non-final letters. *)
Lemma decoder_boucle_hebreu (w : str) (acc : list str) :
  ascii_digits ->
  Forall (fun c => is_Some (ALPHABET_HEBREU !! c)) w ->
  decoder_boucle (map (fun c => py_str (contribution c)) w) acc
  = Ok (acc ++ map (fun c => [forme_canonique c]) w).
Proof.
  intros HA H. revert acc. induction H as [|c w [v Hv] _ IH]; intros acc.
  - cbn [decoder_boucle map]. by rewrite app_nil_r.
  - cbn [decoder_boucle map]. unfold contribution at 1 2. rewrite Hv.
    cbn [default from_option id].
    pose proof (alphabet_hebreu_range c v Hv) as [Hr _].
    destruct (token_two_digits v HA ltac:(lia)) as (E1 & E2 & _).
    rewrite E1, E2. cbn [bind].
    replace ((1 <=? v) && (v <=? 22)) with true by (symmetry; apply andb_true_intro; split; lia).
    rewrite (alphabet_inverse_canonique c v Hv).
    rewrite IH, <- app_assoc. done.
Qed.

Lemma round_trip_hebreu (w : str) :
  ascii_digits ->
  Forall (fun c => is_Some (ALPHABET_HEBREU !! c)) w ->
  (let* s := encoder_mot_hebreu w in decoder_sequence_hebreu s)
  = Ok (map forme_canonique w).
Proof.
  intros HA H. unfold encoder_mot_hebreu.
  rewrite strip_no_blank
    by (eapply Forall_impl; [exact H | intros c Hc; by apply hebreu_not_blank]).
  rewrite (encoder_boucle_hebreu w [] H). cbn [bind app].
  unfold decoder_sequence_hebreu.
  destruct w as [|c w].
  - reflexivity.
  - rewrite split_join.
    + rewrite (decoder_boucle_hebreu (c :: w) [] HA H). cbn [bind app].
      f_equal. rewrite <- (join_singletons (map forme_canonique (c :: w))).
      by rewrite map_map.
    + done.
    + rewrite Forall_map. eapply Forall_impl; [exact H | ].
      intros x [v Hv]. cbn beta. unfold contribution. rewrite Hv.
      cbn [default from_option id].
      pose proof (alphabet_hebreu_range x v Hv) as [Hr _].
      by destruct (token_two_digits v HA ltac:(lia)) as (_ & _ & ?).
Qed.

(** C3, amended. For every word of letters of the Hebrew table, decoding
    the encoding of the word gives the word with each final form replaced
    by its non-final letter; it gives the word itself when the word holds
    no final form. *)
Theorem decode_encode_canonical (w : str) :
  ascii_digits ->
  Forall (fun c => is_Some (ALPHABET_HEBREU !! c)) w ->
  (let* s := encoder_mot_hebreu w in decoder_sequence_hebreu s)
  = Ok (map forme_canonique w)
  /\ (Forall (fun c => c ∉ formes_finales) w ->
      (let* s := encoder_mot_hebreu w in decoder_sequence_hebreu s) = Ok w).
Proof.
  intros HA H. split; [by apply round_trip_hebreu | ].
  intros Hf. rewrite round_trip_hebreu by done. f_equal.
  induction Hf as [|c w Hc _ IH]; [done | ].
  apply Forall_cons in H as [_ H].
  cbn [map]. rewrite forme_canonique_id by done. f_equal. by apply IH.
Qed.

End RoundTrip.

Lemma fragment_ascii_digits : @ascii_digits Fragment.interp.
Proof.
  intros d Hd. cbn [isdigit decimal Fragment.interp].
  unfold Fragment.digit, Fragment.decimal_value, Fragment.between.
  replace (48 <=? 48 + d) with true by lia.
  replace (48 + d <=? 57) with true by lia.
  cbn [andb orb]. split; [done | f_equal; lia].
Qed.

Lemma decode_encode_canonical_witness :
  (let* s := @encoder_mot_hebreu Fragment.interp shalom in
   @decoder_sequence_hebreu Fragment.interp s)
  = Ok (map forme_canonique shalom)
  /\ (Forall (fun c => c ∉ formes_finales) shalom ->
      (let* s := @encoder_mot_hebreu Fragment.interp shalom in
       @decoder_sequence_hebreu Fragment.interp s) = Ok shalom).
Proof.
  apply (@decode_encode_canonical Fragment.interp shalom fragment_ascii_digits).
  unfold shalom. repeat constructor; vm_compute; eauto.
Defined.

(** C3 as stated fails on the one-letter word final mem: the word is made
    of a letter of the table, and decoding its encoding gives mem. *)
Lemma decode_encode_final_mem :
  Forall (fun c => is_Some (ALPHABET_HEBREU !! c)) [0x5DD]
  /\ (let* s := @encoder_mot_hebreu Fragment.interp [0x5DD] in
      @decoder_sequence_hebreu Fragment.interp s) = Ok [0x5DE]
  /\ (let* s := @encoder_mot_hebreu Fragment.interp [0x5DD] in
      @decoder_sequence_hebreu Fragment.interp s) <> Ok [0x5DD].
Proof.
  split; [repeat constructor; vm_compute; eauto | ].
  split; [vm_compute; reflexivity | vm_compute; discriminate].
Qed.

(** ** Unique letters *)

Lemma insert_stable_perm p l : insert_stable p l ≡ₚ p :: l.
Proof.
  induction l as [|q l IH]; cbn [insert_stable]; [done | ].
  destruct (q.1 <? p.1); [ | done].
  rewrite IH. apply Permutation_swap.
Qed.

Lemma stable_sort_perm l : stable_sort l ≡ₚ l.
Proof.
  unfold stable_sort. induction l as [|p l IH]; cbn [foldr]; [done | ].
  by rewrite insert_stable_perm, IH.
Qed.

Lemma insert_stable_sorted p l :
  StronglySorted le_key l -> StronglySorted le_key (insert_stable p l).
Proof.
  induction 1 as [|q l Hs IH Hq]; cbn [insert_stable].
  - repeat constructor.
  - destruct (Z.ltb_spec q.1 p.1).
    + constructor; [done | ]. rewrite insert_stable_perm.
      constructor; [unfold le_key; lia | done].
    + constructor; [by constructor | ].
      constructor; [done | ].
      eapply Forall_impl; [exact Hq | ]. unfold le_key. intros r Hr. lia.
Qed.

Lemma stable_sort_sorted l : StronglySorted le_key (stable_sort l).
Proof.
  unfold stable_sort. induction l as [|p l IH]; cbn [foldr]; [constructor | ].
  by apply insert_stable_sorted.
Qed.

Lemma sorted_undecorate (l : list (Z * Z)) :
  Forall (fun p => p.1 = contribution p.2) l ->
  StronglySorted le_key l -> StronglySorted le_valeur (map snd l).
Proof.
  intros HF HS. induction HS as [|p l Hs IH Hp]; cbn [map]; [constructor | ].
  apply Forall_cons in HF as [Ep HF].
  constructor; [by apply IH | ].
  rewrite Forall_map. rewrite Forall_forall in *.
  intros q Hq. specialize (Hp q Hq). specialize (HF q Hq).
  unfold le_key in Hp. unfold le_valeur. cbn. lia.
Qed.

Lemma decorate_valeur (l : list Z) :
  Forall (fun c => is_Some (ALPHABET_HEBREU !! c)) l ->
  decorate valeur l = Ok (map (fun c => (contribution c, c)) l).
Proof.
  induction 1 as [|c l [v Hv] _ IH]; cbn [decorate map]; [done | ].
  unfold valeur at 1, contribution at 1. rewrite Hv, IH. reflexivity.
Qed.

Lemma elem_of_filter_hebreu c (mot : str) :
  c ∈ List.filter est_hebreu mot <-> c ∈ mot /\ is_Some (ALPHABET_HEBREU !! c).
Proof.
  rewrite <- est_hebreu_true, !list_elem_of_In. apply List.filter_In.
Qed.

Section Uniques.
Context `{I : Interp}.

(** C8. [lettres_uniques_hebreu] returns the characters of the word that
    are in the Hebrew table, each exactly once, arranged by ascending
    numeric value, whatever their order in the word (and whatever the
    order in which the interpreter iterates over a set). *)
Theorem lettres_uniques_hebreu_sorted (mot : str) :
  set_iter_spec ->
  exists r,
    lettres_uniques_hebreu mot = Ok r
    /\ NoDup r
    /\ (forall c, c ∈ r <-> c ∈ mot /\ is_Some (ALPHABET_HEBREU !! c))
    /\ StronglySorted le_valeur r.
Proof.
  intros HS. unfold lettres_uniques_hebreu, sorted.
  set (lettres := List.filter est_hebreu mot).
  destruct (HS lettres) as [Hnd Hin].
  assert (Hh : Forall (fun c => is_Some (ALPHABET_HEBREU !! c)) (set_iter lettres)).
  { rewrite Forall_forall. intros c Hc. apply Hin in Hc.
    by apply elem_of_filter_hebreu in Hc as [_ ?]. }
  rewrite (decorate_valeur _ Hh). cbn [bind].
  set (kl := map (fun c => (contribution c, c)) (set_iter lettres)).
  assert (Hp : map snd (stable_sort kl) ≡ₚ set_iter lettres).
  { rewrite stable_sort_perm. unfold kl. rewrite map_map. cbn. by rewrite map_id. }
  eexists. split; [reflexivity | ]. split_and!.
  - by rewrite Hp.
  - intros c. rewrite Hp, Hin. apply elem_of_filter_hebreu.
  - apply sorted_undecorate; [ | apply stable_sort_sorted].
    rewrite stable_sort_perm. unfold kl. rewrite Forall_map. by apply Forall_true.
Qed.

End Uniques.

Lemma fragment_set_iter_spec : @set_iter_spec Fragment.interp.
Proof.
  intros l. cbn [set_iter Fragment.interp]. split.
  - apply NoDup_remove_dups.
  - intros x. apply elem_of_remove_dups.
Qed.

Lemma lettres_uniques_hebreu_sorted_witness :
  exists r,
    @lettres_uniques_hebreu Fragment.interp (shalom ++ [65] ++ shalom) = Ok r
    /\ NoDup r
    /\ (forall c, c ∈ r <-> c ∈ shalom ++ [65] ++ shalom /\ is_Some (ALPHABET_HEBREU !! c))
    /\ StronglySorted le_valeur r.
Proof.
  apply (@lettres_uniques_hebreu_sorted Fragment.interp (shalom ++ [65] ++ shalom)
           fragment_set_iter_spec).
Defined.

(** ** Routing of the command-line argument *)

Lemma str_isdigit_spec `{I : Interp} (t : str) :
  str_isdigit t = true <-> t <> [] /\ Forall (fun c => isdigit c = true) t.
Proof.
  destruct t as [|c t].
  - cbn [str_isdigit]. split; [discriminate | intros [? _]; done].
  - unfold str_isdigit. rewrite forallb_forall, Forall_forall.
    split.
    + intros H. split; [done | ]. intros x Hx. apply H. by apply list_elem_of_In.
    + intros [_ H] x Hx. apply H. by apply list_elem_of_In.
Qed.

Section Routing.
Context `{I : Interp}.

Lemma main_try_decode (fuel : nat) (entree : str) :
  est_sequence_numerique entree = true ->
  main_try fuel entree
  = (let* mot_decode := decoder_sequence_hebreu entree in
     let* _ := print (ligne_decodee entree mot_decode) in
     let* results := analyser_mot_hebreu fuel mot_decode in
     let* _ := afficher_resultats results in
     let* _ := afficher_table_hebreu in
     Ok (Some mot_decode, results)).
Proof.
  intros H. unfold main_try. rewrite H.
  destruct (decoder_sequence_hebreu entree) as [m | |]; cbn [bind]; [ | done | done].
  destruct (print (ligne_decodee entree m)) as [u | |]; cbn [bind]; [ | done | done].
  destruct (analyser_mot_hebreu fuel m) as [r | |]; cbn [bind snd]; done.
Qed.

Lemma main_try_word (fuel : nat) (entree : str) :
  est_sequence_numerique entree = false ->
  main_try fuel entree
  = (let* results := analyser_mot_hebreu fuel entree in
     let* _ := afficher_resultats results in
     let* _ := afficher_table_hebreu in
     Ok (None, results)).
Proof.
  intros H. unfold main_try. rewrite H.
  destruct (analyser_mot_hebreu fuel entree) as [r | |]; cbn [bind snd]; done.
Qed.

Lemma analyser_mot_hebreu_original (fuel : nat) (mot : str) (r : MotResults) :
  analyser_mot_hebreu fuel mot = Ok r ->
  mot_original r = mot /\ valeur_numerique r = mot_vers_nombre mot.
Proof.
  intros H. unfold analyser_mot_hebreu in H.
  repeat (apply bind_Ok_inv in H as (? & _ & H)).
  by injection H as <-.
Qed.

Lemma main_try_word_Ok (fuel : nat) (entree : str) r :
  est_sequence_numerique entree = false ->
  main_try fuel entree = Ok r ->
  r.1 = None /\ analyser_mot_hebreu fuel entree = Ok r.2.
Proof.
  intros H E. rewrite (main_try_word fuel entree H) in E.
  apply bind_Ok_inv in E as (res & Hres & E).
  apply bind_Ok_inv in E as (? & _ & E).
  apply bind_Ok_inv in E as (? & _ & E).
  by injection E as <-.
Qed.

Lemma main_try_decode_Ok (fuel : nat) (entree : str) r :
  est_sequence_numerique entree = true ->
  main_try fuel entree = Ok r ->
  exists mot_decode,
    decoder_sequence_hebreu entree = Ok mot_decode
    /\ r.1 = Some mot_decode
    /\ analyser_mot_hebreu fuel mot_decode = Ok r.2.
Proof.
  intros H E. rewrite (main_try_decode fuel entree H) in E.
  apply bind_Ok_inv in E as (m & Hm & E).
  apply bind_Ok_inv in E as (? & _ & E).
  apply bind_Ok_inv in E as (res & Hres & E).
  apply bind_Ok_inv in E as (? & _ & E).
  apply bind_Ok_inv in E as (? & _ & E).
  injection E as <-. by exists m.
Qed.

Lemma main_deux_exposants (fuel : nat) (prog : str) :
  isdigit superscript_two = true ->
  decimal superscript_two = None ->
  est_sequence_numerique deux_exposants = true
  /\ main fuel [prog; deux_exposants] = Ok (1, None).
Proof.
  intros Hd Hv.
  assert (Hs : est_sequence_numerique deux_exposants = true).
  { unfold est_sequence_numerique.
    replace (bool_decide (dot ∈ deux_exposants)) with true by (vm_compute; reflexivity).
    replace (split dot deux_exposants)
      with [[superscript_two]; [superscript_two]] by (vm_compute; reflexivity).
    cbn [forallb str_isdigit andb]. by rewrite Hd. }
  split; [exact Hs | ]. unfold main.
  replace (strip deux_exposants) with deux_exposants by (vm_compute; reflexivity).
  rewrite (main_try_decode fuel _ Hs). unfold decoder_sequence_hebreu.
  replace (split dot deux_exposants)
    with [[superscript_two]; [superscript_two]] by (vm_compute; reflexivity).
  cbn [decoder_boucle str_isdigit forallb]. rewrite Hd.
  cbn [andb py_int decimals]. rewrite Hv. reflexivity.
Qed.

End Routing.

(** C10, at a failing input. [main] sends its argument to the decoder
    exactly when the argument holds a '.' and every token between the dots
    is non-empty and made of characters [isdigit] accepts; every other
    argument is analysed as a word and nothing is decoded, whether it has
    no dot, as "52" (whose gematria value is 0), or a dot and a token
    with another character, as "1.a". The claim has every token of a
    decoded argument made of decimal digits. SUPERSCRIPT TWO is accepted
    by [isdigit] and is no decimal digit: the argument "<2>.<2>" is sent
    to the decoder, which raises, and the program ends with status 1
    instead of analysing the argument as a word. *)
Theorem main_routes_by_isdigit :
  (forall (I : Interp) (entree : str),
      est_sequence_numerique entree = true
      <-> dot ∈ entree
          /\ Forall (fun t => t <> [] /\ Forall (fun c => isdigit c = true) t)
               (split dot entree))
  /\ (forall (I : Interp) fuel (entree : str),
         est_sequence_numerique entree = true ->
         main_try fuel entree
         = (let* mot_decode := decoder_sequence_hebreu entree in
            let* _ := print (ligne_decodee entree mot_decode) in
            let* results := analyser_mot_hebreu fuel mot_decode in
            let* _ := afficher_resultats results in
            let* _ := afficher_table_hebreu in
            Ok (Some mot_decode, results)))
  /\ (forall (I : Interp) fuel (entree : str),
         est_sequence_numerique entree = false ->
         main_try fuel entree
         = (let* results := analyser_mot_hebreu fuel entree in
            let* _ := afficher_resultats results in
            let* _ := afficher_table_hebreu in
            Ok (None, results)))
  /\ (forall (I : Interp) fuel (entree : str) r,
         est_sequence_numerique entree = true ->
         main_try fuel entree = Ok r ->
         exists mot_decode,
           decoder_sequence_hebreu entree = Ok mot_decode
           /\ r.1 = Some mot_decode /\ mot_original r.2 = mot_decode)
  /\ (forall (I : Interp) fuel (entree : str) r,
         est_sequence_numerique entree = false ->
         main_try fuel entree = Ok r ->
         r.1 = None /\ mot_original r.2 = entree)
  /\ (forall (I : Interp), est_sequence_numerique cinquante_deux = false)
  /\ (forall (I : Interp),
         isdigit 97 = false -> est_sequence_numerique un_point_a = false)
  /\ (forall (I : Interp) fuel r,
         main_try fuel cinquante_deux = Ok r ->
         r.1 = None /\ mot_original r.2 = cinquante_deux /\ valeur_numerique r.2 = 0)
  /\ (exists r, @main Fragment.interp 0 [[]; cinquante_deux] = Ok (0, Some (None, r))
                /\ mot_original r = cinquante_deux /\ valeur_numerique r = 0)
  /\ (exists r, @main Fragment.interp 0 [[]; un_point_a] = Ok (0, Some (None, r))
                /\ mot_original r = un_point_a)
  /\ (forall (I : Interp),
         isdigit superscript_two = true ->
         decimal superscript_two = None ->
         est_sequence_numerique deux_exposants = true
         /\ Forall (fun t => Forall (fun c => decimal c = None) t)
              (split dot deux_exposants)
         /\ forall fuel prog, main fuel [prog; deux_exposants] = Ok (1, None))
  /\ (@est_sequence_numerique Fragment.interp deux_exposants = true
      /\ forall fuel prog,
           @main Fragment.interp fuel [prog; deux_exposants] = Ok (1, None)).
Proof.
  assert (H52 : forall I : Interp, est_sequence_numerique cinquante_deux = false).
  { intros I. unfold est_sequence_numerique.
    by replace (bool_decide (dot ∈ cinquante_deux)) with false
      by (vm_compute; reflexivity). }
  split_and!.
  - intros I entree. unfold est_sequence_numerique.
    rewrite andb_true_iff, bool_decide_eq_true, forallb_forall, Forall_forall.
    split; intros [H1 H2]; (split; [done | ]); intros t Ht.
    + apply str_isdigit_spec, H2. by apply list_elem_of_In.
    + apply str_isdigit_spec, H2. by apply list_elem_of_In.
  - intros I fuel entree H. by apply main_try_decode.
  - intros I fuel entree H. by apply main_try_word.
  - intros I fuel entree r H E.
    destruct (main_try_decode_Ok fuel entree r H E) as (m & Hm & H1 & H2).
    exists m. split; [done | split; [done | ]].
    by apply analyser_mot_hebreu_original in H2 as [? _].
  - intros I fuel entree r H E.
    destruct (main_try_word_Ok fuel entree r H E) as [H1 H2].
    split; [done | ]. by apply analyser_mot_hebreu_original in H2 as [? _].
  - exact H52.
  - intros I Ha. unfold est_sequence_numerique.
    replace (split dot un_point_a) with [[49]; [97]] by (vm_compute; reflexivity).
    cbn [forallb str_isdigit]. rewrite Ha. by rewrite !andb_false_r.
  - intros I fuel r E.
    destruct (main_try_word_Ok fuel _ r (H52 I) E) as [H1 H2].
    apply analyser_mot_hebreu_original in H2 as [H2 H3].
    split; [done | split; [done | ]]. rewrite H3. vm_compute. reflexivity.
  - eexists. split_and!; [vm_compute; reflexivity | reflexivity | reflexivity].
  - eexists. split; [vm_compute; reflexivity | reflexivity].
  - intros I Hd Hv. split; [ | split].
    + by destruct (main_deux_exposants 0%nat [] Hd Hv).
    + replace (split dot deux_exposants)
        with [[superscript_two]; [superscript_two]] by (vm_compute; reflexivity).
      repeat constructor; exact Hv.
    + intros fuel prog. by destruct (main_deux_exposants fuel prog Hd Hv).
  - vm_compute. reflexivity.
  - intros fuel prog.
    by destruct (@main_deux_exposants Fragment.interp fuel prog eq_refl eq_refl).
Qed.

(** ** Factorisation *)

Lemma product_app l1 l2 : product (l1 ++ l2) = product l1 * product l2.
Proof. unfold product. induction l1 as [|x l1 IH]; cbn [app foldr]; lia. Qed.

Lemma product_replicate k d : product (replicate k d) = d ^ Z.of_nat k.
Proof.
  unfold product. induction k as [|k IH]; cbn [replicate foldr]; [done | ].
  rewrite IH, Nat2Z.inj_succ, Z.pow_succ_r by lia. done.
Qed.

Lemma Forall_replicate_pos {A} (P : A -> Prop) k x :
  (k <> 0%nat -> P x) -> Forall P (replicate k x).
Proof.
  intros H. destruct k as [|k]; [constructor | ].
  apply Forall_replicate. by apply H.
Qed.

Lemma mod_0_divide d n : d <> 0 -> (n mod d = 0 <-> (d | n)).
Proof. intros Hd. by apply Z.mod_divide. Qed.

(** A number above 1 without divisor in [2, d) is prime once [d * d]
    exceeds it. *)
Lemma prime_of_no_small_div d n :
  2 <= d -> 1 < n -> no_small_div d n -> n < d * d -> prime n.
Proof.
  intros Hd2 Hn Hd Hdd. apply prime_alt. split; [done | ].
  intros k Hk [q Hq].
  assert (Hq1 : 1 < q) by nia.
  assert (Hqn : q < n) by nia.
  destruct (Z.lt_ge_cases k d) as [Hkd | Hkd].
  - apply (Hd k); [lia | by exists q].
  - destruct (Z.lt_ge_cases q d) as [Hqd | Hqd].
    + apply (Hd q); [lia | exists k; lia].
    + nia.
Qed.

Lemma no_small_div_le d n : 1 < n -> no_small_div d n -> d <= n.
Proof.
  intros Hn Hd. destruct (Z.le_gt_cases d n) as [|Hlt]; [done | ].
  exfalso. apply (Hd n); [lia | apply Z.divide_refl].
Qed.

(** A divisor of [n] below which [n] has no divisor is prime. *)
Lemma prime_least_divisor d n :
  2 <= d -> no_small_div d n -> (d | n) -> prime d.
Proof.
  intros Hd Hn Hdn. apply prime_alt. split; [lia | ].
  intros k Hk Hkd. apply (Hn k); [lia | ]. by apply Z.divide_trans with d.
Qed.

Lemma factorize_inner_spec fuel d n factors :
  2 <= d -> 1 <= n -> (Z.to_nat n <= fuel)%nat ->
  exists k n',
    factorize_inner fuel d n factors = Ok (n', factors ++ replicate k d)
    /\ n = n' * d ^ Z.of_nat k /\ 1 <= n' <= n /\ ~ (d | n')
    /\ (k <> 0%nat -> (d | n)).
Proof.
  intros Hd. revert n factors.
  induction fuel as [|fuel IH]; intros n factors Hn Hf; [lia | ].
  cbn [factorize_inner].
  destruct (Z.eqb_spec (n mod d) 0) as [E | E].
  - apply mod_0_divide in E; [ | lia]. destruct E as [q Hq].
    assert (Hdiv : n / d = q) by (subst n; apply Z.div_mul; lia).
    assert (Hq1 : 1 <= q < n) by nia.
    destruct (IH q (factors ++ [d]) ltac:(lia) ltac:(lia))
      as (k & n' & E1 & E2 & E3 & E4 & _).
    exists (S k), n'. rewrite Hdiv, E1. split_and!.
    + by rewrite <- app_assoc.
    + rewrite Nat2Z.inj_succ, Z.pow_succ_r by lia. lia.
    + lia.
    + lia.
    + done.
    + intros _. by exists q.
  - exists 0%nat, n. rewrite app_nil_r. split_and!; [done | cbn; lia | lia | lia | | done].
    intros Hdn. apply E. apply mod_0_divide; [lia | done].
Qed.

Lemma factorize_outer_spec fuel0 fuel d n factors :
  2 <= d -> 1 <= n -> no_small_div d n ->
  (Z.to_nat n <= fuel0)%nat -> (Z.to_nat (n - d + 1) <= fuel)%nat ->
  exists n' fs,
    factorize_outer fuel0 fuel d n factors = Ok (n', factors ++ fs)
    /\ n = n' * product fs /\ 1 <= n'
    /\ Forall prime fs /\ StronglySorted Z.le fs /\ Forall (fun p => d <= p) fs
    /\ (1 < n' -> prime n' /\ d <= n' /\ Forall (fun p => p <= n') fs).
Proof.
  revert d n factors.
  induction fuel as [|fuel IH]; intros d n factors Hd Hn Hns Hf0 Hf;
    cbn [factorize_outer].
  - destruct (Z.leb_spec (d * d) n) as [Hle | Hgt]; [nia | ].
    exists n, []. rewrite app_nil_r. split_and!; try done; [cbn; lia | constructor | ].
    intros H1. split_and!; [by apply (prime_of_no_small_div d) | by apply no_small_div_le | done].
  - destruct (Z.leb_spec (d * d) n) as [Hle | Hgt].
    + destruct (factorize_inner_spec fuel0 d n factors Hd Hn Hf0)
        as (k & n1 & E1 & E2 & E3 & E4 & E5).
      rewrite E1. cbn [bind fst snd].
      assert (Hns1 : no_small_div (d + 1) n1).
      { intros j Hj Hjn. destruct (Z.eq_dec j d) as [-> | Hne]; [done | ].
        apply (Hns j); [lia | ]. rewrite E2. by apply Z.divide_mul_l. }
      destruct (IH (d + 1) n1 (factors ++ replicate k d)
                  ltac:(lia) ltac:(lia) Hns1 ltac:(lia) ltac:(nia))
        as (n' & fs & F1 & F2 & F3 & F4 & F5 & F6 & F7).
      exists n', (replicate k d ++ fs). rewrite F1. split_and!.
      * by rewrite <- app_assoc.
      * rewrite product_app, product_replicate. rewrite E2, F2. lia.
      * done.
      * apply Forall_app. split; [ | done].
        apply Forall_replicate_pos. intros Hk.
        eapply prime_least_divisor; [done | done | ]. by apply E5.
      * clear -F5 F6. induction k as [|k IHk]; cbn [replicate app]; [done | ].
        constructor; [done | ].
        apply Forall_app. split.
        -- apply Forall_replicate. lia.
        -- eapply Forall_impl; [exact F6 | ]. cbn. lia.
      * apply Forall_app. split.
        -- apply Forall_replicate. lia.
        -- eapply Forall_impl; [exact F6 | ]. cbn. lia.
      * intros H1. destruct (F7 H1) as (G1 & G2 & G3).
        split_and!; [done | lia | ].
        apply Forall_app. split; [ | done].
        apply Forall_replicate. lia.
    + exists n, []. rewrite app_nil_r. split_and!; try done; [cbn; lia | constructor | ].
      intros H1. split_and!; [by apply (prime_of_no_small_div d) | by apply no_small_div_le | done].
Qed.

(** More fuel does not change a result. *)
Lemma factorize_inner_mono fuel fuel' d n factors r :
  factorize_inner fuel d n factors = Ok r -> (fuel <= fuel')%nat ->
  factorize_inner fuel' d n factors = Ok r.
Proof.
  revert fuel' n factors.
  induction fuel as [|fuel IH]; intros fuel' n factors H Hle.
  - cbn [factorize_inner] in H.
    destruct fuel'; cbn [factorize_inner]; destruct (n mod d =? 0); done.
  - destruct fuel' as [|fuel']; [lia | ].
    cbn [factorize_inner] in *. destruct (n mod d =? 0); [ | done].
    apply IH; [done | lia].
Qed.

Lemma factorize_outer_mono fuel0 fuel0' fuel fuel' d n factors r :
  factorize_outer fuel0 fuel d n factors = Ok r ->
  (fuel0 <= fuel0')%nat -> (fuel <= fuel')%nat ->
  factorize_outer fuel0' fuel' d n factors = Ok r.
Proof.
  intros H H0. revert fuel' d n factors H.
  induction fuel as [|fuel IH]; intros fuel' d n factors H Hle.
  - cbn [factorize_outer] in H.
    destruct fuel'; cbn [factorize_outer]; destruct (d * d <=? n); done.
  - destruct fuel' as [|fuel']; [lia | ].
    cbn [factorize_outer] in *. destruct (d * d <=? n); [ | done].
    apply bind_Ok_inv in H as (nf & E1 & E2).
    rewrite (factorize_inner_mono _ fuel0' _ _ _ _ E1 H0). cbn [bind].
    apply IH; [done | lia].
Qed.

Lemma factorize_mono fuel fuel' n l :
  factorize fuel n = Ok l -> (fuel <= fuel')%nat -> factorize fuel' n = Ok l.
Proof.
  unfold factorize. destruct (n <? 2); [done | ].
  intros H Hle. apply bind_Ok_inv in H as (nf & E1 & E2).
  by rewrite (factorize_outer_mono _ fuel' _ fuel' _ _ _ _ E1 Hle Hle).
Qed.

(** C5. Below 2 (0, 1 and the negative numbers) [factorize] returns the
    one-element list of its argument. From 2 on, trial division by 2, 3,
    ... ends (any fuel from [n] on is enough) and returns a nondecreasing
    list of primes whose product is [n]. [factorize(52) = [2, 2, 13]] and
    [factorize(0) = [0]]. *)
Theorem factorize_prime_factors :
  (forall fuel n, n < 2 -> factorize fuel n = Ok [n])
  /\ (forall n, 2 <= n ->
        exists l,
          (forall fuel, (Z.to_nat n <= fuel)%nat -> factorize fuel n = Ok l)
          /\ Forall prime l /\ StronglySorted Z.le l /\ product l = n)
  /\ factorize 52 52 = Ok [2; 2; 13]
  /\ factorize 0 0 = Ok [0].
Proof.
  split_and!.
  - intros fuel n Hn. unfold factorize.
    by destruct (Z.ltb_spec n 2); [ | lia].
  - intros n Hn.
    destruct (factorize_outer_spec (Z.to_nat n) (Z.to_nat n) 2 n []
                ltac:(lia) ltac:(lia) ltac:(intros k Hk; lia) ltac:(lia) ltac:(lia))
      as (n' & fs & F1 & F2 & F3 & F4 & F5 & F6 & F7).
    cbn [app] in F1.
    assert (E : exists l, factorize (Z.to_nat n) n = Ok l
                          /\ Forall prime l /\ StronglySorted Z.le l /\ product l = n).
    { unfold factorize. destruct (Z.ltb_spec n 2); [lia | ].
      rewrite F1. cbn [bind fst snd].
      destruct (Z.ltb_spec 1 n') as [H1 | H1].
      - destruct (F7 H1) as (G1 & G2 & G3).
        eexists. split; [reflexivity | ]. split_and!.
        + apply Forall_app. split; [done | by constructor].
        + clear -F5 G3. induction F5 as [|p fs Hs IH Hp]; cbn [app].
          * repeat constructor.
          * apply Forall_cons in G3 as [Gp G3].
            constructor; [by apply IH | ].
            apply Forall_app. split; [done | by constructor].
        + rewrite product_app. unfold product at 2. cbn [foldr]. lia.
      - eexists. split; [reflexivity | ]. split_and!; [done | done | ].
        assert (n' = 1) by lia. subst n'. lia. }
    destruct E as (l & E1 & E2 & E3 & E4).
    exists l. split_and!; try done.
    intros fuel Hf. by apply factorize_mono with (Z.to_nat n).
  - vm_compute. reflexivity.
  - vm_compute. reflexivity.
Qed.

(** ** The number handed to the number analysis *)

Lemma string_of_uint_chiffres (d : Decimal.uint) :
  Forall chiffre (code_points (DecimalString.NilEmpty.string_of_uint d)).
Proof.
  unfold code_points.
  induction d as [|d IH|d IH|d IH|d IH|d IH|d IH|d IH|d IH|d IH|d IH];
    cbn [DecimalString.NilEmpty.string_of_uint String.list_ascii_of_string map];
    [constructor | constructor; [unfold chiffre; cbn; lia | exact IH] ..].
Qed.

Lemma py_str_nonneg_chiffres n : 0 <= n -> Forall chiffre (py_str n).
Proof.
  intros Hn. destruct n as [|p|p]; [ | | lia].
  - repeat constructor; unfold chiffre; cbn; lia.
  - unfold py_str. cbn [Z.to_int DecimalString.NilZero.string_of_int].
    unfold DecimalString.NilZero.string_of_uint.
    destruct (Pos.to_uint p) eqn:E;
      try (rewrite <- E; apply string_of_uint_chiffres).
    repeat constructor; unfold chiffre; cbn; lia.
Qed.

Lemma py_str_nonneg_no_minus n : 0 <= n -> minus ∉ py_str n.
Proof.
  intros Hn Hin. pose proof (py_str_nonneg_chiffres n Hn) as H.
  rewrite Forall_forall in H. specialize (H minus Hin).
  unfold chiffre, minus in H. lia.
Qed.

(** *** The square root of a float that is not negative is a number *)

Lemma iter_pos_invariant {A} (P : A -> Prop) (f : A -> A) :
  (forall x, P x -> P (f x)) -> forall p x, P x -> P (iter_pos f p x).
Proof.
  intros Hf. induction p as [p IH | p IH | ]; intros x Hx; cbn [iter_pos]; auto.
Qed.

Lemma shr_1_nonneg mrs : 0 <= shr_m mrs -> 0 <= shr_m (shr_1 mrs).
Proof.
  destruct mrs as [m r s]. cbn [shr_m]. intros Hm.
  destruct m as [|[p|p|]|[p|p|]]; cbn; lia.
Qed.

Lemma shr_fexp_nonneg m e l :
  0 <= m -> 0 <= shr_m (shr_fexp prec emax m e l).1.
Proof.
  intros Hm. unfold shr_fexp, shr.
  assert (H0 : 0 <= shr_m (shr_record_of_loc m l)) by (by destruct l as [|[]]).
  destruct (fexp prec emax (Zdigits2 m + e) - e) as [|p|p]; cbn [fst]; [done | | done].
  by apply (iter_pos_invariant (fun x => 0 <= shr_m x)); [apply shr_1_nonneg | ].
Qed.

Lemma round_nearest_even_nonneg m l : 0 <= m -> 0 <= round_nearest_even m l.
Proof.
  intros Hm. unfold round_nearest_even.
  destruct l as [|[]]; [done | | done | lia]. destruct (Z.even m); lia.
Qed.

Lemma binary_round_aux_not_nan sx mx ex lx :
  0 <= mx -> binary_round_aux prec emax sx mx ex lx <> S754_nan.
Proof.
  intros Hm. unfold binary_round_aux.
  pose proof (shr_fexp_nonneg mx ex lx Hm) as H1.
  destruct (shr_fexp prec emax mx ex lx) as [mrs' e']. cbn [fst] in H1.
  pose proof (shr_fexp_nonneg _ e' loc_Exact
                (round_nearest_even_nonneg _ (loc_of_shr_record mrs') H1)) as H2.
  destruct (shr_fexp prec emax _ e' loc_Exact) as [mrs'' e'']. cbn [fst] in H2.
  destruct (shr_m mrs'') as [|p|p]; [done | | lia].
  by destruct (e'' <=? emax - prec).
Qed.

Lemma binary_round_aux_sign mx ex lx x :
  0 <= mx -> binary_round_aux prec emax false mx ex lx = x ->
  x = S754_infinity false \/ float_nonneg x.
Proof.
  intros Hm <-. unfold binary_round_aux.
  pose proof (shr_fexp_nonneg mx ex lx Hm) as H1.
  destruct (shr_fexp prec emax mx ex lx) as [mrs' e']. cbn [fst] in H1.
  pose proof (shr_fexp_nonneg _ e' loc_Exact
                (round_nearest_even_nonneg _ (loc_of_shr_record mrs') H1)) as H2.
  destruct (shr_fexp prec emax _ e' loc_Exact) as [mrs'' e'']. cbn [fst] in H2.
  destruct (shr_m mrs'') as [|p|p]; [by right | | lia].
  destruct (e'' <=? emax - prec); [by right | by left].
Qed.

Lemma float_of_int_nonneg n x :
  0 <= n -> float_of_int n = Ok x -> float_nonneg x.
Proof.
  intros Hn. unfold float_of_int, binary_normalize.
  destruct n as [|p|p]; [ | | lia].
  - by intros [= <-].
  - unfold binary_round.
    destruct (shl_align p 0 _) as [mz ez].
    destruct (binary_round_aux prec emax false (Z.pos mz) ez loc_Exact) as [s|s| |s m e] eqn:E;
      intros H; try discriminate; injection H as <-;
      apply binary_round_aux_sign in E as [E | E]; done.
Qed.

Lemma sqrt_nonneg_not_nan x : float_nonneg x -> SFsqrt prec emax x <> S754_nan.
Proof.
  destruct x as [s|s| |s m e]; cbn [float_nonneg SFsqrt]; try done.
  intros ->. unfold SFsqrt_core_binary.
  destruct (Z.sqrtrem _) as [q r] eqn:E.
  apply binary_round_aux_not_nan.
  pose proof (Z.sqrtrem_sqrt
    match e - 2 * Z.min (fexp prec emax (Z.div2 (Zdigits2 (Z.pos m) + e + 1))) (Z.div2 e) with
    | 0 => Z.pos m
    | Z.pos _ => Z.shiftl (Z.pos m)
                   (e - 2 * Z.min (fexp prec emax (Z.div2 (Zdigits2 (Z.pos m) + e + 1))) (Z.div2 e))
    | Z.neg _ => 0
    end) as Hq.
  rewrite E in Hq. cbn [fst] in Hq. subst q. apply Z.sqrt_nonneg.
Qed.

Lemma math_sqrt_nonneg_not_nan n x :
  0 <= n -> math_sqrt n = Ok x -> x <> S754_nan.
Proof.
  intros Hn H. unfold math_sqrt in H.
  apply bind_Ok_inv in H as (y & Hy & H).
  pose proof (float_of_int_nonneg n y Hn Hy) as Hy'.
  destruct y as [s|s| |s m e]; cbn [float_nonneg] in Hy'; try done.
  - injection H as <-. done.
  - subst s. injection H as <-. by apply (sqrt_nonneg_not_nan (S754_finite false m e)).
Qed.

(** C9. [mot_vers_nombre] never returns a negative number: it adds table
    values, each in 1..22. The number [analyser_mot_hebreu] hands to
    [analyser_nombre] is that sum; on a number that is not negative
    [analyser_nombre] takes the [math.sqrt] branch, whose result is not
    NaN, and the decimal string it sums, counts and digests holds no minus
    sign. *)
Theorem word_analysis_never_negative :
  (forall mot : str, 0 <= mot_vers_nombre mot)
  /\ (forall c v, ALPHABET_HEBREU !! c = Some v -> 1 <= v <= 22)
  /\ (forall (I : Interp) fuel (mot : str) r,
         analyser_mot_hebreu fuel mot = Ok r ->
         valeur_numerique r = mot_vers_nombre mot
         /\ 0 <= valeur_numerique r
         /\ analyser_nombre fuel (valeur_numerique r) = Ok (nombre_results r))
  /\ (forall (I : Interp) fuel n r,
         0 <= n -> analyser_nombre fuel n = Ok r ->
         math_sqrt n = Ok (square_root r) /\ square_root r <> S754_nan)
  /\ (forall n, 0 <= n -> minus ∉ py_str n)
  /\ (exists r, @analyser_mot_hebreu Fragment.interp 52 shalom = Ok r
                /\ valeur_numerique r = 52).
Proof.
  split_and!.
  - exact mot_vers_nombre_nonneg.
  - intros c v H. by apply alphabet_hebreu_range in H as [? _].
  - intros I fuel mot r H. unfold analyser_mot_hebreu in H.
    apply bind_Ok_inv in H as (s & _ & H).
    apply bind_Ok_inv in H as (md & _ & H).
    apply bind_Ok_inv in H as (lu & _ & H).
    apply bind_Ok_inv in H as (nr & Hnr & H).
    injection H as <-. cbn [valeur_numerique nombre_results].
    split_and!; [done | apply mot_vers_nombre_nonneg | done].
  - intros I fuel n r Hn H. unfold analyser_nombre in H.
    apply bind_Ok_inv in H as (fs & _ & H).
    apply bind_Ok_inv in H as (p & _ & H).
    apply bind_Ok_inv in H as (ds & _ & H).
    apply bind_Ok_inv in H as (sq & Hsq & H).
    injection H as <-. cbn [square_root].
    destruct (Z.leb_spec 0 n); [ | lia].
    split; [done | by eapply math_sqrt_nonneg_not_nan].
  - exact py_str_nonneg_no_minus.
  - eexists. split; [vm_compute; reflexivity | reflexivity].
Qed.

(** ** Primality

    *** [int(math.sqrt(n))] below 2^52 *)

Lemma digits2_pos_bounds p :
  2 ^ (Z.pos (digits2_pos p) - 1) <= Z.pos p < 2 ^ Z.pos (digits2_pos p).
Proof.
  induction p as [p IH | p IH | ]; cbn [digits2_pos].
  - rewrite Pos2Z.inj_succ.
    replace (Z.succ (Z.pos (digits2_pos p)) - 1) with (Z.succ (Z.pos (digits2_pos p) - 1)) by lia.
    rewrite !Z.pow_succ_r by lia. lia.
  - rewrite Pos2Z.inj_succ.
    replace (Z.succ (Z.pos (digits2_pos p)) - 1) with (Z.succ (Z.pos (digits2_pos p) - 1)) by lia.
    rewrite !Z.pow_succ_r by lia. lia.
  - cbn. lia.
Qed.

Lemma Zdigits2_unique m k :
  0 < k -> 2 ^ (k - 1) <= m < 2 ^ k -> Zdigits2 m = k.
Proof.
  intros Hk Hm.
  assert (0 < m) by (pose proof (Z.pow_pos_nonneg 2 (k - 1)); lia).
  destruct m as [|p|p]; [lia | | lia]. cbn [Zdigits2].
  pose proof (digits2_pos_bounds p) as Hp.
  set (d := Z.pos (digits2_pos p)) in *.
  assert (Hd : 0 < d) by (unfold d; lia).
  destruct (Z.lt_trichotomy d k) as [Hlt | [-> | Hgt]]; [ | done | ].
  - pose proof (Z.pow_le_mono_r 2 d (k - 1) ltac:(lia) ltac:(lia)). lia.
  - pose proof (Z.pow_le_mono_r 2 k (d - 1) ltac:(lia) ltac:(lia)). lia.
Qed.

Lemma pos_iter_xO m d : Z.pos (Pos.iter xO m d) = Z.pos m * 2 ^ Z.pos d.
Proof.
  induction d as [|d IH] using Pos.peano_ind.
  - cbn. lia.
  - rewrite Pos.iter_succ, Pos2Z.inj_xO, IH, Pos2Z.inj_succ, Z.pow_succ_r by lia. lia.
Qed.

Lemma round_nearest_even_loc M l :
  round_nearest_even (shr_m (shr_record_of_loc M l))
    (loc_of_shr_record (shr_record_of_loc M l))
  = round_nearest_even M l.
Proof. by destruct l as [|[]]. Qed.

Lemma shr_fexp_53 M e l :
  2 ^ 52 <= M < 2 ^ 53 -> -1074 <= e ->
  shr_fexp prec emax M e l = (shr_record_of_loc M l, e).
Proof.
  intros HM He. unfold shr_fexp.
  rewrite (Zdigits2_unique M 53) by (cbn in *; lia).
  unfold fexp, emin, prec, emax.
  replace (Z.max (53 + e - 53) (3 - 1024 - 53) - e) with 0 by lia.
  reflexivity.
Qed.

Lemma binary_round_aux_53 M e l :
  2 ^ 52 <= M < 2 ^ 53 -> -1074 <= e <= 971 ->
  round_nearest_even M l < 2 ^ 53 ->
  M <= round_nearest_even M l ->
  binary_round_aux prec emax false M e l
  = S754_finite false (Z.to_pos (round_nearest_even M l)) e.
Proof.
  intros HM He Hr1 Hr2. unfold binary_round_aux.
  rewrite (shr_fexp_53 M e l HM ltac:(lia)).
  rewrite round_nearest_even_loc.
  rewrite (shr_fexp_53 _ e loc_Exact) by lia.
  cbn [shr_record_of_loc shr_m].
  destruct (round_nearest_even M l) as [|p|p] eqn:E; [lia | | lia].
  unfold emax, prec. replace (e <=? 1024 - 53) with true by lia. reflexivity.
Qed.

Lemma pow2_pos k : 0 <= k -> 0 < 2 ^ k.
Proof. intros. by apply Z.pow_pos_nonneg. Qed.

Lemma pow2_split a b : 0 <= a -> 0 <= b -> 2 ^ (a + b) = 2 ^ a * 2 ^ b.
Proof. intros. by apply Z.pow_add_r. Qed.

(** An int of [d <= 53] bits is a float: mantissa shifted to 53 bits. *)
Lemma float_of_int_exact n d :
  1 <= d <= 53 -> 2 ^ (d - 1) <= n < 2 ^ d ->
  float_of_int n = Ok (S754_finite false (Z.to_pos (n * 2 ^ (53 - d))) (d - 53)).
Proof.
  intros Hd Hn.
  assert (Hn0 : 0 < n) by (pose proof (pow2_pos (d - 1)); lia).
  assert (HM : 2 ^ 52 <= n * 2 ^ (53 - d) < 2 ^ 53).
  { assert (E52 : 2 ^ 52 = 2 ^ (d - 1) * 2 ^ (53 - d))
      by (rewrite <- pow2_split by lia; f_equal; lia).
    assert (E53 : 2 ^ 53 = 2 ^ d * 2 ^ (53 - d))
      by (rewrite <- pow2_split by lia; f_equal; lia).
    rewrite E52, E53. pose proof (pow2_pos (53 - d) ltac:(lia)). nia. }
  unfold float_of_int, binary_normalize.
  destruct n as [|p|p]; [lia | | lia].
  unfold binary_round.
  pose proof (Zdigits2_unique (Z.pos p) d ltac:(lia) Hn) as Hdig. cbn [Zdigits2] in Hdig.
  rewrite Hdig. clear Hdig. unfold fexp, emin, prec, emax.
  replace (Z.max (d + 0 - 53) (3 - 1024 - 53)) with (d - 53) by lia.
  unfold shl_align.
  destruct (d - 53 - 0) as [|k|k] eqn:Ek.
  - assert (d = 53) by lia. subst d.
    replace (53 - 53) with 0 in * by lia. rewrite Z.pow_0_r, Z.mul_1_r in *.
    change (binary_round_aux 53 1024) with (binary_round_aux prec emax).
    rewrite (binary_round_aux_53 (Z.pos p) 0 loc_Exact) by (cbn [round_nearest_even]; lia).
    reflexivity.
  - lia.
  - assert (Hk : Z.pos k = 53 - d) by lia.
    change (binary_round_aux 53 1024) with (binary_round_aux prec emax).
    rewrite pos_iter_xO, Hk.
    rewrite (binary_round_aux_53 _ (d - 53) loc_Exact) by (cbn [round_nearest_even]; lia).
    reflexivity.
Qed.

Lemma sqrt_scaled_bounds n P :
  0 <= n -> 0 < P ->
  Z.sqrt n * P <= Z.sqrt (n * (P * P)) < (Z.sqrt n + 1) * P.
Proof.
  intros Hn HP. pose proof (Z.sqrt_spec n Hn) as Hs. cbn zeta in Hs.
  pose proof (Z.sqrt_nonneg n) as Hs0.
  set (s := Z.sqrt n) in *. unfold Z.succ in Hs. split.
  - apply Z.sqrt_le_square; nia.
  - apply Z.sqrt_lt_square; nia.
Qed.

Lemma sqrt_scaled n P :
  0 <= n -> 0 < P -> Z.sqrt (n * (P * P)) / P = Z.sqrt n.
Proof.
  intros Hn HP. pose proof (sqrt_scaled_bounds n P Hn HP) as H.
  symmetry. apply Z.div_unique with (Z.sqrt (n * (P * P)) - Z.sqrt n * P); lia.
Qed.

(** When the remainder exceeds the root, the root plus one still has the
    same quotient by [P], as long as [sqrt n + 1 <= P]. *)
Lemma sqrt_scaled_up n P :
  0 <= n -> 0 < P -> Z.sqrt n + 1 <= P ->
  Z.sqrt (n * (P * P)) < n * (P * P) - Z.sqrt (n * (P * P)) * Z.sqrt (n * (P * P)) ->
  Z.sqrt (n * (P * P)) + 1 < (Z.sqrt n + 1) * P.
Proof.
  intros Hn HP HsP Hr. pose proof (sqrt_scaled_bounds n P Hn HP) as [H1 H2].
  pose proof (Z.sqrt_spec n Hn) as Hs. cbn zeta in Hs. unfold Z.succ in Hs.
  pose proof (Z.sqrt_nonneg n) as Hs0.
  set (s := Z.sqrt n) in *. set (q := Z.sqrt (n * (P * P))) in *.
  destruct (Z.eq_dec (q + 1) ((s + 1) * P)) as [E | NE]; [ | lia].
  exfalso.
  assert (Hq : q = (s + 1) * P - 1) by lia.
  assert (Hn1 : n * (P * P) <= ((s + 1) * (s + 1) - 1) * (P * P)) by nia.
  assert (Hn2 : (s + 1) * P * ((s + 1) * P) - (s + 1) * P + 1 <= n * (P * P)).
  { rewrite Hq in Hr. nia. }
  assert (P * P + 1 <= (s + 1) * P) by nia.
  nia.
Qed.

Lemma sqrtrem_sqrt_location m :
  0 <= m ->
  (let (q, r) := Z.sqrtrem m in
   (q, if r =? 0 then loc_Exact else loc_Inexact (if r <=? q then Lt else Gt)))
  = (Z.sqrt m, sqrt_location m).
Proof.
  intros Hm. pose proof (Z.sqrtrem_spec m Hm) as Hs.
  pose proof (Z.sqrtrem_sqrt m) as Hq.
  destruct (Z.sqrtrem m) as [q r]. cbn [fst] in Hq. subst q.
  destruct Hs as [Hs _]. unfold sqrt_location. cbn zeta.
  replace (m - Z.sqrt m * Z.sqrt m) with r by lia. reflexivity.
Qed.

Lemma SFsqrt_core_int n d u :
  1 <= d <= 52 -> u = Z.div2 (d + 1) -> 2 ^ (d - 1) <= n < 2 ^ d ->
  SFsqrt_core_binary prec emax (n * 2 ^ (53 - d)) (d - 53)
  = (Z.sqrt (n * 2 ^ (2 * (53 - u))), u - 53, sqrt_location (n * 2 ^ (2 * (53 - u)))).
Proof.
  intros Hd Hu Hn.
  assert (Hu' : 2 * u = d \/ 2 * u = d + 1).
  { subst u. rewrite Z.div2_div. Z.div_mod_to_equations. lia. }
  assert (Hn0 : 0 < n) by (pose proof (pow2_pos (d - 1)); lia).
  assert (HM : 2 ^ 52 <= n * 2 ^ (53 - d) < 2 ^ 53).
  { assert (E52 : 2 ^ 52 = 2 ^ (d - 1) * 2 ^ (53 - d))
      by (rewrite <- pow2_split by lia; f_equal; lia).
    assert (E53 : 2 ^ 53 = 2 ^ d * 2 ^ (53 - d))
      by (rewrite <- pow2_split by lia; f_equal; lia).
    rewrite E52, E53. pose proof (pow2_pos (53 - d) ltac:(lia)). nia. }
  unfold SFsqrt_core_binary.
  rewrite (Zdigits2_unique _ 53) by (cbn in *; lia).
  replace (53 + (d - 53) + 1) with (d + 1) by lia. rewrite <- Hu.
  assert (He : Z.min (fexp prec emax u) (Z.div2 (d - 53)) = u - 53).
  { unfold fexp, emin, prec, emax. rewrite Z.div2_div. Z.div_mod_to_equations. lia. }
  rewrite He.
  destruct (d - 53 - 2 * (u - 53)) as [|s|s] eqn:Es; [lia | | lia].
  rewrite Z.shiftl_mul_pow2 by lia. rewrite <- Es.
  replace (n * 2 ^ (53 - d) * 2 ^ (d - 53 - 2 * (u - 53))) with (n * 2 ^ (2 * (53 - u))).
  2:{ rewrite <- Z.mul_assoc, <- pow2_split by lia. do 2 f_equal. lia. }
  assert (Hm : 0 <= n * 2 ^ (2 * (53 - u)))
    by (pose proof (pow2_pos (2 * (53 - u))); nia).
  pose proof (sqrtrem_sqrt_location _ Hm) as E.
  destruct (Z.sqrtrem (n * 2 ^ (2 * (53 - u)))) as [q r].
  by injection E as -> ->.
Qed.

Lemma round_sqrt_location m :
  round_nearest_even (Z.sqrt m) (sqrt_location m)
  = if m - Z.sqrt m * Z.sqrt m <=? Z.sqrt m then Z.sqrt m else Z.sqrt m + 1.
Proof.
  unfold sqrt_location. cbn zeta.
  pose proof (Z.sqrt_nonneg m).
  destruct (Z.eqb_spec (m - Z.sqrt m * Z.sqrt m) 0) as [E | E].
  - rewrite E. cbn [round_nearest_even].
    by destruct (Z.leb_spec 0 (Z.sqrt m)); [ | lia].
  - by destruct (m - Z.sqrt m * Z.sqrt m <=? Z.sqrt m).
Qed.

(** Below 2^52 the float square root, truncated, is the integer square
    root. *)
Lemma int_math_sqrt_exact n :
  1 <= n < 2 ^ 52 ->
  (let* r := math_sqrt n in int_of_float r) = Ok (Z.sqrt n).
Proof.
  intros Hn.
  pose proof (Z.log2_spec n ltac:(lia)) as Hlog.
  pose proof (Z.log2_nonneg n) as Hlog0.
  assert (Hlog52 : Z.log2 n < 52) by (apply Z.log2_lt_pow2; lia).
  set (d := Z.log2 n + 1).
  assert (Hd : 1 <= d <= 52) by (unfold d; lia).
  assert (Hnd : 2 ^ (d - 1) <= n < 2 ^ d).
  { unfold d. replace (Z.log2 n + 1 - 1) with (Z.log2 n) by lia.
    unfold Z.succ in Hlog. done. }
  set (u := Z.div2 (d + 1)).
  assert (Hu : 2 * u = d \/ 2 * u = d + 1).
  { unfold u. rewrite Z.div2_div. Z.div_mod_to_equations. lia. }
  set (P := 2 ^ (53 - u)).
  assert (HP : 0 < P) by (apply pow2_pos; lia).
  assert (HPP : 2 ^ (2 * (53 - u)) = P * P).
  { unfold P. rewrite <- pow2_split by lia. f_equal. lia. }
  pose proof (Z.sqrt_nonneg n) as Hs0.
  (* sqrt n + 1 <= 2^u <= P *)
  assert (Hsu : Z.sqrt n + 1 <= 2 ^ u).
  { assert (Z.sqrt n < 2 ^ u); [ | lia].
    apply Z.sqrt_lt_square; [lia | pose proof (pow2_pos u); lia | ].
    rewrite <- pow2_split by lia.
    assert (2 ^ d <= 2 ^ (u + u)) by (apply Z.pow_le_mono_r; lia). lia. }
  assert (HuP : 2 ^ u <= P) by (unfold P; apply Z.pow_le_mono_r; lia).
  assert (HuP53 : 2 ^ u * P = 2 ^ 53).
  { unfold P. rewrite <- pow2_split by lia. f_equal. lia. }
  set (m := n * (P * P)).
  assert (Hm104 : 2 ^ 104 <= m).
  { unfold m. rewrite <- HPP.
    assert (E : 2 ^ 104 = 2 ^ (2 * u - 2) * 2 ^ (2 * (53 - u)))
      by (rewrite <- pow2_split by lia; f_equal; lia).
    rewrite E.
    assert (2 ^ (2 * u - 2) <= 2 ^ (d - 1)) by (apply Z.pow_le_mono_r; lia).
    pose proof (pow2_pos (2 * (53 - u)) ltac:(lia)). nia. }
  pose proof (sqrt_scaled_bounds n P ltac:(lia) HP) as [Hq1 Hq2]. fold m in Hq1, Hq2.
  assert (Hq52 : 2 ^ 52 <= Z.sqrt m).
  { apply Z.sqrt_le_square; [lia | lia | ].
    replace (2 ^ 52 * 2 ^ 52) with (2 ^ 104) by reflexivity. done. }
  assert (Hq53 : Z.sqrt m < 2 ^ 53) by nia.
  (* the conversion and the square root *)
  unfold math_sqrt. rewrite (float_of_int_exact n d ltac:(lia) Hnd). cbn [bind].
  cbn [SFsqrt].
  assert (HM : 0 < n * 2 ^ (53 - d)) by (pose proof (pow2_pos (53 - d)); nia).
  rewrite Z2Pos.id by done.
  rewrite (SFsqrt_core_int n d u Hd eq_refl Hnd). rewrite HPP. fold m.
  pose proof (round_sqrt_location m) as Hround.
  assert (Hup : Z.sqrt m < m - Z.sqrt m * Z.sqrt m -> Z.sqrt m + 1 < (Z.sqrt n + 1) * P).
  { intros Hr. apply sqrt_scaled_up; [lia | done | lia | done]. }
  assert (Hr53 : round_nearest_even (Z.sqrt m) (sqrt_location m) < 2 ^ 53).
  { rewrite Hround. destruct (Z.leb_spec (m - Z.sqrt m * Z.sqrt m) (Z.sqrt m)); [done | ].
    specialize (Hup ltac:(lia)). nia. }
  assert (Hrle : Z.sqrt m <= round_nearest_even (Z.sqrt m) (sqrt_location m)).
  { rewrite Hround. destruct (_ <=? _); lia. }
  rewrite (binary_round_aux_53 (Z.sqrt m) (u - 53) (sqrt_location m)
             (conj Hq52 Hq53) ltac:(lia) Hr53 Hrle).
  cbn [int_of_float]. f_equal.
  rewrite Z2Pos.id by lia.
  rewrite Z.shiftl_div_pow2 by lia.
  replace (- (u - 53)) with (53 - u) by lia. fold P.
  symmetry.
  apply Z.div_unique with (round_nearest_even (Z.sqrt m) (sqrt_location m) - Z.sqrt n * P);
    [ | lia].
  left. split; [lia | ].
  rewrite Hround. destruct (Z.leb_spec (m - Z.sqrt m * Z.sqrt m) (Z.sqrt m)); [lia | ].
  specialize (Hup ltac:(lia)). lia.
Qed.

(** *** The loop *)

Lemma is_prime_boucle_spec (l : list Z) n :
  is_prime_boucle l n = true <-> Forall (fun i => n mod i <> 0) l.
Proof.
  induction l as [|i l IH]; cbn [is_prime_boucle].
  - split; [constructor | done].
  - destruct (Z.eqb_spec (n mod i) 0) as [E | E].
    + split; [discriminate | ]. intros H. by apply Forall_cons in H as [? _].
    + rewrite IH. split; [by constructor | ]. intros H. by apply Forall_cons in H as [_ ?].
Qed.

Lemma is_prime_boucle_range b n :
  is_prime_boucle (range 2 (b + 1)) n = true
  <-> forall i, 2 <= i <= b -> ~ (i | n).
Proof.
  rewrite is_prime_boucle_spec, Forall_forall. unfold range. split.
  - intros H i Hi Hdiv. apply (H i); [apply elem_of_seqZ; lia | ].
    apply Z.mod_divide; [lia | done].
  - intros H i Hi%elem_of_seqZ Hmod. apply (H i); [lia | ].
    apply Z.mod_divide; [lia | done].
Qed.

Lemma prime_iff_no_divisor_to_sqrt n :
  2 <= n -> (prime n <-> forall i, 2 <= i <= Z.sqrt n -> ~ (i | n)).
Proof.
  intros Hn. pose proof (Z.sqrt_spec n ltac:(lia)) as Hs. cbn zeta in Hs.
  unfold Z.succ in Hs. pose proof (Z.sqrt_nonneg n) as Hs0.
  split.
  - intros Hp i Hi Hdiv. apply prime_alt in Hp as [_ Hp].
    apply (Hp i); [nia | done].
  - intros H. apply (prime_of_no_small_div (Z.sqrt n + 1)); [nia | lia | | lia].
    intros k Hk. apply H. lia.
Qed.

(** [is_prime] where the float square root is the integer square root:
    [is_prime(n)] is false below 2, and for [2 <= n < 2^52] it returns
    true exactly when no integer in [2, floor(sqrt(n))] divides [n], that
    is exactly when [n] is prime. [is_prime(52)] is false. *)
Theorem is_prime_below_2_52 :
  (forall n, n < 2 -> is_prime n = Ok false)
  /\ (forall n, 2 <= n < 2 ^ 52 ->
        exists b,
          is_prime n = Ok b
          /\ (b = true <-> forall i, 2 <= i <= Z.sqrt n -> ~ (i | n))
          /\ (b = true <-> prime n))
  /\ is_prime 52 = Ok false.
Proof.
  split_and!.
  - intros n Hn. unfold is_prime. by destruct (Z.ltb_spec n 2); [ | lia].
  - intros n Hn. unfold is_prime. destruct (Z.ltb_spec n 2); [lia | ].
    pose proof (int_math_sqrt_exact n ltac:(lia)) as E.
    destruct (math_sqrt n) as [r | e | ]; cbn [bind] in E |- *; try discriminate.
    rewrite E. cbn [bind]. eexists. split; [reflexivity | ].
    split; [apply is_prime_boucle_range | ].
    rewrite is_prime_boucle_range. symmetry. apply prime_iff_no_divisor_to_sqrt. lia.
  - vm_compute. reflexivity.
Qed.


(** ** The decoder and the encoder away from the failing inputs *)

Lemma alphabet_inverse_non_final v l :
  ALPHABET_INVERSE !! v = Some l ->
  1 <= v <= 22 /\ ALPHABET_HEBREU !! l = Some v /\ l ∉ formes_finales.
Proof.
  intros H%alphabet_inverse_elem. unfold alphabet_inverse_items in H.
  table_cases H; injection H as -> ->;
    (split; [lia | split; [vm_compute; reflexivity | ]]);
    unfold formes_finales; rewrite !not_elem_of_cons;
    (split_and!; [lia .. | apply not_elem_of_nil]).
Qed.

Section Tokens.
Context `{I : Interp}.

Lemma join_empty_concat (l : list str) : join [] l = concat l.
Proof.
  induction l as [|x [|y l] IH]; cbn [join concat]; [done | by rewrite app_nil_r | ].
  cbn [join concat] in IH. by rewrite IH.
Qed.

Lemma decoder_boucle_tokens (tokens : list str) (acc : list str) :
  (forall t, t ∈ tokens -> str_isdigit t = true -> exists v, py_int t = Ok v) ->
  exists letters,
    decoder_boucle tokens acc = Ok (acc ++ letters)
    /\ concat letters = concat (map decode_token tokens).
Proof.
  revert acc. induction tokens as [|t tokens IH]; intros acc H.
  - exists []. by rewrite app_nil_r.
  - assert (H' : forall t', t' ∈ tokens -> str_isdigit t' = true -> exists v, py_int t' = Ok v)
      by (intros t' Ht'; apply H; by right).
    cbn [decoder_boucle map concat]. unfold decode_token at 1.
    destruct (str_isdigit t) eqn:Ed.
    + destruct (H t ltac:(by left) Ed) as [v Ev]. rewrite Ev. cbn [bind].
      unfold lettre_decodee.
      destruct ((1 <=? v) && (v <=? 22)) eqn:E1.
      * apply andb_true_iff in E1 as [?%Z.leb_le ?%Z.leb_le].
        destruct (alphabet_inverse_total v ltac:(lia)) as (l & El & _).
        rewrite El. cbn [default from_option id].
        destruct (IH (acc ++ [[l]]) H') as (letters & E & EC).
        exists ([l] :: letters). rewrite E, <- app_assoc. split; [done | ].
        cbn [concat]. by rewrite EC.
      * destruct ((1 <=? v) && (v <=? 26)) eqn:E2.
        -- assert (23 <= v <= 26).
           { apply andb_true_iff in E2 as [?%Z.leb_le ?%Z.leb_le].
             apply andb_false_iff in E1 as [?%Z.leb_gt | ?%Z.leb_gt]; lia. }
           replace ((23 <=? v) && (v <=? 26)) with true
             by (symmetry; apply andb_true_iff; split; apply Z.leb_le; lia).
           unfold chr, ord_A.
           replace ((0 <=? v + 65 - 1) && (v + 65 - 1 <=? 1114111)) with true
             by (symmetry; apply andb_true_iff; split; apply Z.leb_le; lia).
           cbn [bind].
           destruct (IH (acc ++ [[v + 65 - 1]]) H') as (letters & E & EC).
           exists ([v + 65 - 1] :: letters). rewrite E, <- app_assoc. split; [done | ].
           cbn [concat]. by rewrite EC.
        -- replace ((23 <=? v) && (v <=? 26)) with false.
           2:{ symmetry. apply andb_false_iff.
               apply andb_false_iff in E2 as [?%Z.leb_gt | ?%Z.leb_gt];
                 [left | right]; apply Z.leb_gt; lia. }
           destruct (IH acc H') as (letters & E & EC).
           exists letters. by rewrite E.
    + destruct (IH acc H') as (letters & E & EC). exists letters. by rewrite E.
Qed.

(** The decoder on a sequence whose digit tokens [int] can read: every
    token is handled on its own, and the output is the concatenation, in
    token order, of the letter of each token. A token of digits of value
    1..22 gives the non-final Hebrew letter of that value, one of value
    23..26 gives the Latin capital [chr(v + ord('A') - 1)], and every other
    token (not made of digits, empty, 0 or above 26) gives nothing. *)
Theorem decoder_token_by_token (sequence : str) :
  (forall t, t ∈ split dot sequence -> str_isdigit t = true ->
             exists v, py_int t = Ok v) ->
  decoder_sequence_hebreu sequence
  = Ok (concat (map decode_token (split dot sequence)))
  /\ (forall t, str_isdigit t = false -> decode_token t = [])
  /\ (forall t v, str_isdigit t = true -> py_int t = Ok v ->
        decode_token t = lettre_decodee v)
  /\ (forall v, 1 <= v <= 22 ->
        exists l, lettre_decodee v = [l]
                  /\ ALPHABET_HEBREU !! l = Some v /\ l ∉ formes_finales)
  /\ (forall v, 23 <= v <= 26 -> lettre_decodee v = [v + ord_A - 1])
  /\ (forall v, v < 1 \/ 26 < v -> lettre_decodee v = []).
Proof.
  intros H. split_and!.
  - unfold decoder_sequence_hebreu.
    destruct (decoder_boucle_tokens (split dot sequence) [] H) as (letters & E & EC).
    rewrite E. cbn [bind app]. by rewrite join_empty_concat, EC.
  - intros t Ht. unfold decode_token. by rewrite Ht.
  - intros t v Ht Hv. unfold decode_token. by rewrite Ht, Hv.
  - intros v Hv. unfold lettre_decodee.
    replace ((1 <=? v) && (v <=? 22)) with true
      by (symmetry; apply andb_true_iff; split; apply Z.leb_le; lia).
    destruct (alphabet_inverse_total v Hv) as (l & El & _).
    rewrite El. cbn [default from_option id]. exists l.
    by destruct (alphabet_inverse_non_final v l El) as (_ & ? & ?).
  - intros v Hv. unfold lettre_decodee.
    replace ((1 <=? v) && (v <=? 22)) with false
      by (symmetry; apply andb_false_iff; right; apply Z.leb_gt; lia).
    by replace ((23 <=? v) && (v <=? 26)) with true
      by (symmetry; apply andb_true_iff; split; apply Z.leb_le; lia).
  - intros v Hv. unfold lettre_decodee.
    replace ((1 <=? v) && (v <=? 22)) with false
      by (symmetry; apply andb_false_iff; destruct Hv; [left | right]; apply Z.leb_gt; lia).
    by replace ((23 <=? v) && (v <=? 26)) with false
      by (symmetry; apply andb_false_iff; destruct Hv; [left | right]; apply Z.leb_gt; lia).
Qed.

Lemma encoder_boucle_values (w : str) (acc : list str) :
  single_upper w ->
  encoder_boucle w acc = Ok (acc ++ map py_str (concat (map code_lettre w))).
Proof.
  revert acc. induction w as [|c w IH]; intros acc H.
  - cbn [encoder_boucle map concat]. by rewrite app_nil_r.
  - assert (H' : single_upper w) by (intros x Hx; apply H; by right).
    cbn [encoder_boucle map concat]. unfold code_lettre at 1.
    destruct (ALPHABET_HEBREU !! c) as [v|] eqn:Ec.
    + rewrite (IH _ H'). cbn [app map]. by rewrite <- app_assoc.
    + destruct (isalpha c) eqn:Ea.
      * destruct (H c ltac:(by left) Ec Ea) as [u Eu]. rewrite Eu.
        cbn [ord bind]. rewrite (IH _ H'). cbn [app map]. by rewrite <- app_assoc.
      * by rewrite (IH _ H').
Qed.

Lemma code_lettre_blanks (s : str) :
  spaces_not_alpha -> blanks s -> concat (map code_lettre s) = [].
Proof.
  intros HS. induction 1 as [|c s Hc _ IH]; cbn [map concat]; [done | ].
  unfold code_lettre at 1. rewrite (isspace_not_hebreu c Hc), (HS c Hc). by rewrite IH.
Qed.

(** The encoder on a word whose letters all have a one-character upper
    case: in the order of the characters, the table value of each Hebrew
    letter (a final form has the value of its base letter), the value
    [ord(upper) - ord('A') + 1] of each other letter, nothing for any other
    character; the values are written in decimal and joined with dots.
    A word without any letter encodes to the empty string. *)
Theorem encoder_letter_by_letter (mot : str) :
  spaces_not_alpha -> single_upper mot ->
  encoder_mot_hebreu mot
  = Ok (join [dot] (map py_str (concat (map code_lettre mot))))
  /\ (Forall (fun c => ALPHABET_HEBREU !! c = None /\ isalpha c = false) mot ->
      encoder_mot_hebreu mot = Ok []).
Proof.
  intros HS HU.
  assert (E : encoder_mot_hebreu mot
              = Ok (join [dot] (map py_str (concat (map code_lettre mot))))).
  { unfold encoder_mot_hebreu.
    destruct (strip_decomp mot) as (pre & post & Emot & B1 & B2).
    rewrite encoder_boucle_values.
    - cbn [bind app]. do 3 f_equal. rewrite Emot at 2.
      rewrite !map_app, !concat_app.
      rewrite (code_lettre_blanks pre HS B1), (code_lettre_blanks post HS B2).
      by rewrite app_nil_r.
    - intros c Hc. apply HU. rewrite Emot.
      apply elem_of_app. right. apply elem_of_app. by left. }
  split; [exact E | ].
  intros HF. rewrite E. clear E HU.
  replace (concat (map code_lettre mot)) with (@nil Z); [done | ].
  induction HF as [|c w [H1 H2] _ IH]; [done | ].
  cbn [map concat]. unfold code_lettre at 1. by rewrite H1, H2.
Qed.

End Tokens.

Lemma fragment_spaces_not_alpha : @spaces_not_alpha Fragment.interp.
Proof.
  intros c Hc. cbn [isalpha Fragment.interp].
  destruct (Fragment.alpha c) eqn:Ea; [ | done]. exfalso.
  unfold isspace in Hc. unfold Fragment.alpha, Fragment.between in Ea.
  rewrite ?orb_true_iff, ?andb_true_iff, ?Z.leb_le, ?Z.eqb_eq in Hc, Ea. lia.
Qed.

Lemma decoder_token_by_token_witness :
  @decoder_sequence_hebreu Fragment.interp sequence_exemple = Ok [87; 90; 0x5DC].
Proof.
  destruct (@decoder_token_by_token Fragment.interp sequence_exemple) as [E _].
  - intros t Ht Hd.
    replace (split dot sequence_exemple)
      with [[50; 51]; [50; 54]; [48]; [50; 55]; []; [49; 50]; [97; 98]] in Ht
      by (vm_compute; reflexivity).
    table_cases Ht; subst t; try discriminate Hd; eexists; vm_compute; reflexivity.
  - rewrite E. vm_compute. reflexivity.
Defined.

Lemma encoder_letter_by_letter_witness :
  @encoder_mot_hebreu Fragment.interp mot_exemple
  = Ok [49; 46; 50; 46; 49; 46; 49; 51; 55].
Proof.
  destruct (@encoder_letter_by_letter Fragment.interp mot_exemple
              fragment_spaces_not_alpha) as [E _].
  - intros c Hc _ _. unfold mot_exemple in Hc.
    table_cases Hc; subst c; eexists; vm_compute; reflexivity.
  - rewrite E. vm_compute. reflexivity.
Defined.

(** * Further properties *)

(** ** The number analysis *)

Lemma factorize_ok n :
  2 <= n ->
  exists l,
    (forall fuel, (Z.to_nat n <= fuel)%nat -> factorize fuel n = Ok l)
    /\ Forall prime l /\ StronglySorted Z.le l /\ product l = n.
Proof.
  intros Hn.
  destruct (factorize_outer_spec (Z.to_nat n) (Z.to_nat n) 2 n []
              ltac:(lia) ltac:(lia) ltac:(intros k Hk; lia) ltac:(lia) ltac:(lia))
    as (n' & fs & F1 & F2 & F3 & F4 & F5 & F6 & F7).
  cbn [app] in F1.
  assert (E : exists l, factorize (Z.to_nat n) n = Ok l
                        /\ Forall prime l /\ StronglySorted Z.le l /\ product l = n).
  { unfold factorize. destruct (Z.ltb_spec n 2); [lia | ].
    rewrite F1. cbn [bind fst snd].
    destruct (Z.ltb_spec 1 n') as [H1 | H1].
    - destruct (F7 H1) as (G1 & G2 & G3).
      eexists. split; [reflexivity | ]. split_and!.
      + apply Forall_app. split; [done | by constructor].
      + clear -F5 G3. induction F5 as [|p fs Hs IH Hp]; cbn [app].
        * repeat constructor.
        * apply Forall_cons in G3 as [Gp G3].
          constructor; [by apply IH | ].
          apply Forall_app. split; [done | by constructor].
      + rewrite product_app. unfold product at 2. cbn [foldr]. lia.
    - eexists. split; [reflexivity | ]. split_and!; [done | done | ].
      assert (n' = 1) by lia. subst n'. lia. }
  destruct E as (l & E1 & E2 & E3 & E4).
  exists l. split_and!; try done.
  intros fuel Hf. by apply factorize_mono with (Z.to_nat n).
Qed.

Lemma factorize_small fuel n : n < 2 -> factorize fuel n = Ok [n].
Proof. intros Hn. unfold factorize. by destruct (Z.ltb_spec n 2); [ | lia]. Qed.

Lemma is_prime_small n : n < 2 -> is_prime n = Ok false.
Proof. intros Hn. unfold is_prime. by destruct (Z.ltb_spec n 2); [ | lia]. Qed.

Lemma is_prime_ok n :
  2 <= n < 2 ^ 52 ->
  exists b, is_prime n = Ok b /\ (b = true <-> prime n).
Proof.
  intros Hn. unfold is_prime. destruct (Z.ltb_spec n 2); [lia | ].
  pose proof (int_math_sqrt_exact n ltac:(lia)) as E.
  destruct (math_sqrt n) as [r | e | ]; cbn [bind] in E |- *; try discriminate.
  rewrite E. cbn [bind]. eexists. split; [reflexivity | ].
  rewrite is_prime_boucle_range. symmetry. apply prime_iff_no_divisor_to_sqrt. lia.
Qed.

Lemma prime_at_least_2 p : prime p -> 2 <= p.
Proof. intros [H _]%prime_alt. lia. Qed.

Lemma product_primes_pos (l : list Z) : Forall prime l -> 0 < product l.
Proof.
  induction 1 as [|x l Hx _ IH]; [unfold product; cbn; lia | ].
  unfold product. cbn [foldr]. fold (product l).
  pose proof (prime_at_least_2 x Hx). nia.
Qed.

(** A list of primes whose product is a prime holds that prime alone. *)
Lemma prime_product_singleton (l : list Z) n :
  prime n -> Forall prime l -> product l = n -> l = [n].
Proof.
  intros Hn Hl Hp. pose proof (prime_at_least_2 n Hn) as Hn2.
  destruct l as [|p l].
  - unfold product in Hp. cbn in Hp. lia.
  - apply Forall_cons in Hl as [Hpp Hl].
    unfold product in Hp. cbn [foldr] in Hp. fold (product l) in Hp.
    pose proof (prime_at_least_2 p Hpp) as Hp2.
    pose proof (product_primes_pos l Hl) as Hpos.
    assert (Hdiv : (p | n)) by (exists (product l); lia).
    destruct (Z.eq_dec p n) as [-> | Hne].
    + assert (Hl1 : product l = 1) by nia.
      destruct l as [|q l]; [done | ].
      apply Forall_cons in Hl as [Hq Hl]. pose proof (prime_at_least_2 q Hq).
      pose proof (product_primes_pos l Hl).
      unfold product in Hl1. cbn [foldr] in Hl1. fold (product l) in Hl1. nia.
    + exfalso. apply prime_alt in Hn as [_ Hn]. apply (Hn p); [ | done].
      assert (p <= n) by (apply Z.divide_pos_le; [lia | done]). lia.
Qed.

Section NumberAnalysis.
Context `{I : Interp}.

Lemma py_int_chiffre c :
  ascii_digits -> chiffre c -> py_int [c] = Ok (c - 48).
Proof.
  intros HA Hc. unfold chiffre in Hc.
  destruct (HA (c - 48) ltac:(lia)) as [_ E].
  replace (48 + (c - 48)) with c in E by lia.
  unfold py_int. cbn [decimals]. rewrite E.
  unfold too_many_digits, MAX_STR_DIGITS_THRESHOLD. cbn [length].
  replace (640 <? Z.of_nat 1) with false by reflexivity.
  cbn [andb of_digits fold_left]. f_equal; lia.
Qed.

Lemma sum_digits_chiffres (s : str) :
  ascii_digits -> Forall chiffre s ->
  exists v, sum_digits s = Ok v /\ 0 <= v <= 9 * Z.of_nat (length s).
Proof.
  intros HA. induction 1 as [|c s Hc _ (v & E & Hv)].
  - exists 0. split; [done | cbn; lia].
  - exists (c - 48 + v). cbn [sum_digits]. rewrite (py_int_chiffre c HA Hc), E.
    cbn [bind]. split; [done | ]. unfold chiffre in Hc. cbn [length]. lia.
Qed.

End NumberAnalysis.

(** The square root of an int from 0 to below 2^53 is computed. *)
Lemma math_sqrt_ok n : 0 <= n < 2 ^ 53 -> exists x, math_sqrt n = Ok x.
Proof.
  intros Hn. destruct (Z.eq_dec n 0) as [-> | Hn0].
  - eexists. vm_compute. reflexivity.
  - pose proof (Z.log2_spec n ltac:(lia)) as Hlog.
    pose proof (Z.log2_nonneg n) as Hlog0.
    assert (Hlog53 : Z.log2 n < 53) by (apply Z.log2_lt_pow2; lia).
    unfold Z.succ in Hlog.
    unfold math_sqrt.
    rewrite (float_of_int_exact n (Z.log2 n + 1)); [ | lia | ].
    + cbn [bind]. eauto.
    + by replace (Z.log2 n + 1 - 1) with (Z.log2 n) by lia.
Qed.

Lemma py_str_negative n : n < 0 -> exists s, py_str n = minus :: s.
Proof.
  intros Hn. destruct n as [|p|p]; [lia | lia | ].
  unfold py_str. cbn [Z.to_int DecimalString.NilZero.string_of_int
                        String.list_ascii_of_string map].
  eexists. f_equal.
Qed.

Lemma py_str_nonneg_not_empty n : 0 <= n -> py_str n <> [].
Proof.
  intros Hn. destruct n as [|p|p]; [done | | lia].
  unfold py_str. cbn [Z.to_int DecimalString.NilZero.string_of_int].
  unfold DecimalString.NilZero.string_of_uint.
  by destruct (Pos.to_uint p).
Qed.

Section NumberAnalysisTheorems.
Context `{I : Interp}.

(** On every negative number [analyser_nombre] raises [ValueError]: the
    digit sum applies [int] to the minus sign of the decimal string. The
    branch that stores NaN as the square root of a negative number is
    therefore never the one that ends the analysis. *)
Theorem analyser_nombre_negative_raises (fuel : nat) (n : Z) :
  decimal minus = None -> n < 0 ->
  analyser_nombre fuel n = Raise ValueError.
Proof.
  intros Hm Hn. unfold analyser_nombre.
  rewrite (factorize_small fuel n) by lia. cbn [bind].
  rewrite (is_prime_small n) by lia. cbn [bind].
  destruct (py_str_negative n Hn) as [s ->].
  cbn [sum_digits py_int decimals]. by rewrite Hm.
Qed.


End NumberAnalysisTheorems.

(** For the numbers from 2 to below 2^52 the two tests of primality of
    the file agree: [is_prime] answers true exactly when [factorize]
    returns the number alone. *)
Theorem is_prime_iff_factorize_singleton (n : Z) :
  2 <= n < 2 ^ 52 ->
  (is_prime n = Ok true <-> factorize (Z.to_nat n) n = Ok [n]).
Proof.
  intros Hn.
  destruct (factorize_ok n ltac:(lia)) as (l & El & Hl1 & Hl2 & Hl3).
  destruct (is_prime_ok n Hn) as (b & Eb & Hb).
  rewrite Eb, (El (Z.to_nat n) ltac:(lia)). split.
  - intros [= ->]. f_equal. apply prime_product_singleton; [by apply Hb | done | done].
  - intros [= ->]. f_equal. apply Hb. by apply Forall_cons in Hl1 as [? _].
Qed.

Lemma analyser_nombre_negative_raises_witness :
  @analyser_nombre Fragment.interp 0 (-5) = Raise ValueError.
Proof.
  apply (@analyser_nombre_negative_raises Fragment.interp 0 (-5)); [reflexivity | lia].
Defined.


Lemma is_prime_iff_factorize_singleton_witness :
  is_prime 53 = Ok true <-> factorize (Z.to_nat 53) 53 = Ok [53].
Proof. apply (is_prime_iff_factorize_singleton 53). lia. Defined.

(** ** Letters counted and letters summed *)

Lemma compter_lettres_valeur (mot : str) :
  0 <= compter_lettres_hebreu mot <= Z.of_nat (length mot)
  /\ compter_lettres_hebreu mot <= mot_vers_nombre mot
     <= 22 * compter_lettres_hebreu mot.
Proof.
  rewrite mot_vers_nombre_sum. unfold compter_lettres_hebreu, sum_list.
  induction mot as [|c mot IH]; cbn [List.filter map foldr length].
  - cbn. lia.
  - unfold contribution at 1 3.
    destruct (ALPHABET_HEBREU !! c) as [v|] eqn:E.
    + rewrite (proj2 (est_hebreu_true c)) by (rewrite E; eauto).
      apply alphabet_hebreu_range in E as [Hv _].
      cbn [length default from_option id]. lia.
    + rewrite (proj2 (est_hebreu_false c) E).
      cbn [default from_option id]. lia.
Qed.

(** The count of Hebrew letters of a word (taken without stripping) is at
    most the length of the word; the gematria value lies between one and
    twenty-two times that count, and is 0 exactly when the word holds no
    Hebrew letter. *)
Theorem compter_lettres_bounds (mot : str) :
  0 <= compter_lettres_hebreu mot <= Z.of_nat (length mot)
  /\ compter_lettres_hebreu mot <= mot_vers_nombre mot
     <= 22 * compter_lettres_hebreu mot
  /\ (mot_vers_nombre mot = 0 <-> compter_lettres_hebreu mot = 0).
Proof.
  destruct (compter_lettres_valeur mot) as [H1 H2].
  split; [done | split; [done | lia]].
Qed.

(** ** What the decoder and the encoder can return *)

Lemma lettre_decodee_sortie v :
  Forall lettre_de_sortie (lettre_decodee v) /\ (length (lettre_decodee v) <= 1)%nat.
Proof.
  unfold lettre_decodee.
  destruct ((1 <=? v) && (v <=? 22)) eqn:E1.
  - apply andb_true_iff in E1 as [?%Z.leb_le ?%Z.leb_le].
    destruct (alphabet_inverse_total v ltac:(lia)) as (l & El & _).
    rewrite El. cbn [default from_option id length]. split; [ | lia].
    constructor; [ | constructor]. left.
    destruct (alphabet_inverse_non_final v l El) as (_ & ? & ?). split; [eauto | done].
  - destruct ((23 <=? v) && (v <=? 26)) eqn:E2; cbn [length]; [ | split; [constructor | lia]].
    apply andb_true_iff in E2 as [?%Z.leb_le ?%Z.leb_le].
    split; [ | lia]. constructor; [ | constructor]. right. unfold ord_A. lia.
Qed.

Section Outcomes.
Context `{I : Interp}.

Lemma py_int_cases (t : str) :
  (exists v, py_int t = Ok v) \/ py_int t = Raise ValueError.
Proof.
  unfold py_int. destruct t as [|c t]; [by right | ].
  destruct (decimals (c :: t)); [ | by right].
  destruct (too_many_digits (c :: t)); [by right | left; eauto].
Qed.

Lemma decode_token_sortie (t : str) :
  Forall lettre_de_sortie (decode_token t) /\ (length (decode_token t) <= 1)%nat.
Proof.
  unfold decode_token. destruct (str_isdigit t); [ | split; [constructor | cbn; lia]].
  destruct (py_int t) as [v| |]; [apply lettre_decodee_sortie | ..];
    (split; [constructor | cbn; lia]).
Qed.

(** A token that is not [illisible] leaves the loop running. *)
Lemma decoder_boucle_step (t : str) (tokens : list str) (acc : list str) :
  ~ illisible t ->
  exists acc', decoder_boucle (t :: tokens) acc = decoder_boucle tokens acc'.
Proof.
  intros Ht. cbn [decoder_boucle].
  destruct (str_isdigit t) eqn:Ed; [ | eauto].
  destruct (py_int_cases t) as [[v Ev] | Ev]; [ | by destruct Ht].
  rewrite Ev. cbn [bind].
  destruct ((1 <=? v) && (v <=? 22)) eqn:E1.
  - apply andb_true_iff in E1 as [?%Z.leb_le ?%Z.leb_le].
    destruct (alphabet_inverse_total v ltac:(lia)) as (l & El & _).
    rewrite El. eauto.
  - destruct ((1 <=? v) && (v <=? 26)) eqn:E2; [ | eauto].
    apply andb_true_iff in E2 as [?%Z.leb_le ?%Z.leb_le].
    unfold chr, ord_A.
    replace ((0 <=? v + 65 - 1) && (v + 65 - 1 <=? 1114111)) with true
      by (symmetry; apply andb_true_iff; split; apply Z.leb_le; lia).
    cbn [bind]. eauto.
Qed.

Lemma illisible_dec (t : str) : illisible t \/ ~ illisible t.
Proof.
  unfold illisible. destruct (str_isdigit t); [ | right; intros [? _]; done].
  destruct (py_int_cases t) as [[v Ev] | Ev]; [right | by left].
  intros [_ E]. congruence.
Qed.

Lemma decoder_boucle_illisible (tokens : list str) (acc : list str) :
  Exists illisible tokens -> decoder_boucle tokens acc = Raise ValueError.
Proof.
  intros H. revert acc. induction tokens as [|t tokens IH]; intros acc.
  - by apply Exists_nil in H.
  - destruct (illisible_dec t) as [[Ed Ev] | Hn].
    + cbn [decoder_boucle]. by rewrite Ed, Ev.
    + destruct (decoder_boucle_step t tokens acc Hn) as [acc' ->].
      apply IH. apply Exists_cons in H as [? | ?]; done.
Qed.

Lemma readable_or_illisible (tokens : list str) :
  (forall t, t ∈ tokens -> str_isdigit t = true -> exists v, py_int t = Ok v)
  \/ Exists illisible tokens.
Proof.
  induction tokens as [|t tokens [IH | IH]].
  - left. intros t Ht. by apply elem_of_nil in Ht.
  - destruct (illisible_dec t) as [Hi | Hn].
    + right. by left.
    + left. intros t' Ht' Ed. apply elem_of_cons in Ht' as [E | Ht']; [ | by apply IH].
      subst t'. destruct (py_int_cases t) as [? | Ev]; [done | ].
      by destruct Hn.
  - right. by right.
Qed.

(** The only exception the decoder raises is [ValueError], and it raises
    it exactly when some token passes [isdigit] and is rejected by [int].
    A decoded word is made of non-final Hebrew letters and of the Latin
    capitals W, X, Y, Z, and holds at most one letter per token. *)
Theorem decoder_outcomes (sequence : str) :
  (forall e, decoder_sequence_hebreu sequence = Raise e -> e = ValueError)
  /\ (decoder_sequence_hebreu sequence = Raise ValueError
      <-> Exists illisible (split dot sequence))
  /\ (forall r, decoder_sequence_hebreu sequence = Ok r ->
        Forall lettre_de_sortie r
        /\ (length r <= length (split dot sequence))%nat).
Proof.
  unfold decoder_sequence_hebreu.
  destruct (readable_or_illisible (split dot sequence)) as [H | H].
  - destruct (decoder_boucle_tokens (split dot sequence) [] H) as (letters & E & EC).
    rewrite E. cbn [bind app]. rewrite join_empty_concat, EC.
    split; [done | split].
    + split; [done | ]. intros Hex. apply Exists_exists in Hex as (t & Ht & Ed & Ev).
      exfalso. destruct (H t Ht Ed) as [v Hv]. congruence.
    + intros r [= <-]. clear. induction (split dot sequence) as [|t l [IH1 IH2]].
      * split; [constructor | done].
      * cbn [map concat length]. destruct (decode_token_sortie t) as [H1 H2].
        split; [by apply Forall_app | rewrite length_app; lia].
  - rewrite (decoder_boucle_illisible _ [] H). cbn [bind].
    split; [by intros e [= <-] | split; done].
Qed.

Lemma single_upper_or_sans_majuscule (w : str) :
  single_upper w \/ Exists sans_majuscule w.
Proof.
  induction w as [|c w [IH | IH]].
  - left. intros c Hc. by apply elem_of_nil in Hc.
  - destruct (ALPHABET_HEBREU !! c) as [v|] eqn:Ec.
    + left. intros x Hx. apply elem_of_cons in Hx as [E | Hx]; [ | by apply IH].
      subst x. congruence.
    + destruct (isalpha c) eqn:Ea.
      * destruct (upper c) as [|u [|u' us]] eqn:Eu.
        -- right. left. split; [done | split; [done | ]]. intros x. by rewrite Eu.
        -- left. intros x Hx. apply elem_of_cons in Hx as [E | Hx]; [ | by apply IH].
           subst x. eauto.
        -- right. left. split; [done | split; [done | ]]. intros x. by rewrite Eu.
      * left. intros x Hx. apply elem_of_cons in Hx as [E | Hx]; [ | by apply IH].
        subst x. congruence.
  - right. by right.
Qed.

Lemma encoder_boucle_sans_majuscule (w : str) (acc : list str) :
  Exists sans_majuscule w -> encoder_boucle w acc = Raise TypeError.
Proof.
  intros H. revert acc. induction w as [|c w IH]; intros acc.
  - by apply Exists_nil in H.
  - cbn [encoder_boucle].
    destruct (ALPHABET_HEBREU !! c) as [v|] eqn:Ec.
    + apply IH. apply Exists_cons in H as [(? & _) | ?]; [congruence | done].
    + destruct (isalpha c) eqn:Ea.
      * destruct (upper c) as [|u [|u' us]] eqn:Eu; [done | | done].
        cbn [ord bind]. apply IH.
        apply Exists_cons in H as [(_ & _ & Hu) | ?]; [ | done].
        by destruct (Hu u).
      * apply IH. apply Exists_cons in H as [(_ & ? & _) | ?]; [congruence | done].
Qed.

End Outcomes.

Lemma py_str_caracteres v : Forall caractere_de_sequence (py_str v).
Proof.
  destruct (Z.lt_ge_cases v 0) as [Hv | Hv].
  - destruct v as [|p|p]; [lia | lia | ].
    unfold py_str. cbn [Z.to_int DecimalString.NilZero.string_of_int
                          String.list_ascii_of_string map].
    constructor; [right; right; reflexivity | ].
    pose proof (py_str_nonneg_chiffres (Z.pos p) ltac:(lia)) as H.
    unfold py_str in H. cbn [Z.to_int DecimalString.NilZero.string_of_int] in H.
    eapply Forall_impl; [exact H | ]. intros c Hc. by left.
  - eapply Forall_impl; [exact (py_str_nonneg_chiffres v Hv) | ].
    intros c Hc. by left.
Qed.

Lemma join_dot_caracteres (tokens : list str) :
  Forall (Forall caractere_de_sequence) tokens ->
  Forall caractere_de_sequence (join [dot] tokens).
Proof.
  induction tokens as [|t [|t' tokens] IH]; intros H; [constructor | | ].
  - cbn [join]. by apply Forall_cons in H as [? _].
  - apply Forall_cons in H as [Ht H].
    change (join [dot] (t :: t' :: tokens)) with (t ++ [dot] ++ join [dot] (t' :: tokens)).
    apply Forall_app. split; [done | ]. apply Forall_app. split; [ | by apply IH].
    constructor; [right; by left | constructor].
Qed.

Section Outcomes2.
Context `{I : Interp}.

(** The only exception the encoder raises is [TypeError], and it raises
    it exactly when the stripped word holds a letter outside the Hebrew
    table whose upper case is not one character. An encoded sequence is
    made of digits, dots and minus signs. *)
Theorem encoder_outcomes (mot : str) :
  (forall e, encoder_mot_hebreu mot = Raise e -> e = TypeError)
  /\ (encoder_mot_hebreu mot = Raise TypeError
      <-> Exists sans_majuscule (strip mot))
  /\ (forall s, encoder_mot_hebreu mot = Ok s -> Forall caractere_de_sequence s).
Proof.
  unfold encoder_mot_hebreu.
  destruct (single_upper_or_sans_majuscule (strip mot)) as [H | H].
  - rewrite (encoder_boucle_values (strip mot) [] H). cbn [bind app].
    split; [done | split].
    + split; [done | ]. intros Hex. exfalso.
      apply Exists_exists in Hex as (c & Hc & H1 & H2 & H3).
      destruct (H c Hc H1 H2) as [u Hu]. by destruct (H3 u).
    + intros s [= <-]. apply join_dot_caracteres.
      rewrite Forall_map. apply Forall_true. intros v. apply py_str_caracteres.
  - rewrite (encoder_boucle_sans_majuscule _ [] H). cbn [bind].
    split; [by intros e [= <-] | split; done].
Qed.

End Outcomes2.

(** ** [int(str(n))] *)

Lemma code_points_valeurs (d : Decimal.uint) :
  code_points (DecimalString.NilEmpty.string_of_uint d)
  = map (fun k => 48 + k) (valeurs d).
Proof.
  unfold code_points.
  induction d as [|d IH|d IH|d IH|d IH|d IH|d IH|d IH|d IH|d IH|d IH];
    cbn [DecimalString.NilEmpty.string_of_uint String.list_ascii_of_string map valeurs];
    [done | by rewrite IH ..].
Qed.

Lemma valeurs_range (d : Decimal.uint) : Forall (fun k => 0 <= k <= 9) (valeurs d).
Proof.
  induction d; cbn [valeurs]; constructor; (lia || done).
Qed.

Lemma valeurs_length (d : Decimal.uint) : length (valeurs d) = Decimal.nb_digits d.
Proof. induction d; cbn [valeurs Decimal.nb_digits length]; congruence. Qed.

Lemma of_uint_acc_fold (d : Decimal.uint) (acc : positive) :
  Z.pos (Pos.of_uint_acc d acc)
  = fold_left (fun a k => 10 * a + k) (valeurs d) (Z.pos acc).
Proof.
  revert acc. induction d; intros acc; cbn [Pos.of_uint_acc valeurs fold_left];
    [done | rewrite IHd; f_equal; lia ..].
Qed.

Lemma of_uint_fold (d : Decimal.uint) :
  Z.of_N (Pos.of_uint d) = fold_left (fun a k => 10 * a + k) (valeurs d) 0.
Proof.
  induction d; cbn [Pos.of_uint valeurs fold_left]; [done | done | ..];
    cbn [Z.of_N]; rewrite of_uint_acc_fold; f_equal.
Qed.

Lemma nb_digits_double (d : Decimal.uint) :
  (Decimal.nb_digits (Decimal.Little.double d) <= S (Decimal.nb_digits d))%nat
  /\ (Decimal.nb_digits (Decimal.Little.succ_double d) <= S (Decimal.nb_digits d))%nat.
Proof.
  induction d as [|d [IH1 IH2]|d [IH1 IH2]|d [IH1 IH2]|d [IH1 IH2]|d [IH1 IH2]
                   |d [IH1 IH2]|d [IH1 IH2]|d [IH1 IH2]|d [IH1 IH2]|d [IH1 IH2]];
    cbn [Decimal.Little.double Decimal.Little.succ_double Decimal.nb_digits]; lia.
Qed.

Lemma nb_digits_to_little_uint (p : positive) :
  (Decimal.nb_digits (Pos.to_little_uint p) <= Pos.to_nat (Pos.size p))%nat.
Proof.
  induction p as [p IH | p IH | ]; cbn [Pos.to_little_uint Pos.size].
  - pose proof (nb_digits_double (Pos.to_little_uint p)) as [_ H]. lia.
  - pose proof (nb_digits_double (Pos.to_little_uint p)) as [H _]. lia.
  - cbn. lia.
Qed.

Lemma pos_size_bound (p : positive) k :
  0 <= k -> Z.pos p < 2 ^ k -> Z.pos (Pos.size p) <= k.
Proof.
  intros Hk Hp. pose proof (Pos.size_le p) as H.
  assert (H' : 2 ^ Z.pos (Pos.size p) <= 2 * Z.pos p).
  { apply Pos2Z.pos_le_pos in H. rewrite Pos2Z.inj_pow in H. cbn in H |- *. lia. }
  destruct (Z.le_gt_cases (Z.pos (Pos.size p)) k) as [|Hgt]; [done | ].
  assert (2 ^ (k + 1) <= 2 ^ Z.pos (Pos.size p)) by (apply Z.pow_le_mono_r; lia).
  rewrite Z.pow_add_r in * by lia. lia.
Qed.

(** The decimal string of a positive number: its digits, no more of them
    than it has bits. *)
Lemma py_str_pos (p : positive) :
  py_str (Z.pos p) = map (fun k => 48 + k) (valeurs (Pos.to_uint p))
  /\ (length (py_str (Z.pos p)) <= Pos.to_nat (Pos.size p))%nat.
Proof.
  assert (E : py_str (Z.pos p) = map (fun k => 48 + k) (valeurs (Pos.to_uint p))).
  { unfold py_str. cbn [Z.to_int DecimalString.NilZero.string_of_int].
    unfold DecimalString.NilZero.string_of_uint.
    pose proof (DecimalPos.Unsigned.to_uint_nonnil p) as Hnn.
    rewrite <- code_points_valeurs. unfold code_points.
    by destruct (Pos.to_uint p). }
  split; [done | ].
  rewrite E, length_map, valeurs_length. unfold Pos.to_uint.
  rewrite DecimalFacts.nb_digits_rev. apply nb_digits_to_little_uint.
Qed.

Section IntStr.
Context `{I : Interp}.

Lemma decimals_ascii (ks : list Z) :
  ascii_digits -> Forall (fun k => 0 <= k <= 9) ks ->
  decimals (map (fun k => 48 + k) ks) = Some ks
  /\ forallb isdigit (map (fun k => 48 + k) ks) = true.
Proof.
  intros HA. induction 1 as [|k ks Hk _ [IH1 IH2]]; [done | ].
  destruct (HA k Hk) as [E1 E2].
  cbn [map decimals forallb]. by rewrite E1, E2, IH1, IH2.
Qed.

(** Reading back the decimal string of a number from 0 to below 2^640
    gives the number; the string passes [isdigit] and holds no dot. *)
Lemma py_int_py_str v :
  ascii_digits -> 0 <= v < 2 ^ 640 ->
  str_isdigit (py_str v) = true /\ py_int (py_str v) = Ok v /\ dot ∉ py_str v.
Proof.
  intros HA Hv.
  assert (Hdot : dot ∉ py_str v).
  { intros Hin. pose proof (py_str_nonneg_chiffres v ltac:(lia)) as H.
    rewrite Forall_forall in H. specialize (H dot Hin). unfold chiffre, dot in H. lia. }
  destruct v as [|p|p]; [ | | lia].
  - destruct (token_two_digits 0 HA ltac:(lia)) as (? & ? & ?). done.
  - destruct (py_str_pos p) as [E Hlen].
    destruct (decimals_ascii (valeurs (Pos.to_uint p)) HA (valeurs_range _)) as [Ed Ei].
    pose proof (pos_size_bound p 640 ltac:(lia) ltac:(lia)) as Hs.
    pose proof (py_str_nonneg_not_empty (Z.pos p) ltac:(lia)) as Hne.
    assert (Hd : str_isdigit (py_str (Z.pos p)) = forallb isdigit (py_str (Z.pos p)))
      by (unfold str_isdigit; by destruct (py_str (Z.pos p))).
    assert (Hi : py_int (py_str (Z.pos p))
                 = match decimals (py_str (Z.pos p)) with
                   | Some ds => if too_many_digits (py_str (Z.pos p))
                                then Raise ValueError else Ok (of_digits ds)
                   | None => Raise ValueError
                   end)
      by (unfold py_int; by destruct (py_str (Z.pos p))).
    assert (Ht : too_many_digits (py_str (Z.pos p)) = false).
    { unfold too_many_digits, MAX_STR_DIGITS_THRESHOLD.
      replace (640 <? Z.of_nat (length (py_str (Z.pos p)))) with false
        by (symmetry; apply Z.ltb_ge; lia).
      done. }
    rewrite Hd, Hi, Ht. rewrite E, Ed, Ei.
    split; [done | split; [ | by rewrite <- E]].
    f_equal. unfold of_digits.
    rewrite <- of_uint_fold, DecimalPos.Unsigned.of_to. done.
Qed.

End IntStr.

(** ** Encoding then decoding, decoding then encoding *)

Lemma concat_map_concat {A B} (f : A -> list B) (ll : list (list A)) :
  concat (map f (concat ll)) = concat (map (fun l => concat (map f l)) ll).
Proof.
  induction ll as [|l ll IH]; [done | ].
  cbn [concat map]. by rewrite map_app, concat_app, IH.
Qed.

Lemma elem_of_map {A B} (f : A -> B) (l : list A) (y : B) :
  y ∈ map f l <-> exists x, y = f x /\ x ∈ l.
Proof.
  rewrite list_elem_of_In, in_map_iff. split; intros (x & H1 & H2); exists x.
  - by rewrite list_elem_of_In.
  - by rewrite <- list_elem_of_In.
Qed.

Lemma elem_of_concat {A} (x : A) (ll : list (list A)) :
  x ∈ concat ll <-> exists l, x ∈ l /\ l ∈ ll.
Proof.
  rewrite list_elem_of_In, in_concat. split; intros (l & H1 & H2); exists l.
  - by rewrite !list_elem_of_In.
  - by rewrite <- !list_elem_of_In.
Qed.

Lemma sortie_not_blank c : lettre_de_sortie c -> isspace c = false.
Proof.
  intros [[H _] | H]; [by apply hebreu_not_blank | ].
  unfold isspace.
  repeat match goal with
         | |- context [?a <=? ?b] => destruct (Z.leb_spec a b); try lia
         | |- context [?a =? ?b] => destruct (Z.eqb_spec a b); try lia
         end; reflexivity.
Qed.

Lemma wz_not_hebreu c : 87 <= c <= 90 -> ALPHABET_HEBREU !! c = None.
Proof.
  intros Hc. destruct (ALPHABET_HEBREU !! c) as [v|] eqn:E; [ | done].
  apply alphabet_hebreu_elem in E. unfold alphabet_hebreu_items in E.
  table_cases E; injection E as -> ->; lia.
Qed.

Section Composition.
Context `{I : Interp}.

Lemma encoder_mot_hebreu_values (mot : str) :
  spaces_not_alpha -> single_upper mot ->
  encoder_mot_hebreu mot
  = Ok (join [dot] (map py_str (concat (map code_lettre mot)))).
Proof.
  intros HS HU. unfold encoder_mot_hebreu.
  destruct (strip_decomp mot) as (pre & post & Emot & B1 & B2).
  rewrite encoder_boucle_values.
  - cbn [bind app]. do 3 f_equal. rewrite Emot at 2.
    rewrite !map_app, !concat_app.
    rewrite (code_lettre_blanks pre HS B1), (code_lettre_blanks post HS B2).
    by rewrite app_nil_r.
  - intros c Hc. apply HU. rewrite Emot.
    apply elem_of_app. right. apply elem_of_app. by left.
Qed.

Lemma decode_token_py_str v :
  ascii_digits -> 0 <= v < 2 ^ 640 -> decode_token (py_str v) = lettre_decodee v.
Proof.
  intros HA Hv. destruct (py_int_py_str v HA Hv) as (E1 & E2 & _).
  unfold decode_token. by rewrite E1, E2.
Qed.

(** The decoder on the sequence joined from a list of values. *)
Lemma decoder_join_values (vs : list Z) :
  ascii_digits -> Forall (fun v => 0 <= v < 2 ^ 640) vs ->
  decoder_sequence_hebreu (join [dot] (map py_str vs))
  = Ok (concat (map lettre_decodee vs)).
Proof.
  intros HA Hvs. unfold decoder_sequence_hebreu.
  destruct vs as [|v vs]; [done | ].
  rewrite split_join.
  - destruct (decoder_boucle_tokens (map py_str (v :: vs)) []) as (letters & E & EC).
    + intros t Ht _. apply elem_of_map in Ht as (x & -> & Hx).
      rewrite Forall_forall in Hvs.
      destruct (py_int_py_str x HA (Hvs x Hx)) as (_ & ? & _). eauto.
    + rewrite E. cbn [bind app]. rewrite join_empty_concat, EC. f_equal.
      rewrite map_map. f_equal. apply map_ext_Forall.
      eapply Forall_impl; [exact Hvs | ]. intros x Hx. by apply decode_token_py_str.
  - done.
  - rewrite Forall_map. eapply Forall_impl; [exact Hvs | ].
    intros x Hx. cbn beta. by destruct (py_int_py_str x HA Hx) as (_ & _ & ?).
Qed.

(** Encoding a word and decoding the result handles every character on
    its own. A letter of the Hebrew table comes back as its non-final
    form; any other letter comes back as what the decoder makes of its
    value [ord(upper) - ord('A') + 1] - so the Latin letters A to V, in
    either case, come back as the Hebrew letters of value 1 to 22, W to Z
    come back as capitals, and a letter of greater value is lost -; every
    other character is lost. *)
Theorem decode_encode_word (mot : str) :
  ascii_digits -> spaces_not_alpha -> single_upper mot -> codes_bornes mot ->
  (let* s := encoder_mot_hebreu mot in decoder_sequence_hebreu s)
  = Ok (concat (map aller_retour mot))
  /\ (forall c v, ALPHABET_HEBREU !! c = Some v ->
        aller_retour c = [forme_canonique c])
  /\ (forall c u, ALPHABET_HEBREU !! c = None -> isalpha c = true ->
        upper c = [u] -> aller_retour c = lettre_decodee (u - ord_A + 1))
  /\ (forall c, ALPHABET_HEBREU !! c = None -> isalpha c = false ->
        aller_retour c = []).
Proof.
  intros HA HS HU HB. split; [ | split; [ | split]].
  - rewrite (encoder_mot_hebreu_values mot HS HU). cbn [bind].
    rewrite decoder_join_values; [ | done | ].
    + f_equal. unfold aller_retour.
      etransitivity; [apply (concat_map_concat lettre_decodee) | ].
      by rewrite map_map.
    + rewrite Forall_forall. intros v Hv.
      apply elem_of_concat in Hv as (l & Hv & Hl).
      apply elem_of_map in Hl as (c & -> & Hc). by apply (HB c v).
  - intros c v Hc. unfold aller_retour, code_lettre. rewrite Hc.
    cbn [map concat]. rewrite app_nil_r. unfold lettre_decodee.
    pose proof (alphabet_hebreu_range c v Hc) as [Hv _].
    replace ((1 <=? v) && (v <=? 22)) with true
      by (symmetry; apply andb_true_iff; split; apply Z.leb_le; lia).
    by rewrite (alphabet_inverse_canonique c v Hc).
  - intros c u Hc Ha Hu. unfold aller_retour, code_lettre. rewrite Hc, Ha, Hu.
    cbn [map concat]. by rewrite app_nil_r.
  - intros c Hc Ha. unfold aller_retour, code_lettre. by rewrite Hc, Ha.
Qed.

Lemma code_lettre_decodee v :
  capitales_wz ->
  concat (map code_lettre (lettre_decodee v))
  = if (1 <=? v) && (v <=? 26) then [v] else [].
Proof.
  intros HW. unfold lettre_decodee.
  destruct ((1 <=? v) && (v <=? 22)) eqn:E1.
  - apply andb_true_iff in E1 as [?%Z.leb_le ?%Z.leb_le].
    replace ((1 <=? v) && (v <=? 26)) with true
      by (symmetry; apply andb_true_iff; split; apply Z.leb_le; lia).
    destruct (alphabet_inverse_total v ltac:(lia)) as (l & El & Hl).
    rewrite El. cbn [default from_option id map concat].
    unfold code_lettre. by rewrite Hl.
  - destruct ((23 <=? v) && (v <=? 26)) eqn:E2.
    + apply andb_true_iff in E2 as [?%Z.leb_le ?%Z.leb_le].
      replace ((1 <=? v) && (v <=? 26)) with true
        by (symmetry; apply andb_true_iff; split; apply Z.leb_le; lia).
      cbn [map concat]. unfold code_lettre, ord_A.
      rewrite (wz_not_hebreu (v + 65 - 1)) by lia.
      destruct (HW (v + 65 - 1) ltac:(lia)) as [-> ->].
      rewrite app_nil_r. f_equal. lia.
    + replace ((1 <=? v) && (v <=? 26)) with false; [done | ].
      symmetry. apply andb_false_iff.
      apply andb_false_iff in E1 as [?%Z.leb_gt | ?%Z.leb_gt];
        apply andb_false_iff in E2 as [?%Z.leb_gt | ?%Z.leb_gt];
        ((left; apply Z.leb_gt; lia) || (right; apply Z.leb_gt; lia)).
Qed.

Lemma code_lettre_decode_token (t : str) :
  capitales_wz -> concat (map code_lettre (decode_token t)) = valeur_token t.
Proof.
  intros HW. unfold decode_token, valeur_token.
  destruct (str_isdigit t); [ | done].
  destruct (py_int t) as [v| |]; [by apply code_lettre_decodee | done | done].
Qed.

Lemma single_upper_sortie (w : str) :
  capitales_wz -> Forall lettre_de_sortie w -> single_upper w.
Proof.
  intros HW Hw c Hc Hn _. rewrite Forall_forall in Hw.
  destruct (Hw c Hc) as [[[v Hv] _] | Hwz]; [congruence | ].
  destruct (HW c Hwz) as [_ ->]. eauto.
Qed.

(** Decoding a sequence and encoding the result keeps, in order, the
    values from 1 to 26 of the tokens that are numbers, written without
    leading zeros, and drops every other token. *)
Theorem encode_decode_sequence (sequence : str) :
  capitales_wz ->
  (forall t, t ∈ split dot sequence -> str_isdigit t = true ->
             exists v, py_int t = Ok v) ->
  (let* mot := decoder_sequence_hebreu sequence in encoder_mot_hebreu mot)
  = Ok (join [dot] (map py_str (concat (map valeur_token (split dot sequence)))))
  /\ (forall t v, str_isdigit t = true -> py_int t = Ok v -> 1 <= v <= 26 ->
        valeur_token t = [v])
  /\ (forall t v, str_isdigit t = true -> py_int t = Ok v -> v < 1 \/ 26 < v ->
        valeur_token t = [])
  /\ (forall t, str_isdigit t = false -> valeur_token t = []).
Proof.
  intros HW H. split; [ | split; [ | split]].
  - unfold decoder_sequence_hebreu.
    destruct (decoder_boucle_tokens (split dot sequence) [] H) as (letters & E & EC).
    rewrite E. cbn [bind app]. rewrite join_empty_concat, EC.
    set (tokens := split dot sequence).
    assert (Hs : Forall lettre_de_sortie (concat (map decode_token tokens))).
    { induction tokens as [|t l IH]; [constructor | ].
      cbn [map concat]. apply Forall_app. split; [ | done].
      by destruct (decode_token_sortie t). }
    unfold encoder_mot_hebreu.
    rewrite strip_no_blank
      by (eapply Forall_impl; [exact Hs | apply sortie_not_blank]).
    rewrite (encoder_boucle_values _ [] (single_upper_sortie _ HW Hs)).
    cbn [bind app]. do 3 f_equal.
    etransitivity; [apply (concat_map_concat code_lettre) | ].
    rewrite map_map. f_equal.
    apply map_ext. intros t. by apply code_lettre_decode_token.
  - intros t v Hd Hv Hr. unfold valeur_token. rewrite Hd, Hv.
    by replace ((1 <=? v) && (v <=? 26)) with true
      by (symmetry; apply andb_true_iff; split; apply Z.leb_le; lia).
  - intros t v Hd Hv Hr. unfold valeur_token. rewrite Hd, Hv.
    by replace ((1 <=? v) && (v <=? 26)) with false
      by (symmetry; apply andb_false_iff; destruct Hr; [left | right]; apply Z.leb_gt; lia).
  - intros t Hd. unfold valeur_token. by rewrite Hd.
Qed.

End Composition.

Lemma fragment_capitales_wz : @capitales_wz Fragment.interp.
Proof.
  intros c Hc. cbn [isalpha upper Fragment.interp].
  unfold Fragment.alpha, Fragment.upper_case, Fragment.between.
  replace (65 <=? c) with true by lia. replace (c <=? 90) with true by lia.
  replace (97 <=? c) with false by lia.
  replace (c =? 181) with false by lia. replace (c =? 223) with false by lia.
  replace (224 <=? c) with false by lia. replace (248 <=? c) with false by lia.
  replace (c =? 255) with false by lia.
  done.
Qed.

Lemma decode_encode_word_witness :
  (let* s := @encoder_mot_hebreu Fragment.interp mot_exemple in
   @decoder_sequence_hebreu Fragment.interp s) = Ok [0x5D0; 0x5D1; 0x5D0].
Proof.
  destruct (@decode_encode_word Fragment.interp mot_exemple
              fragment_ascii_digits fragment_spaces_not_alpha) as [E _].
  - intros c Hc _ _. unfold mot_exemple in Hc.
    table_cases Hc; subst c; eexists; vm_compute; reflexivity.
  - intros c v Hc Hv. unfold mot_exemple in Hc.
    table_cases Hc; subst c; vm_compute in Hv;
      table_cases Hv; subst v; split; reflexivity || (intros ?; discriminate).
  - rewrite E. vm_compute. reflexivity.
Defined.

Lemma encode_decode_sequence_witness :
  (let* mot := @decoder_sequence_hebreu Fragment.interp sequence_exemple in
   @encoder_mot_hebreu Fragment.interp mot) = Ok [50; 51; 46; 50; 54; 46; 49; 50].
Proof.
  destruct (@encode_decode_sequence Fragment.interp sequence_exemple
              fragment_capitales_wz) as [E _].
  - intros t Ht Hd.
    replace (split dot sequence_exemple)
      with [[50; 51]; [50; 54]; [48]; [50; 55]; []; [49; 50]; [97; 98]] in Ht
      by (vm_compute; reflexivity).
    table_cases Ht; subst t; try discriminate Hd; eexists; vm_compute; reflexivity.
  - rewrite E. vm_compute. reflexivity.
Defined.

(** ** The word analysis as a whole *)

Lemma mot_vers_nombre_strip (mot : str) :
  mot_vers_nombre (strip mot) = mot_vers_nombre mot.
Proof.
  rewrite !mot_vers_nombre_sum.
  destruct (strip_decomp mot) as (pre & post & E & B1 & B2).
  rewrite E at 2. rewrite !sum_contribution_app.
  rewrite (sum_contribution_blanks pre), (sum_contribution_blanks post) by done.
  lia.
Qed.

Lemma mot_vers_nombre_le_length (mot : str) :
  mot_vers_nombre mot <= 22 * Z.of_nat (length mot).
Proof.
  rewrite mot_vers_nombre_sum. unfold sum_list.
  induction mot as [|c mot IH]; cbn [map foldr length]; [lia | ].
  pose proof (contribution_bounds c). lia.
Qed.

Section WordAnalysis.
Context `{I : Interp}.

Lemma lettres_uniques_ok (mot : str) :
  set_iter_spec -> exists r, lettres_uniques_hebreu mot = Ok r.
Proof.
  intros HS. unfold lettres_uniques_hebreu, sorted.
  destruct (HS (List.filter est_hebreu mot)) as [_ Hin].
  rewrite decorate_valeur; [cbn [bind]; eauto | ].
  rewrite Forall_forall. intros c Hc. apply Hin in Hc.
  by apply elem_of_filter_hebreu in Hc as [_ ?].
Qed.

Lemma analyser_nombre_ok (fuel : nat) (n : Z) :
  ascii_digits -> 0 <= n < 2 ^ 52 -> (Z.to_nat n <= fuel)%nat ->
  exists r, analyser_nombre fuel n = Ok r.
Proof.
  intros HA Hn Hf. unfold analyser_nombre.
  destruct (sum_digits_chiffres (py_str n) HA (py_str_nonneg_chiffres n ltac:(lia)))
    as (ds & Eds & _).
  destruct (math_sqrt_ok n) as [x Ex].
  { assert (2 ^ 52 < 2 ^ 53) by (apply Z.pow_lt_mono_r; lia). lia. }
  destruct (Z.leb_spec 0 n); [ | lia].
  destruct (Z.lt_ge_cases n 2) as [Hlt | Hge].
  - rewrite (factorize_small fuel n Hlt), (is_prime_small n Hlt). cbn [bind].
    rewrite Eds, Ex. cbn [bind]. eauto.
  - destruct (factorize_ok n Hge) as (l & El & _).
    destruct (is_prime_ok n ltac:(lia)) as (b & Eb & _).
    rewrite (El fuel Hf), Eb. cbn [bind]. rewrite Eds, Ex. cbn [bind]. eauto.
Qed.

Lemma decoder_codes (mot : str) :
  ascii_digits -> codes_bornes mot ->
  decoder_sequence_hebreu
    (join [dot] (map py_str (concat (map code_lettre mot))))
  = Ok (concat (map aller_retour mot)).
Proof.
  intros HA HB. rewrite decoder_join_values; [ | done | ].
  - f_equal. unfold aller_retour.
    etransitivity; [apply (concat_map_concat lettre_decodee) | ].
    by rewrite map_map.
  - rewrite Forall_forall. intros v Hv.
    apply elem_of_concat in Hv as (l & Hv & Hl).
    apply elem_of_map in Hl as (c & -> & Hc). by apply (HB c v).
Qed.

(** The results of [analyser_mot_hebreu], entry by entry. *)
Lemma analyser_mot_hebreu_ok (fuel : nat) (mot : str) :
  ascii_digits -> spaces_not_alpha -> set_iter_spec ->
  single_upper mot -> codes_bornes mot ->
  Z.of_nat (length mot) < 2 ^ 47 ->
  (Z.to_nat (mot_vers_nombre mot) <= fuel)%nat ->
  exists lu nr,
    lettres_uniques_hebreu mot = Ok lu
    /\ analyser_nombre fuel (mot_vers_nombre mot) = Ok nr
    /\ analyser_mot_hebreu fuel mot
       = Ok {| mot_original := mot;
               longueur_mot := Z.of_nat (length mot);
               sequence_hebreu :=
                 join [dot] (map py_str (concat (map code_lettre mot)));
               valeur_numerique := mot_vers_nombre mot;
               mot_decode := concat (map aller_retour mot);
               est_palindrome := est_palindrome_hebreu mot;
               nombre_lettres := compter_lettres_hebreu mot;
               lettres_uniques := lu;
               gematria := calculer_gematria mot;
               nombre_results := nr |}.
Proof.
  intros HA HS HI HU HB Hlen Hf. unfold analyser_mot_hebreu.
  pose proof (encoder_mot_hebreu_values mot HS HU) as Eenc.
  pose proof (decoder_codes mot HA HB) as Edec.
  destruct (lettres_uniques_ok mot HI) as [lu Elu].
  pose proof (mot_vers_nombre_nonneg mot) as H0.
  pose proof (mot_vers_nombre_le_length mot) as Hle.
  assert (H52 : mot_vers_nombre mot < 2 ^ 52).
  { replace (2 ^ 52) with (32 * 2 ^ 47) by reflexivity. lia. }
  destruct (analyser_nombre_ok fuel (mot_vers_nombre mot) HA ltac:(lia) Hf) as [nr Enr].
  exists lu, nr. split; [done | split; [done | ]].
  rewrite Eenc. cbn [bind]. rewrite Edec. cbn [bind]. rewrite Elu. cbn [bind].
  rewrite Enr. reflexivity.
Qed.


End WordAnalysis.


(** * The display tables *)

(** ** The names of the letters *)

Lemma noms_elem c s : noms !! c = Some s -> (c, s) ∈ noms_items.
Proof. apply elem_of_list_to_map_2. Qed.

Lemma noms_hebreu c s : noms !! c = Some s -> is_Some (ALPHABET_HEBREU !! c).
Proof.
  intros H%noms_elem. unfold noms_items in H.
  table_cases H; injection H as -> _; eexists; vm_compute; reflexivity.
Qed.

Lemma hebreu_noms c v :
  ALPHABET_HEBREU !! c = Some v -> exists s, noms !! c = Some s /\ s <> [63].
Proof.
  intros H%alphabet_hebreu_elem. unfold alphabet_hebreu_items in H.
  table_cases H; injection H as -> _; eexists; (split; [vm_compute; reflexivity | discriminate]).
Qed.

(** [nom_lettre_hebreu] names exactly the letters of [ALPHABET_HEBREU]:
    it answers "?" for every other character and for none of the table;
    a final form has the name of its letter followed by " Sofit"; two
    different characters never have the name of a letter in common. *)
Theorem nom_lettre_hebreu_table (c : Z) :
  (nom_lettre_hebreu c = [63] <-> ALPHABET_HEBREU !! c = None)
  /\ (c ∈ formes_finales ->
      nom_lettre_hebreu c = nom_lettre_hebreu (forme_canonique c) ++ sofit)
  /\ (forall c', nom_lettre_hebreu c' = nom_lettre_hebreu c ->
                 nom_lettre_hebreu c <> [63] -> c' = c).
Proof.
  assert (H1 : nom_lettre_hebreu c = [63] <-> ALPHABET_HEBREU !! c = None).
  { unfold nom_lettre_hebreu. split.
    - intros E. destruct (ALPHABET_HEBREU !! c) as [v|] eqn:Ev; [ | done].
      destruct (hebreu_noms c v Ev) as (s & Es & Hs).
      rewrite Es in E. cbn [default from_option id] in E. contradiction.
    - intros E. destruct (noms !! c) as [s|] eqn:Es; [ | done].
      destruct (noms_hebreu c s Es) as [v Ev]. congruence. }
  split; [exact H1 | split].
  - intros Hc. unfold formes_finales in Hc.
    table_cases Hc; subst c; vm_compute; reflexivity.
  - intros c' E Hc. unfold nom_lettre_hebreu in *.
    destruct (noms !! c) as [s|] eqn:Es; [ | done].
    destruct (noms !! c') as [s'|] eqn:Es'; [ | done].
    cbn [default from_option id] in E. subst s'.
    apply noms_elem in Es, Es'. unfold noms_items in Es, Es'.
    table_cases Es; injection Es as -> ->;
      table_cases Es'; by simplify_eq.
Qed.

(** ** The meanings of the numbers *)

Lemma significations_elem n s :
  significations !! n = Some s -> (n, s) ∈ significations_items.
Proof. apply elem_of_list_to_map_2. Qed.

(** [signification_gematria] gives the general text exactly for the
    numbers outside 1..22, 26, 32, 42 and 72; the text of a number from 1
    to 22 begins with the letter the decoder gives for that number,
    followed by " - ". *)
Theorem signification_gematria_table (n : Z) :
  (signification_gematria n = signification_generale
   <-> ~ (1 <= n <= 22 \/ n ∈ nombres_speciaux))
  /\ (1 <= n <= 22 ->
      exists texte,
        signification_gematria n = lettre_decodee n ++ [32; 45; 32] ++ texte).
Proof.
  unfold signification_gematria. split; [split | ].
  - intros E [Hn | Hn].
    + assert (Hin : n ∈ seqZ 1 22) by (apply elem_of_seqZ; lia).
      vm_compute seqZ in Hin.
      table_cases Hin; subst n; vm_compute in E; discriminate.
    + unfold nombres_speciaux in Hn.
      table_cases Hn; subst n; vm_compute in E; discriminate.
  - intros Hn. destruct (significations !! n) as [s|] eqn:Es; [ | done].
    exfalso. apply Hn. apply significations_elem in Es.
    unfold significations_items, nombres_speciaux in *.
    table_cases Es; injection Es as -> _;
      first [ left; lia | right; repeat constructor ].
  - intros Hn.
    assert (Hin : n ∈ seqZ 1 22) by (apply elem_of_seqZ; lia).
    vm_compute seqZ in Hin.
    table_cases Hin; subst n; eexists; vm_compute; reflexivity.
Qed.

(** ** The table of letters *)

Lemma premiere_cons (c v : Z) (l : list (Z * Z)) (p : Z * Z) :
  premiere_de_sa_valeur ((c, v) :: l) p
  <-> p = (c, v) \/ (p.2 <> v /\ premiere_de_sa_valeur l p).
Proof.
  unfold premiere_de_sa_valeur. split.
  - intros (l1 & l2 & E & Hn). destruct l1 as [|q l1]; cbn in E.
    + injection E as <- _. by left.
    + injection E as <- ->. right. rewrite fmap_cons, not_elem_of_cons in Hn.
      destruct Hn as [Hn1 Hn2]. split; [done | eauto].
  - intros [-> | (Hv & l1 & l2 & -> & Hn)].
    + exists [], l. split; [done | ]. cbn. apply not_elem_of_nil.
    + exists ((c, v) :: l1), l2. split; [done | ].
      rewrite fmap_cons, not_elem_of_cons. done.
Qed.

Lemma alphabet_unique_boucle_spec (l acc : list (Z * Z)) (vues : gset Z) :
  (forall v, v ∈ vues <-> v ∈ (acc.*2)) -> NoDup (acc.*2) ->
  NoDup (alphabet_unique_boucle l acc vues).*2
  /\ forall p, p ∈ alphabet_unique_boucle l acc vues
               <-> p ∈ acc \/ ((p.2 ∉ acc.*2) /\ premiere_de_sa_valeur l p).
Proof.
  revert acc vues. induction l as [|[c v] l IH]; intros acc vues Hv Hnd;
    cbn [alphabet_unique_boucle].
  - split; [done | ]. intros p. split; [by left | ].
    intros [? | [_ (l1 & l2 & E & _)]]; [done | ].
    by destruct l1.
  - destruct (bool_decide_reflect (v ∉ vues)) as [Hn | Hn].
    + assert (Hv' : v ∉ acc.*2) by (by rewrite <- Hv).
      destruct (IH (acc ++ [(c, v)]) (vues ∪ {[v]})) as [IH1 IH2].
      { intros w. rewrite elem_of_union, elem_of_singleton, fmap_app, elem_of_app, Hv.
        cbn. rewrite list_elem_of_singleton. done. }
      { rewrite fmap_app. apply NoDup_app. split; [done | split].
        - intros w Hw Hw'. cbn in Hw'. apply list_elem_of_singleton in Hw'. by subst w.
        - cbn. apply NoDup_singleton. }
      split; [done | ]. intros p. rewrite IH2, premiere_cons.
      rewrite fmap_app, !elem_of_app. cbn. rewrite !list_elem_of_singleton.
      split.
      * intros [[? | ->] | [Hp1 Hp2]]; [by left | right; split; [done | by left] | ].
        right. split; [tauto | ]. right. split; [ | done]. tauto.
      * intros [? | [Hp1 [-> | [Hp2 Hp3]]]]; [tauto | tauto | ].
        right. split; [ | done]. tauto.
    + apply dec_stable in Hn.
      destruct (IH acc vues Hv Hnd) as [IH1 IH2].
      split; [done | ]. intros p. rewrite IH2, premiere_cons.
      apply (proj1 (Hv v)) in Hn.
      split.
      * intros [? | [Hp1 Hp2]]; [by left | ]. right. split; [done | ].
        right. split; [ | done]. intros E. by rewrite E in Hp1.
      * intros [? | [Hp1 [-> | [Hp2 Hp3]]]]; [by left | by cbn in Hp1 | by right].
Qed.

Lemma trier_par_valeur_perm (l : list (Z * Z)) : trier_par_valeur l ≡ₚ l.
Proof.
  unfold trier_par_valeur. rewrite stable_sort_perm, map_map.
  erewrite map_ext; [by rewrite map_id | ]. by intros [].
Qed.

Lemma trier_par_valeur_sorted (l : list (Z * Z)) :
  NoDup (l.*2) -> StronglySorted lt_par_valeur (trier_par_valeur l).
Proof.
  intros Hnd.
  assert (Hnd' : NoDup (trier_par_valeur l).*2)
    by (by rewrite trier_par_valeur_perm).
  revert Hnd'. unfold trier_par_valeur.
  generalize (stable_sort_sorted (map (fun x => (x.2, x.1)) l)).
  generalize (stable_sort (map (fun x => (x.2, x.1)) l)). clear.
  induction 1 as [|p s Hs IH Hp]; cbn [map]; intros Hnd; [constructor | ].
  rewrite fmap_cons in Hnd. apply NoDup_cons in Hnd as [Hn Hnd].
  constructor; [by apply IH | ].
  rewrite Forall_forall in *. intros q Hq.
  apply elem_of_map in Hq as (x & -> & Hx). specialize (Hp x Hx).
  unfold lt_par_valeur, le_key in *. cbn in *.
  destruct (Z.eq_dec p.1 x.1) as [E | E]; [ | lia].
  exfalso. apply Hn. apply list_elem_of_fmap. exists (x.2, x.1). split; [done | ].
  apply elem_of_map. by exists x.
Qed.

(** The rows [afficher_table_hebreu] prints as the basic alphabet are,
    for any table, the first pair of each value in the order of the table,
    by strictly increasing value; for the table of the program, they are
    the letters that are not final forms with their values. *)
Theorem alphabet_unique_first_of_each_value (alphabet : list (Z * Z)) :
  StronglySorted lt_par_valeur (alphabet_unique_de alphabet)
  /\ (forall p, p ∈ alphabet_unique_de alphabet
                <-> premiere_de_sa_valeur alphabet p)
  /\ (forall c v, (c, v) ∈ alphabet_unique
                  <-> ALPHABET_HEBREU !! c = Some v /\ c ∉ formes_finales).
Proof.
  destruct (alphabet_unique_boucle_spec alphabet [] ∅) as [H1 H2].
  { intros v. cbn. rewrite elem_of_empty. split; [done | apply not_elem_of_nil]. }
  { cbn. apply NoDup_nil_2. }
  split; [by apply trier_par_valeur_sorted | split].
  - intros p. unfold alphabet_unique_de.
    rewrite trier_par_valeur_perm, H2. cbn. split.
    + intros [H | [_ H]]; [by apply elem_of_nil in H | done].
    + intros H. right. split; [apply not_elem_of_nil | done].
  - intros c v. split.
    + intros H. vm_compute alphabet_unique in H.
      table_cases H; injection H as -> ->;
        (split; [vm_compute; reflexivity | ]);
        unfold formes_finales; intros Hc; table_cases Hc; discriminate.
    + intros [H Hf]. apply alphabet_hebreu_elem in H.
      unfold alphabet_hebreu_items, formes_finales in *.
      vm_compute alphabet_unique.
      table_cases H; injection H as -> ->;
        first [ solve [repeat constructor]
              | exfalso; apply Hf; solve [repeat constructor] ].
Qed.

(** ** The base conversions *)

Lemma valeur_base_snoc (b : Z) (ds : list Z) (d : Z) :
  valeur_base b (ds ++ [d]) = valeur_base b ds * b + d.
Proof. unfold valeur_base. by rewrite fold_left_app. Qed.

Lemma chiffres_base_ecriture (b : Z) (fuel : nat) (n : Z) :
  2 <= b -> 0 <= n -> (Z.to_nat n < fuel)%nat ->
  ecriture b (chiffres_base fuel b n) n.
Proof.
  intros Hb. revert n. induction fuel as [|fuel IH]; intros n Hn Hf; [lia | ].
  cbn [chiffres_base]. destruct (Z.ltb_spec n b) as [Hlt | Hge].
  - unfold ecriture, valeur_base. cbn [fold_left head].
    split; [lia | split; [ | split]].
    + repeat constructor; lia.
    + discriminate.
    + intros H0 E. injection E as E. lia.
  - assert (Hq : 0 < n / b < n).
    { split; [apply Z.div_str_pos; lia | apply Z.div_lt; lia]. }
    destruct (IH (n / b) ltac:(lia) ltac:(lia)) as (H1 & H2 & H3 & H4).
    unfold ecriture. rewrite valeur_base_snoc, H1.
    split; [ | split; [ | split]].
    + rewrite (Z.div_mod n b) at 3 by lia. lia.
    + apply Forall_app. split; [done | ].
      repeat constructor; apply Z.mod_pos_bound; lia.
    + by destruct (chiffres_base fuel b (n / b)).
    + intros _. destruct (chiffres_base fuel b (n / b)) as [|d ds]; [done | ].
      cbn [app head] in *. apply H4. lia.
Qed.

Lemma ecrire_base_nonneg (lettre b n : Z) :
  0 <= n ->
  drop 2 (ecrire_base lettre b n)
  = map caractere_chiffre (chiffres_base (S (Z.to_nat n)) b n).
Proof.
  intros Hn. unfold ecrire_base.
  destruct (Z.ltb_spec n 0); [lia | ].
  rewrite Z.abs_eq by done. reflexivity.
Qed.

Section BaseConversions.
Context `{I : Interp}.

Lemma str_upper_chiffres (ds : list Z) :
  majuscules_hex -> Forall (fun d => 0 <= d < 16) ds ->
  str_upper (map caractere_chiffre ds) = map chiffre_majuscule ds.
Proof.
  intros HU. unfold str_upper.
  induction 1 as [|d ds Hd _ IH]; cbn [map concat]; [done | ].
  by rewrite (HU d Hd), IH.
Qed.

(** For a number that is not negative, the entries [hexadecimal],
    [binary] and [octal] of [analyser_nombre] are the writings of the
    number in base 16, 2 and 8, without prefix and without leading zero,
    the hexadecimal one in capitals. *)
Theorem base_entries_denote (n : Z) :
  majuscules_hex -> 0 <= n ->
  exists h b o,
    ecriture 16 h n /\ ecriture 2 b n /\ ecriture 8 o n
    /\ hexadecimal n = map chiffre_majuscule h
    /\ binary n = map caractere_chiffre b
    /\ octal n = map caractere_chiffre o.
Proof.
  intros HU Hn.
  exists (chiffres_base (S (Z.to_nat n)) 16 n),
         (chiffres_base (S (Z.to_nat n)) 2 n),
         (chiffres_base (S (Z.to_nat n)) 8 n).
  pose proof (chiffres_base_ecriture 16 (S (Z.to_nat n)) n ltac:(lia) Hn ltac:(lia)) as H16.
  pose proof (chiffres_base_ecriture 2 (S (Z.to_nat n)) n ltac:(lia) Hn ltac:(lia)) as H2.
  pose proof (chiffres_base_ecriture 8 (S (Z.to_nat n)) n ltac:(lia) Hn ltac:(lia)) as H8.
  split; [done | split; [done | split; [done | split; [ | split]]]].
  - unfold hexadecimal, py_hex. rewrite ecrire_base_nonneg by done.
    apply str_upper_chiffres; [done | ]. by destruct H16 as (_ & ? & _).
  - unfold binary, py_bin. by apply ecrire_base_nonneg.
  - unfold octal, py_oct. by apply ecrire_base_nonneg.
Qed.

End BaseConversions.

Lemma fragment_majuscules_hex : @majuscules_hex Fragment.interp.
Proof.
  intros k Hk.
  assert (Hin : k ∈ seqZ 0 16) by (apply elem_of_seqZ; lia).
  vm_compute seqZ in Hin.
  table_cases Hin; subst k; vm_compute; reflexivity.
Qed.

Lemma base_entries_denote_witness :
  exists h b o,
    ecriture 16 h 48879 /\ ecriture 2 b 48879 /\ ecriture 8 o 48879
    /\ @hexadecimal Fragment.interp 48879 = map chiffre_majuscule h
    /\ binary 48879 = map caractere_chiffre b
    /\ octal 48879 = map caractere_chiffre o.
Proof.
  apply (@base_entries_denote Fragment.interp 48879 fragment_majuscules_hex).
  lia.
Defined.

(** ** The letter-by-letter display *)

Section DisplayProperties.
Context `{I : Interp}.

Lemma single_upper_cons (c : Z) (w : str) :
  single_upper (c :: w) -> single_upper w.
Proof. intros H x Hx. apply H. by apply elem_of_cons; right. Qed.

Lemma single_upper_app (u w : str) :
  single_upper u -> single_upper w -> single_upper (u ++ w).
Proof.
  intros Hu Hw c Hc. apply elem_of_app in Hc as [Hc | Hc]; [by apply Hu | by apply Hw].
Qed.

Lemma single_upper_blanks (s : str) :
  spaces_not_alpha -> blanks s -> single_upper s.
Proof.
  intros HS Hb c Hc _ Ha. unfold blanks in Hb. rewrite Forall_forall in Hb.
  rewrite (HS c (Hb c Hc)) in Ha. discriminate.
Qed.

(** A word the encoder accepts has no letter without a one-character
    upper case, blanks at its ends included. *)
Lemma encoder_ok_single_upper (mot s : str) :
  spaces_not_alpha -> encoder_mot_hebreu mot = Ok s -> single_upper mot.
Proof.
  intros HS E.
  assert (Hs : single_upper (strip mot)).
  { destruct (single_upper_or_sans_majuscule (strip mot)) as [? | Hx]; [done | ].
    unfold encoder_mot_hebreu in E.
    rewrite (encoder_boucle_sans_majuscule _ [] Hx) in E. discriminate. }
  destruct (strip_decomp mot) as (pre & post & Em & B1 & B2).
  rewrite Em. apply single_upper_app; [by apply single_upper_blanks | ].
  apply single_upper_app; [done | by apply single_upper_blanks].
Qed.

Lemma detail_boucle_spec (mot : str) (i : Z) (lignes : list LigneDetail) :
  single_upper mot ->
  exists suite,
    detail_boucle i mot lignes = Ok (lignes ++ suite)
    /\ map code_affiche suite = concat (map code_lettre mot)
    /\ Forall (fun l => i < rang l
                        /\ mot !! Z.to_nat (rang l - 1 - i) = Some (lettre_affichee l)
                        /\ nom_affiche l <> Some [63]) suite.
Proof.
  revert i lignes. induction mot as [|c mot IH]; intros i lignes HU;
    cbn [detail_boucle map concat].
  - exists []. by rewrite app_nil_r.
  - assert (Hshift : forall suite,
      Forall (fun l => i + 1 < rang l
                       /\ mot !! Z.to_nat (rang l - 1 - (i + 1)) = Some (lettre_affichee l)
                       /\ nom_affiche l <> Some [63]) suite ->
      Forall (fun l => i < rang l
                       /\ (c :: mot) !! Z.to_nat (rang l - 1 - i) = Some (lettre_affichee l)
                       /\ nom_affiche l <> Some [63]) suite).
    { intros suite Hsuite. eapply Forall_impl; [exact Hsuite | ]. intros l (H1 & H2 & H3).
      split; [lia | split; [ | done]].
      replace (Z.to_nat (rang l - 1 - i)) with (S (Z.to_nat (rang l - 1 - (i + 1)))) by lia.
      done. }
    pose proof (single_upper_cons c mot HU) as HU'.
    unfold code_lettre at 1.
    destruct (ALPHABET_HEBREU !! c) as [v|] eqn:Ec.
    + destruct (IH (i + 1) (lignes ++ [{| rang := i + 1; lettre_affichee := c;
                  nom_affiche := Some (nom_lettre_hebreu c); code_affiche := v |}]) HU')
        as (suite & E & Hc & Hf).
      eexists (_ :: suite). rewrite E, <- app_assoc. split; [done | ].
      cbn [map app code_affiche]. split; [by rewrite Hc | ].
      constructor; [ | by apply Hshift].
      cbn [rang lettre_affichee nom_affiche].
      split; [lia | split].
      * by replace (Z.to_nat (i + 1 - 1 - i)) with 0%nat by lia.
      * intros E63. injection E63 as E63.
        destruct (hebreu_noms c v Ec) as (s & Es & Hs).
        unfold nom_lettre_hebreu in E63. rewrite Es in E63. done.
    + destruct (isalpha c) eqn:Ea.
      * destruct (HU c ltac:(by apply elem_of_cons; left) Ec Ea) as [u Eu].
        rewrite Eu. cbn [ord bind].
        destruct (IH (i + 1) (lignes ++ [{| rang := i + 1; lettre_affichee := c;
                  nom_affiche := None; code_affiche := u - ord_A + 1 |}]) HU')
          as (suite & E & Hc & Hf).
        eexists (_ :: suite). rewrite E, <- app_assoc. split; [done | ].
        cbn [map app code_affiche]. split; [by rewrite Hc | ].
        constructor; [ | by apply Hshift].
        cbn [rang lettre_affichee nom_affiche].
        split; [lia | split; [ | done]].
        by replace (Z.to_nat (i + 1 - 1 - i)) with 0%nat by lia.
      * destruct (IH (i + 1) lignes HU') as (suite & E & Hc & Hf).
        exists suite. split; [done | split; [done | by apply Hshift]].
Qed.


End DisplayProperties.


(** ** The display on a standard output that encodes what it is given *)

Lemma imprimable_app (s t : str) :
  imprimable s -> imprimable t -> imprimable (s ++ t).
Proof. unfold imprimable. intros Hs Ht. by rewrite forallb_app, Hs, Ht. Qed.

Ltac imprimable_split :=
  repeat match goal with
         | |- imprimable (_ ++ _) => apply imprimable_app
         end.

Lemma imprimable_Forall (s : str) :
  imprimable s <-> Forall (fun c => scalaire c = true) s.
Proof.
  unfold imprimable. rewrite forallb_forall, Forall_forall.
  split; intros H c Hc; apply H; by apply list_elem_of_In.
Qed.

Lemma imprimable_cons (c : Z) (s : str) :
  scalaire c = true -> imprimable s -> imprimable (c :: s).
Proof. unfold imprimable. cbn [forallb]. by intros -> ->. Qed.

Lemma imprimable_replicate (n : nat) (c : Z) :
  scalaire c = true -> imprimable (replicate n c).
Proof.
  intros Hc. induction n as [|n IH]; [done | ].
  cbn [replicate]. by apply imprimable_cons.
Qed.

Lemma caractere_de_sequence_scalaire (c : Z) :
  caractere_de_sequence c -> scalaire c = true.
Proof.
  unfold caractere_de_sequence, chiffre, dot, minus, scalaire.
  intros H. apply orb_true_iff. left. apply andb_true_iff.
  split; apply Z.leb_le; lia.
Qed.

Lemma py_str_imprimable (n : Z) : imprimable (py_str n).
Proof.
  apply imprimable_Forall. eapply Forall_impl; [apply py_str_caracteres | ].
  apply caractere_de_sequence_scalaire.
Qed.

Lemma format_2d_imprimable (n : Z) : imprimable (format_2d n).
Proof.
  unfold format_2d. apply imprimable_app;
    [by apply imprimable_replicate | apply py_str_imprimable].
Qed.

Lemma quatre_decimales_imprimable (k : Z) : imprimable (quatre_decimales k).
Proof.
  unfold quatre_decimales. apply imprimable_app;
    [by apply imprimable_replicate | apply py_str_imprimable].
Qed.

Lemma format_4f_imprimable (x : spec_float) : imprimable (format_4f x).
Proof.
  destruct x as [s | s | | s m e]; cbn [format_4f];
    try (destruct s; reflexivity).
  - reflexivity.
  - apply imprimable_app; [by destruct s | ].
    apply imprimable_app; [apply py_str_imprimable | ].
    apply imprimable_cons; [done | apply quatre_decimales_imprimable].
Qed.

Lemma join_imprimable (sep : str) (l : list str) :
  imprimable sep -> Forall imprimable l -> imprimable (join sep l).
Proof.
  intros Hs. induction 1 as [|t l Ht Hl IH]; [done | ].
  destruct l as [|u l]; [done | ].
  change (join sep (t :: u :: l)) with (t ++ sep ++ join sep (u :: l)).
  by imprimable_split.
Qed.

Lemma hebreu_scalaire (c : Z) :
  is_Some (ALPHABET_HEBREU !! c) -> scalaire c = true.
Proof.
  intros [v H%alphabet_hebreu_elem]. unfold alphabet_hebreu_items in H.
  table_cases H; by injection H as -> _.
Qed.

Lemma isspace_scalaire (c : Z) : isspace c = true -> scalaire c = true.
Proof.
  unfold isspace, scalaire. intros H.
  rewrite ?orb_true_iff, ?andb_true_iff, ?Z.leb_le, ?Z.eqb_eq in H.
  apply orb_true_iff. left. apply andb_true_iff. split; apply Z.leb_le; lia.
Qed.

Lemma lettre_ou_blanc_imprimable (w : str) :
  Forall lettre_ou_blanc w -> imprimable w.
Proof.
  intros H. apply imprimable_Forall. eapply Forall_impl; [exact H | ].
  intros c [Hc | Hc]; [by apply hebreu_scalaire | by apply isspace_scalaire].
Qed.

Lemma nom_lettre_hebreu_imprimable (c : Z) : imprimable (nom_lettre_hebreu c).
Proof.
  unfold nom_lettre_hebreu. destruct (noms !! c) as [s|] eqn:E; [ | done].
  apply noms_elem in E. unfold noms_items in E.
  table_cases E; by injection E as _ ->.
Qed.

Lemma signification_gematria_imprimable (n : Z) :
  imprimable (signification_gematria n).
Proof.
  unfold signification_gematria.
  destruct (significations !! n) as [s|] eqn:E; [ | done].
  apply significations_elem in E. unfold significations_items in E.
  table_cases E; by injection E as _ ->.
Qed.

Lemma texte_ligne_imprimable (l : LigneDetail) :
  scalaire (lettre_affichee l) = true ->
  (forall nom, nom_affiche l = Some nom -> imprimable nom) ->
  imprimable (texte_ligne l).
Proof.
  intros Hl Hn. unfold texte_ligne. destruct (nom_affiche l) as [nom|].
  - imprimable_split;
      first [ apply format_2d_imprimable | by apply Hn
            | by apply imprimable_cons | done ].
  - imprimable_split;
      first [ apply format_2d_imprimable | by apply imprimable_cons | done ].
Qed.

Section DisplayReturns.
Context `{I : Interp}.

Lemma bases_imprimables (n : Z) :
  majuscules_hex -> 0 <= n ->
  imprimable (hexadecimal n) /\ imprimable (binary n) /\ imprimable (octal n).
Proof.
  intros HU Hn.
  assert (Hc : forall b ds, b <= 16 -> Forall (fun d => 0 <= d < b) ds ->
             imprimable (map caractere_chiffre ds)
             /\ imprimable (map chiffre_majuscule ds)).
  { intros b ds Hb Hds. induction Hds as [|d ds Hd _ [IH1 IH2]]; [done | ].
    cbn [map]. split; apply imprimable_cons; try done.
    - unfold caractere_chiffre, scalaire. apply orb_true_iff. left.
      apply andb_true_iff. destruct (d <? 10); split; apply Z.leb_le; lia.
    - unfold chiffre_majuscule, scalaire. apply orb_true_iff. left.
      apply andb_true_iff. destruct (d <? 10); split; apply Z.leb_le; lia. }
  destruct (chiffres_base_ecriture 16 (S (Z.to_nat n)) n ltac:(lia) Hn ltac:(lia))
    as (_ & H16 & _).
  destruct (chiffres_base_ecriture 2 (S (Z.to_nat n)) n ltac:(lia) Hn ltac:(lia))
    as (_ & H2 & _).
  destruct (chiffres_base_ecriture 8 (S (Z.to_nat n)) n ltac:(lia) Hn ltac:(lia))
    as (_ & H8 & _).
  unfold hexadecimal, binary, octal, py_hex, py_bin, py_oct.
  rewrite !ecrire_base_nonneg by done.
  rewrite (str_upper_chiffres _ HU H16).
  split; [by apply (Hc 16) | split; [by apply (Hc 2) | by apply (Hc 8)]].
Qed.

Section Utf8.
Hypothesis Hout : stdout_utf8.

Lemma print_end_returns (text fin : str) :
  imprimable text -> imprimable fin -> print_end text fin = Ok tt.
Proof.
  intros Ht Hf. unfold print_end.
  replace (forallb stdout_encodes (text ++ fin)) with true; [done | ].
  symmetry. apply forallb_forall. intros c Hc.
  apply Hout. pose proof (imprimable_app text fin Ht Hf) as H.
  unfold imprimable in H. rewrite forallb_forall in H. by apply H.
Qed.

Lemma print_returns (text : str) : imprimable text -> print text = Ok tt.
Proof. intros H. by apply print_end_returns. Qed.

Lemma print_all_returns (textes : list str) :
  Forall imprimable textes -> print_all textes = Ok tt.
Proof.
  induction 1 as [|t l Ht _ IH]; [done | ].
  cbn [print_all]. by rewrite (print_returns t Ht).
Qed.

Lemma afficher_detail_returns (mot : str) (i : Z) :
  single_upper mot -> imprimable mot -> afficher_detail i mot = Ok tt.
Proof.
  revert i. induction mot as [|c mot IH]; intros i HU Hm; [done | ].
  apply imprimable_Forall, Forall_cons in Hm as [Hc Hm].
  apply imprimable_Forall in Hm.
  pose proof (single_upper_cons c mot HU) as HU'.
  cbn [afficher_detail]. destruct (ALPHABET_HEBREU !! c) as [v|] eqn:Ec.
  - rewrite print_returns; [by apply IH | ].
    apply texte_ligne_imprimable; [done | ].
    cbn [nom_affiche]. intros nom [= <-]. apply nom_lettre_hebreu_imprimable.
  - destruct (isalpha c) eqn:Ea; [ | by apply IH].
    destruct (HU c ltac:(by apply elem_of_cons; left) Ec Ea) as [u Eu].
    rewrite Eu. cbn [ord bind].
    rewrite print_returns; [by apply IH | ].
    apply texte_ligne_imprimable; [done | ]. cbn [nom_affiche]. by intros.
Qed.

Lemma afficher_paires_returns (ligne : list (Z * Z)) :
  Forall (fun p => scalaire p.1 = true) ligne -> afficher_paires ligne = Ok tt.
Proof.
  induction 1 as [|[c v] l Hc _ IH]; [done | ].
  cbn [afficher_paires]. rewrite print_end_returns; [done | | done].
  apply imprimable_cons; [done | ].
  apply imprimable_cons; [done | apply format_2d_imprimable].
Qed.

Lemma afficher_rangees_returns (indices : list Z) (l : list (Z * Z)) :
  Forall (fun p => scalaire p.1 = true) l -> afficher_rangees indices l = Ok tt.
Proof.
  intros Hl. induction indices as [|i indices IH]; [done | ].
  cbn [afficher_rangees]. rewrite afficher_paires_returns.
  - cbn [bind]. by rewrite print_returns.
  - by apply Forall_take, Forall_drop.
Qed.

Lemma afficher_table_hebreu_returns : afficher_table_hebreu = Ok tt.
Proof.
  unfold afficher_table_hebreu.
  rewrite !print_returns by done. cbn [bind].
  rewrite afficher_rangees_returns.
  - cbn [bind]. rewrite afficher_paires_returns; [done | ].
    unfold final_forms. repeat (apply Forall_cons_2; [done | ]). apply Forall_nil_2.
  - vm_compute alphabet_unique.
    repeat (apply Forall_cons_2; [done | ]). apply Forall_nil_2.
Qed.

(** [afficher_resultats] returns on results whose texts are made of
    scalar values, when the number analysed is not negative and the
    letters of the word have a one-character upper case. *)
Lemma afficher_resultats_returns (results : MotResults) :
  majuscules_hex ->
  imprimable (mot_original results) ->
  imprimable (sequence_hebreu results) ->
  imprimable (mot_decode results) ->
  0 <= decimal_ (nombre_results results) ->
  imprimable (md5_ (nombre_results results)) ->
  imprimable (sha256_ (nombre_results results)) ->
  imprimable (base64_ (nombre_results results)) ->
  single_upper (mot_original results) ->
  afficher_resultats results = Ok tt.
Proof.
  intros HU H1 H2 H3 Hn H4 H5 H6 H7. unfold afficher_resultats.
  rewrite print_all_returns; [by apply afficher_detail_returns | ].
  destruct (bases_imprimables _ HU Hn) as (Hh & Hb & Ho).
  unfold lignes_resultats.
  assert (Hp : forall p, imprimable (parity_texte p)) by (by intros []).
  assert (Hq : forall p, imprimable (prime_status_texte p)) by (by intros []).
  assert (Hf : imprimable (join [44; 32] (map py_str (factors (nombre_results results))))).
  { apply join_imprimable; [done | ]. apply Forall_forall. intros t Ht.
    apply elem_of_map in Ht as (v & -> & _). apply py_str_imprimable. }
  repeat apply Forall_app_2;
    [ | destruct (isnan _); [apply Forall_nil_2 | ] | ];
    repeat (apply Forall_cons_2; [ | ]); try apply Forall_nil_2;
    try (destruct (est_palindrome results));
    imprimable_split;
    first [ done | apply py_str_imprimable | apply format_4f_imprimable
          | apply signification_gematria_imprimable
          | by apply imprimable_replicate ].
Qed.

End Utf8.
End DisplayReturns.

Lemma fragment_stdout_utf8 : @stdout_utf8 Fragment.interp.
Proof. intros c Hc. exact Hc. Qed.

Lemma fragment_digests_imprimables : @digests_imprimables Fragment.interp.
Proof. intros s. by repeat split. Qed.

(** ** The program on a Hebrew word and on a sequence *)

Lemma caractere_de_sequence_not_blank c :
  caractere_de_sequence c -> isspace c = false.
Proof.
  unfold caractere_de_sequence, chiffre, dot, minus.
  intros [H | [-> | ->]]; [ | done | done].
  assert (Hin : c ∈ seqZ 48 10) by (apply elem_of_seqZ; lia).
  vm_compute seqZ in Hin. table_cases Hin; by subst c.
Qed.

Lemma strip_subseteq (s : str) (c : Z) : c ∈ strip s -> c ∈ s.
Proof.
  destruct (strip_decomp s) as (pre & post & E & _ & _).
  intros H. rewrite E, !elem_of_app. tauto.
Qed.

Lemma strip_length (s : str) : (length (strip s) <= length s)%nat.
Proof.
  destruct (strip_decomp s) as (pre & post & E & _ & _).
  rewrite E at 2. rewrite !length_app. lia.
Qed.

Lemma join_dot_elem (t : str) (l : list str) :
  l <> [] -> dot ∈ join [dot] (t :: l).
Proof.
  destruct l as [|u l]; [done | ]. intros _. cbn [join].
  rewrite elem_of_app. right. apply elem_of_app. left. by apply list_elem_of_singleton.
Qed.

Section HebrewText.
Context `{I : Interp}.

Lemma code_lettre_hebreu (w : str) :
  spaces_not_alpha -> Forall lettre_ou_blanc w ->
  concat (map code_lettre w) = map contribution (List.filter est_hebreu w).
Proof.
  intros HS. induction 1 as [|c w Hc _ IH]; cbn [map concat List.filter]; [done | ].
  rewrite IH. unfold code_lettre at 1. destruct Hc as [[v Hv] | Hb].
  - rewrite (proj2 (est_hebreu_true c)) by (rewrite Hv; eauto).
    rewrite Hv. cbn [map app]. unfold contribution at 2. by rewrite Hv.
  - rewrite (isspace_not_hebreu c Hb), (HS c Hb).
    by rewrite (proj2 (est_hebreu_false c) (isspace_not_hebreu c Hb)).
Qed.

Lemma aller_retour_hebreu (w : str) :
  spaces_not_alpha -> Forall lettre_ou_blanc w ->
  concat (map aller_retour w) = map forme_canonique (List.filter est_hebreu w).
Proof.
  intros HS. induction 1 as [|c w Hc _ IH]; cbn [map concat List.filter]; [done | ].
  rewrite IH. unfold aller_retour at 1, code_lettre. destruct Hc as [[v Hv] | Hb].
  - rewrite (proj2 (est_hebreu_true c)) by (rewrite Hv; eauto).
    rewrite Hv. cbn [map concat app]. unfold lettre_decodee.
    pose proof (alphabet_hebreu_range c v Hv) as [Hr _].
    replace ((1 <=? v) && (v <=? 22)) with true
      by (symmetry; apply andb_true_iff; split; apply Z.leb_le; lia).
    by rewrite (alphabet_inverse_canonique c v Hv).
  - rewrite (isspace_not_hebreu c Hb), (HS c Hb).
    by rewrite (proj2 (est_hebreu_false c) (isspace_not_hebreu c Hb)).
Qed.

Lemma single_upper_hebreu (w : str) :
  spaces_not_alpha -> Forall lettre_ou_blanc w -> single_upper w.
Proof.
  intros HS Hw c Hc Hn Ha. rewrite Forall_forall in Hw.
  destruct (Hw c Hc) as [[v Hv] | Hb]; [congruence | ].
  rewrite (HS c Hb) in Ha. discriminate.
Qed.

Lemma codes_bornes_hebreu (w : str) :
  spaces_not_alpha -> Forall lettre_ou_blanc w -> codes_bornes w.
Proof.
  intros HS Hw c v Hc Hv. rewrite Forall_forall in Hw.
  unfold code_lettre in Hv. destruct (Hw c Hc) as [[x Hx] | Hb].
  - rewrite Hx in Hv. apply list_elem_of_singleton in Hv. subst x.
    pose proof (alphabet_hebreu_range c v Hx) as [Hr _].
    assert (2 ^ 5 < 2 ^ 640) by (apply Z.pow_lt_mono_r; lia).
    change (2 ^ 5) with 32 in *. lia.
  - rewrite (isspace_not_hebreu c Hb), (HS c Hb) in Hv. by apply elem_of_nil in Hv.
Qed.

Lemma dot_not_lettre_ou_blanc (w : str) : Forall lettre_ou_blanc w -> dot ∉ w.
Proof.
  intros Hw Hd. rewrite Forall_forall in Hw. destruct (Hw dot Hd) as [[v Hv] | Hb].
  - vm_compute in Hv. discriminate.
  - vm_compute in Hb. discriminate.
Qed.

Lemma analyser_nombre_fields (fuel : nat) (n : Z) (nr : NombreResults) :
  analyser_nombre fuel n = Ok nr ->
  decimal_ nr = n /\ md5_ nr = md5 (py_str n)
  /\ sha256_ nr = sha256 (py_str n) /\ base64_ nr = b64encode (py_str n).
Proof.
  intros E. unfold analyser_nombre in E.
  apply bind_Ok_inv in E as (? & _ & E).
  apply bind_Ok_inv in E as (? & _ & E).
  apply bind_Ok_inv in E as (? & _ & E).
  apply bind_Ok_inv in E as (? & _ & E).
  by injection E as <-.
Qed.

Lemma forme_canonique_scalaire (c : Z) :
  scalaire c = true -> scalaire (forme_canonique c) = true.
Proof.
  intros Hc. unfold forme_canonique.
  repeat match goal with
         | |- context [?a =? ?b] => destruct (Z.eqb_spec a b); [done | ]
         end.
  done.
Qed.

(** The results of [analyser_mot_hebreu] on a word of Hebrew letters and
    blanks, and their display. *)
Lemma analyser_mot_hebreu_texte (fuel : nat) (w : str) :
  ascii_digits -> spaces_not_alpha -> set_iter_spec ->
  stdout_utf8 -> majuscules_hex -> digests_imprimables ->
  Forall lettre_ou_blanc w ->
  Z.of_nat (length w) < 2 ^ 47 ->
  (Z.to_nat (mot_vers_nombre w) <= fuel)%nat ->
  exists r,
    analyser_mot_hebreu fuel w = Ok r
    /\ mot_original r = w
    /\ sequence_hebreu r
       = join [dot] (map (fun c => py_str (contribution c)) (List.filter est_hebreu w))
    /\ mot_decode r = map forme_canonique (List.filter est_hebreu w)
    /\ valeur_numerique r = mot_vers_nombre w
    /\ nombre_lettres r = compter_lettres_hebreu w
    /\ afficher_resultats r = Ok tt.
Proof.
  intros HA HS HI Hout HX HD Hw Hlen Hf.
  destruct (analyser_mot_hebreu_ok fuel w HA HS HI
              (single_upper_hebreu w HS Hw) (codes_bornes_hebreu w HS Hw) Hlen Hf)
    as (lu & nr & _ & Enr & E).
  eexists. split; [exact E | ].
  cbn [mot_original sequence_hebreu mot_decode valeur_numerique nombre_lettres].
  rewrite (code_lettre_hebreu w HS Hw), (aller_retour_hebreu w HS Hw), map_map.
  do 5 (split; [done | ]).
  destruct (analyser_nombre_fields _ _ _ Enr) as (F1 & F2 & F3 & F4).
  destruct (HD (py_str (mot_vers_nombre w))) as (D1 & D2 & D3).
  apply (afficher_resultats_returns Hout);
    cbn [mot_original sequence_hebreu mot_decode nombre_results]; try done.
  - by apply lettre_ou_blanc_imprimable.
  - apply join_imprimable; [done | ]. apply Forall_forall. intros t Ht.
    apply elem_of_map in Ht as (c & -> & _). apply py_str_imprimable.
  - apply imprimable_Forall, Forall_forall. intros c Hc.
    apply elem_of_map in Hc as (x & -> & Hx).
    apply forme_canonique_scalaire, hebreu_scalaire.
    by apply elem_of_filter_hebreu in Hx as [_ ?].
  - rewrite F1. apply mot_vers_nombre_nonneg.
  - by rewrite F2.
  - by rewrite F3.
  - by rewrite F4.
  - by apply single_upper_hebreu.
Qed.


Lemma lettres_decodees_hebreu (vs : list Z) :
  Forall (fun v => 1 <= v <= 22) vs ->
  exists w,
    concat (map lettre_decodee vs) = w
    /\ Forall (fun c => is_Some (ALPHABET_HEBREU !! c)) w
    /\ map contribution w = vs
    /\ map forme_canonique w = w.
Proof.
  induction 1 as [|v vs Hv _ (w & E & Hw & Hc & Hf)]; cbn [map concat].
  - exists []. by repeat split.
  - destruct (alphabet_inverse_total v Hv) as (l & El & Ev).
    destruct (alphabet_inverse_non_final v l El) as (_ & _ & Hn).
    exists (l :: w). unfold lettre_decodee at 1.
    replace ((1 <=? v) && (v <=? 22)) with true
      by (symmetry; apply andb_true_iff; split; apply Z.leb_le; lia).
    rewrite El, E. cbn [default from_option id app map].
    split; [done | split; [ | split]].
    + constructor; [by rewrite Ev | done].
    + unfold contribution at 1. rewrite Ev, Hc. done.
    + by rewrite (forme_canonique_id l Hn), Hf.
Qed.


End HebrewText.



(** ** How the gematria and the palindrome check compose *)

Lemma contribution_forme_canonique (c : Z) :
  contribution (forme_canonique c) = contribution c.
Proof.
  unfold forme_canonique.
  repeat match goal with
         | |- context [?a =? ?b] => destruct (Z.eqb_spec a b); [by subst | ]
         end.
  done.
Qed.

Lemma contribution_filter (s : str) :
  sum_list (map contribution (List.filter est_hebreu s))
  = sum_list (map contribution s).
Proof.
  unfold sum_list. induction s as [|c s IH]; cbn [List.filter map foldr]; [done | ].
  destruct (est_hebreu c) eqn:E; cbn [map foldr]; rewrite IH; [done | ].
  apply est_hebreu_false in E. unfold contribution at 2. by rewrite E.
Qed.

(** The gematria of a word is additive over concatenation and does not
    depend on the order of the letters, on blanks at the ends, on the
    characters outside the Hebrew table, or on whether a letter is written
    in its final form. *)
Theorem mot_vers_nombre_composition :
  (forall s t : str,
      mot_vers_nombre (s ++ t) = mot_vers_nombre s + mot_vers_nombre t)
  /\ (forall s t : str, s ≡ₚ t -> mot_vers_nombre s = mot_vers_nombre t)
  /\ (forall s : str, mot_vers_nombre (strip s) = mot_vers_nombre s)
  /\ (forall s : str, mot_vers_nombre (List.filter est_hebreu s) = mot_vers_nombre s)
  /\ (forall s : str, mot_vers_nombre (map forme_canonique s) = mot_vers_nombre s).
Proof.
  split; [ | split; [ | split; [ | split]]].
  - intros s t. rewrite !mot_vers_nombre_sum. apply sum_contribution_app.
  - intros s t H. rewrite !mot_vers_nombre_sum. unfold sum_list.
    induction H as [|c s t _ IH|c d s|s t u _ IH1 _ IH2]; cbn [map foldr]; lia.
  - exact mot_vers_nombre_strip.
  - intros s. rewrite !mot_vers_nombre_sum. apply contribution_filter.
  - intros s. rewrite !mot_vers_nombre_sum, map_map. unfold sum_list.
    induction s as [|c s IH]; cbn [map foldr]; [done | ].
    by rewrite contribution_forme_canonique, IH.
Qed.

Lemma filter_reverse {A} (f : A -> bool) (l : list A) :
  List.filter f (reverse l) = reverse (List.filter f l).
Proof.
  induction l as [|x l IH]; [done | ].
  rewrite reverse_cons, List.filter_app, IH. cbn [List.filter].
  destruct (f x); [by rewrite reverse_cons | by rewrite app_nil_r].
Qed.

(** A word and the word read backwards get the same answer from
    [est_palindrome_hebreu]; a word followed by itself read backwards,
    with or without a character in the middle, is a palindrome. A final
    form is not the letter it stands for: the word nun, vav, final nun is
    no palindrome, while the word its encoding decodes to is one. *)
Theorem est_palindrome_hebreu_mirror :
  (forall s : str, est_palindrome_hebreu (reverse s) = est_palindrome_hebreu s)
  /\ (forall s : str, est_palindrome_hebreu (s ++ reverse s) = true)
  /\ (forall (s : str) (c : Z), est_palindrome_hebreu (s ++ c :: reverse s) = true)
  /\ est_palindrome_hebreu noun = false
  /\ est_palindrome_hebreu (map forme_canonique noun) = true.
Proof.
  split; [ | split; [ | split; [ | split]]].
  - intros s. unfold est_palindrome_hebreu.
    rewrite !filter_hebreu_strip, filter_reverse, reverse_involutive.
    apply bool_decide_ext. split; intros E; by rewrite <- E at 1.
  - intros s. unfold est_palindrome_hebreu. apply bool_decide_eq_true.
    rewrite filter_hebreu_strip, List.filter_app, filter_reverse.
    by rewrite reverse_app, reverse_involutive.
  - intros s c. unfold est_palindrome_hebreu. apply bool_decide_eq_true.
    rewrite filter_hebreu_strip, List.filter_app. cbn [List.filter].
    rewrite filter_reverse. destruct (est_hebreu c).
    + rewrite reverse_app, reverse_cons, reverse_involutive, <- app_assoc. done.
    + by rewrite reverse_app, reverse_involutive.
  - vm_compute. reflexivity.
  - vm_compute. reflexivity.
Qed.

(** ** The digit entries of the number analysis *)

(** Horner's rule from an accumulator. *)
Lemma horner_bounds (ks : list Z) (acc : Z) :
  Forall (fun k => 0 <= k <= 9) ks -> 0 <= acc ->
  let v := fold_left (fun a k => 10 * a + k) ks acc in
  acc * 10 ^ Z.of_nat (length ks) <= v < (acc + 1) * 10 ^ Z.of_nat (length ks)
  /\ v mod 9 = (acc + sum_list ks) mod 9.
Proof.
  intros H. revert acc. unfold sum_list.
  induction H as [|k ks Hk _ IH]; intros acc Hacc; cbn [fold_left length foldr].
  - cbn. split; [lia | f_equal; lia].
  - destruct (IH (10 * acc + k) ltac:(lia)) as [[H1 H2] H3].
    rewrite Nat2Z.inj_succ, Z.pow_succ_r by lia.
    assert (0 < 10 ^ Z.of_nat (length ks)) by (apply Z.pow_pos_nonneg; lia).
    split; [split; nia | ].
    rewrite H3. rewrite <- (Z.add_mod_idemp_l (10 * acc + k)) by lia.
    rewrite <- (Z.add_mod_idemp_l acc (k + _)) by lia.
    replace ((10 * acc + k) mod 9) with ((acc + k) mod 9).
    + rewrite Z.add_mod_idemp_l, Z.add_mod_idemp_l by lia. f_equal; lia.
    + replace (10 * acc + k) with (acc + k + acc * 9) by lia.
      by rewrite Z.mod_add by lia.
Qed.

Lemma valeurs_head (d : Decimal.uint) :
  d <> Decimal.Nil -> (forall d', d <> Decimal.D0 d') ->
  exists k ks, valeurs d = k :: ks /\ 1 <= k <= 9.
Proof.
  intros H1 H2. destruct d; cbn [valeurs];
    [done | by destruct (H2 d) | eexists _, _; split; [done | lia] ..].
Qed.

Lemma to_uint_head (p : positive) :
  exists k ks, valeurs (Pos.to_uint p) = k :: ks /\ 1 <= k <= 9.
Proof.
  apply valeurs_head; [apply DecimalPos.Unsigned.to_uint_nonnil | ].
  intros d' E.
  pose proof (DecimalPos.Unsigned.to_of (Pos.to_uint p)) as H.
  rewrite DecimalPos.Unsigned.of_to in H. cbn [N.to_uint] in H.
  pose proof (DecimalPos.Unsigned.to_uint_nonzero p) as Hz.
  rewrite H in Hz. apply (DecimalFacts.nzhead_nonzero (Pos.to_uint p) d').
  rewrite <- DecimalFacts.unorm_nzhead; [congruence | ].
  intros Hn. apply Hz. by apply DecimalFacts.unorm_0.
Qed.

Section Digits.
Context `{I : Interp}.

Lemma sum_digits_valeurs (ks : list Z) :
  ascii_digits -> Forall (fun k => 0 <= k <= 9) ks ->
  sum_digits (map (fun k => 48 + k) ks) = Ok (sum_list ks).
Proof.
  intros HA. unfold sum_list.
  induction 1 as [|k ks Hk _ IH]; cbn [map sum_digits foldr]; [done | ].
  rewrite (py_int_chiffre (48 + k) HA) by (unfold chiffre; lia).
  rewrite IH. cbn [bind]. f_equal. lia.
Qed.

(** In the results of [analyser_nombre] for a number that is not
    negative, [digit_count] is the number of decimal digits of the number
    and [digit_sum], the sum of these digits, is congruent to the number
    modulo 9; the sum is 0 for 0 only. *)
Theorem digit_entries_decimal (fuel : nat) (n : Z) (r : NombreResults) :
  ascii_digits -> 0 <= n -> analyser_nombre fuel n = Ok r ->
  digit_sum r mod 9 = n mod 9
  /\ (n = 0 -> digit_count r = 1 /\ digit_sum r = 0)
  /\ (0 < n -> 10 ^ (digit_count r - 1) <= n < 10 ^ digit_count r
               /\ 1 <= digit_sum r <= 9 * digit_count r).
Proof.
  intros HA Hn E. unfold analyser_nombre in E.
  apply bind_Ok_inv in E as (? & _ & E).
  apply bind_Ok_inv in E as (? & _ & E).
  apply bind_Ok_inv in E as (ds & Eds & E).
  apply bind_Ok_inv in E as (? & _ & E).
  injection E as <-. cbn [digit_sum digit_count].
  destruct n as [|p|p]; [ | | lia].
  - replace (py_str 0) with (map (fun k => 48 + k) [0]) in Eds |- *
      by (vm_compute; reflexivity).
    rewrite (sum_digits_valeurs [0] HA) in Eds by (repeat constructor; lia).
    injection Eds as <-. cbn. repeat split; lia.
  - destruct (py_str_pos p) as [Ep _]. rewrite Ep in Eds |- *.
    pose proof (valeurs_range (Pos.to_uint p)) as Hr.
    rewrite (sum_digits_valeurs _ HA Hr) in Eds. injection Eds as <-.
    rewrite length_map.
    pose proof (of_uint_fold (Pos.to_uint p)) as Ev.
    rewrite DecimalPos.Unsigned.of_to in Ev. cbn [Z.of_N] in Ev.
    destruct (to_uint_head p) as (k & ks & Ek & Hk).
    rewrite Ek in *. cbn [fold_left] in Ev.
    replace (10 * 0 + k) with k in Ev by lia.
    apply Forall_cons in Hr as [_ Hr].
    destruct (horner_bounds ks k Hr ltac:(lia)) as [[H1 H2] H3].
    cbn zeta in H1, H2, H3. rewrite <- Ev in H1, H2, H3.
    assert (0 < 10 ^ Z.of_nat (length ks)) by (apply Z.pow_pos_nonneg; lia).
    assert (Hs : 0 <= sum_list ks <= 9 * Z.of_nat (length ks)).
    { clear -Hr. unfold sum_list.
      induction Hr as [|x l Hx _ IH]; cbn [foldr length]; lia. }
    unfold sum_list in *. cbn [foldr length].
    split; [by rewrite H3 | split; [lia | ]].
    intros _. rewrite Nat2Z.inj_succ.
    replace (Z.succ (Z.of_nat (length ks)) - 1) with (Z.of_nat (length ks)) by lia.
    rewrite Z.pow_succ_r by lia. split; [nia | lia].
Qed.

End Digits.

Lemma digit_entries_decimal_witness :
  exists r,
    @analyser_nombre Fragment.interp 52 52 = Ok r
    /\ digit_sum r mod 9 = 52 mod 9
    /\ (52 = 0 -> digit_count r = 1 /\ digit_sum r = 0)
    /\ (0 < 52 -> 10 ^ (digit_count r - 1) <= 52 < 10 ^ digit_count r
                  /\ 1 <= digit_sum r <= 9 * digit_count r).
Proof.
  eexists. split; [vm_compute; reflexivity | ].
  apply (@digit_entries_decimal Fragment.interp 52 52 _ fragment_ascii_digits).
  - lia.
  - vm_compute. reflexivity.
Defined.
